(** * Sthira execution kernel: a shallow embedding and its properties

    The first part embeds [packages/core/src], one module per source file:
    - [JsMap], [JsSet]: the insertion-ordered [Map] and [Set] of the host
      language, as the kernel uses them;
    - [ScopeFSM] (scope/ScopeFSM.ts);
    - [StreamBuffer] (engine/StreamBuffer.ts), [Worker], [Handler],
      [Stream] (task/);
    - [Task] (task/Task.ts), [TaskTable] (task/TaskTable.ts);
    - [Scope] (scope/Scope.ts);
    - [WorkerPool] (engine/WorkerPool.ts);
    - [Authority] (core/Authority.ts), the broadcast mediator, and
      [Registry], its scope registry and lifecycle.
    The second part states and proves the properties, one module of
    properties per module of definitions.

    Conventions of the embedding:
    - Objects that the source shares by reference (Tasks between a Scope's
      table and its callers, Workers between a Task's map and the handles
      it returns, pooled workers between the pool's map and the dispatch
      continuations) live in an explicit store, a list indexed by
      allocation order; maps hold addresses into it.
    - An [async] method is split at its [await]: the synchronous prefix is
      one function, the continuation another, and the suspended frame is a
      field ([awaiting]) of the object the method closes over.
    - Execution is single-threaded: a method of the kernel runs to its end
      or to its [await] before anything else enters the object, so one
      method call, or one resumption, is one step. Code of the caller that
      the kernel runs in the middle of a method (a listener on an abort
      signal, a stream subscriber) is taken not to call back into the
      object while that method runs; calls from inside a callback are
      modelled for [Authority.broadcast] ([Authority.deliver]) and for
      [Stream.emit] and [Stream.subscribe] ([Stream.emit_with],
      [Stream.subscribe_with]).
    - The ids that the kernel builds from [Date.now()] and [Math.random()]
      are functions of an [Entropy] handed in by the environment. *)

From Stdlib Require Import ZArith String List Bool Lia.
From Stdlib Require QArith Qround.
From stdpp Require Import base option strings list pretty.
Import ListNotations.

Local Open Scope Z_scope.
Local Open Scope nat_scope.

(** ** Identifiers and host values *)

Definition ScopeID := string.
Definition Ref := string.
Definition WorkerID := string.
Definition HandlerID := string.
Definition StreamID := string.

(** What [Date.now()] and [Math.random().toString(36).slice(..)] return at
    one call site: the kernel has no control over either. *)
Record Entropy := { now : N; rnd : string }.

(** Values a user function may return or emit. *)
Inductive JsValue :=
| VUndefined
| VBool (b : bool)
| VNum (z : Z)
| VStr (s : string).

(** [Error] objects, by provenance: one thrown by user code, one the kernel
    builds with [new Error(String(err))] around a thrown non-Error value,
    and one the kernel builds itself with [new Error(msg)]. Two objects of
    different provenance are never the same object, whatever their
    messages. *)
Inductive JsError :=
| UserError (msg : string)
| WrappedError (repr : string)
| KernelError (msg : string).

(** What a [throw] carries. *)
Inductive Thrown :=
| ThrowError (e : JsError)
| ThrowValue (repr : string).

(** [err instanceof Error ? err : new Error(String(err))] *)
Definition toError (x : Thrown) : JsError :=
  match x with
  | ThrowError e => e
  | ThrowValue s => WrappedError s
  end.

(** [s] between double quotes, as the error messages show names. *)
Definition quoted (s : string) : string :=
  String (Ascii.ascii_of_nat 34) (s +:+ String (Ascii.ascii_of_nat 34) EmptyString).

(** How a user function ends. *)
Inductive FnOutcome :=
| Returned (v : JsValue)
| Threw (x : Thrown).

(** ** The host [Map], keyed by strings

    Iteration ([values], [keys]) is in insertion order; [set] on a present
    key replaces the value in place, [set] on a fresh key appends. *)

Module JsMap.

Section Defs.
Context {V : Type}.

Definition t := list (string * V).

Definition empty : list (string * V) := [].

Fixpoint get (k : string) (m : list (string * V)) : option V :=
  match m with
  | [] => None
  | (k', v) :: m' => if String.eqb k k' then Some v else get k m'
  end.

Definition has (k : string) (m : list (string * V)) : bool :=
  match get k m with Some _ => true | None => false end.

Fixpoint set (k : string) (v : V) (m : list (string * V)) : list (string * V) :=
  match m with
  | [] => [(k, v)]
  | (k', v') :: m' =>
      if String.eqb k k' then (k, v) :: m' else (k', v') :: set k v m'
  end.

Fixpoint delete (k : string) (m : list (string * V)) : list (string * V) :=
  match m with
  | [] => []
  | (k', v') :: m' =>
      if String.eqb k k' then m' else (k', v') :: delete k m'
  end.

Definition keys (m : list (string * V)) : list string := map fst m.
Definition values (m : list (string * V)) : list V := map snd m.
Definition size (m : list (string * V)) : nat := length m.

End Defs.
Arguments t : clear implicits.

End JsMap.

(** ** The host [Set] of function objects

    Functions are compared by identity, so a listener is a [nat] naming the
    closure. [SetData] is the entry list of ECMA-262: [add] appends a value
    that is not present, [delete] leaves a hole where the value was, and an
    iterator walks the entries by index, re-reading the length at each
    step, so that it meets entries appended while it runs and skips the
    holes. *)

Module JsSet.

Definition t := list (option nat).

Definition empty : t := [].

Definition is_entry (x : nat) (e : option nat) : bool :=
  match e with
  | Some y => Nat.eqb x y
  | None => false
  end.

Definition has (x : nat) (s : t) : bool := existsb (is_entry x) s.

Definition add (x : nat) (s : t) : t := if has x s then s else s ++ [Some x].

Definition delete (x : nat) (s : t) : t :=
  map (fun e => if is_entry x e then None else e) s.

Definition clear (s : t) : t := map (fun _ => None) s.

Definition elements (s : t) : list nat := omap id s.

Definition size (s : t) : nat := length (elements s).

End JsSet.

(** ** scope/ScopeFSM.ts *)

Module ScopeFSM.

Inductive FSMState := INIT | ATTACHED | RUNNING | SUSPENDED | DISPOSING | DISPOSED.

Inductive FSMEvent := mounted | taskStarted | suspend | resume | dispose.

Definition state_eqb (a b : FSMState) : bool :=
  match a, b with
  | INIT, INIT | ATTACHED, ATTACHED | RUNNING, RUNNING
  | SUSPENDED, SUSPENDED | DISPOSING, DISPOSING | DISPOSED, DISPOSED => true
  | _, _ => false
  end.

(** The [switch] of [transition]: the state the event leaves the machine
    in. *)
Definition next (s : FSMState) (e : FSMEvent) : FSMState :=
  match s with
  | INIT =>
      match e with mounted => ATTACHED | _ => INIT end
  | ATTACHED =>
      match e with taskStarted => RUNNING | dispose => DISPOSING | _ => ATTACHED end
  | RUNNING =>
      match e with suspend => SUSPENDED | dispose => DISPOSING | _ => RUNNING end
  | SUSPENDED =>
      match e with resume => RUNNING | dispose => DISPOSING | _ => SUSPENDED end
  | DISPOSING => DISPOSED
  | DISPOSED => DISPOSED
  end.

(** [transition(event)]: the new state and [this._state !== prev]. *)
Definition transition (s : FSMState) (e : FSMEvent) : FSMState * bool :=
  let s' := next s e in (s', negb (state_eqb s' s)).

Definition canExecute (s : FSMState) : bool :=
  match s with ATTACHED | RUNNING => true | _ => false end.

Definition isAlive (s : FSMState) : bool :=
  match s with DISPOSING | DISPOSED => false | _ => true end.

(** The machine after a run of events. *)
Definition run (evs : list FSMEvent) (s : FSMState) : FSMState :=
  fold_left next evs s.

(** How far along the lifecycle a state is. *)
Definition rank (s : FSMState) : nat :=
  match s with
  | INIT => 0
  | ATTACHED => 1
  | RUNNING | SUSPENDED => 2
  | DISPOSING => 3
  | DISPOSED => 4
  end.

End ScopeFSM.

(** ** engine/StreamBuffer.ts *)

Module StreamBuffer.

(** [highWaterMark] is any number of the host language. [push] asks only
    how it compares with an array length; a finite number is taken as a
    rational. *)
Inductive JsNumber :=
| Finite (q : QArith_base.Q)
| PosInfinity
| NegInfinity
| NaN.

Definition of_Z (z : Z) : JsNumber := Finite (QArith_base.inject_Z z).

(** [n >= x], for an array length [n]. *)
Definition length_ge (n : nat) (x : JsNumber) : bool :=
  match x with
  | Finite q => QArith_base.Qle_bool q (QArith_base.inject_Z (Z.of_nat n))
  | PosInfinity => false
  | NegInfinity => true
  | NaN => false
  end.

(** The least array length that is [>=] the number, if there is one: the
    number rounded up, and 0 for a number below 0. *)
Definition room (x : JsNumber) : option nat :=
  match x with
  | Finite q => Some (Z.to_nat (Qround.Qceiling q))
  | NegInfinity => Some 0
  | PosInfinity | NaN => None
  end.

Record t := mk {
  _chunks : list JsValue;
  _highWaterMark : JsNumber;
  _closed : bool
}.

Definition new (highWaterMark : option JsNumber) : t :=
  {| _chunks := [];
     _highWaterMark := match highWaterMark with Some h => h | None => of_Z 10000 end;
     _closed := false |}.

Definition size (b : t) : nat := length (_chunks b).

Definition push (chunk : JsValue) (b : t) : t * bool :=
  if _closed b then (b, false)
  else if length_ge (length (_chunks b)) (_highWaterMark b) then (b, false)
  else ({| _chunks := _chunks b ++ [chunk];
           _highWaterMark := _highWaterMark b;
           _closed := _closed b |}, true).

Definition close (b : t) : t :=
  {| _chunks := _chunks b; _highWaterMark := _highWaterMark b; _closed := true |}.

Definition isClosed (b : t) : bool := _closed b.

Definition isAtCapacity (b : t) : bool :=
  length_ge (length (_chunks b)) (_highWaterMark b).

Definition getChunks (b : t) : list JsValue := _chunks b.

Definition clear (b : t) : t :=
  {| _chunks := []; _highWaterMark := _highWaterMark b; _closed := _closed b |}.

(** [drain()]: the buffer afterwards and the chunks handed back. *)
Definition drain (b : t) : t * list JsValue := (clear b, _chunks b).

Definition reduce {R : Type} (reducer : R -> JsValue -> R) (initial : R) (b : t) : R :=
  fold_left reducer (_chunks b) initial.

(** The calls that change a buffer. *)
Inductive Event :=
| EvPush (chunk : JsValue)
| EvClose
| EvDrain
| EvClear.

Definition step (b : t) (ev : Event) : t :=
  match ev with
  | EvPush chunk => fst (push chunk b)
  | EvClose => close b
  | EvDrain => fst (drain b)
  | EvClear => clear b
  end.

Definition run (evs : list Event) (b : t) : t := fold_left step evs b.

(** [push] for each value in turn: the buffer afterwards and the answers,
    in order. *)
Fixpoint pushes (vs : list JsValue) (b : t) : t * list bool :=
  match vs with
  | [] => (b, [])
  | v :: vs' =>
      let (b1, ok) := push v b in
      let (b2, oks) := pushes vs' b1 in
      (b2, ok :: oks)
  end.

End StreamBuffer.

(** ** task/Worker.ts *)

Module Worker.

Inductive WorkerStatus := idle | running | terminated | failed.

Definition status_name (s : WorkerStatus) : string :=
  match s with
  | idle => "idle"
  | running => "running"
  | terminated => "terminated"
  | failed => "failed"
  end.

(** [signal_aborted] is [_abortController.signal.aborted]; [awaiting] says
    that [start] is suspended at [await fn(signal)]. *)
Record t := mk {
  id : WorkerID;
  taskRef : Ref;
  _status : WorkerStatus;
  signal_aborted : bool;
  _error : option JsError;
  awaiting : bool
}.

Definition generateWorkerId (e : Entropy) : WorkerID :=
  "worker_" +:+ pretty (now e) +:+ "_" +:+ rnd e.

Definition new (taskRef : Ref) (e : Entropy) : t :=
  {| id := generateWorkerId e;
     taskRef := taskRef;
     _status := idle;
     signal_aborted := false;
     _error := None;
     awaiting := false |}.

Definition isActive (w : t) : bool :=
  match _status w with idle | running => true | _ => false end.

(** How the promise of [start] stands after a step. *)
Inductive StartResult :=
| StartPending
| StartResolved
| StartRejected (e : JsError).

(** [start(fn)] up to its [await]. *)
Definition start_begin (w : t) : t * StartResult :=
  match _status w with
  | idle =>
      ({| id := id w; taskRef := taskRef w; _status := running;
          signal_aborted := signal_aborted w; _error := _error w;
          awaiting := true |}, StartPending)
  | s =>
      (w, StartRejected
            (KernelError ("Cannot start worker: status is " +:+ status_name s)))
  end.

(** [start(fn)] from its [await] on, once [fn(signal)] has settled. *)
Definition start_resume (o : FnOutcome) (w : t) : t * StartResult :=
  match o with
  | Returned _ =>
      ({| id := id w; taskRef := taskRef w;
          _status := match _status w with running => terminated | s => s end;
          signal_aborted := signal_aborted w; _error := _error w;
          awaiting := false |}, StartResolved)
  | Threw x =>
      if signal_aborted w then
        ({| id := id w; taskRef := taskRef w; _status := terminated;
            signal_aborted := signal_aborted w; _error := _error w;
            awaiting := false |}, StartResolved)
      else
        ({| id := id w; taskRef := taskRef w; _status := failed;
            signal_aborted := signal_aborted w; _error := Some (toError x);
            awaiting := false |}, StartRejected (toError x))
  end.

Definition terminate (w : t) : t :=
  if isActive w then
    {| id := id w; taskRef := taskRef w; _status := terminated;
       signal_aborted := true; _error := _error w; awaiting := awaiting w |}
  else w.

(** *** The Worker as a transition system *)
Inductive Event :=
| EvStart
| EvSettle (o : FnOutcome)
| EvTerminate.

Definition step (ev : Event) (w : t) : option t :=
  match ev with
  | EvStart => Some (fst (start_begin w))
  | EvSettle o => if awaiting w then Some (fst (start_resume o w)) else None
  | EvTerminate => Some (terminate w)
  end.

Inductive reachable : t -> Prop :=
| reach_new taskRef e : reachable (new taskRef e)
| reach_step w ev w' : reachable w -> step ev w = Some w' -> reachable w'.

(** The moves of a Worker's status: [idle -> running -> (terminated |
    failed)], and [idle -> terminated] by [terminate()]. *)
Definition may_follow (s s' : WorkerStatus) : bool :=
  match s, s' with
  | idle, (idle | running | terminated) => true
  | running, (running | terminated | failed) => true
  | terminated, terminated => true
  | failed, failed => true
  | _, _ => false
  end.

Record wf (w : t) : Prop := {
  wf_error : _error w <> None <-> _status w = failed;
  wf_signal : signal_aborted w = true -> _status w = terminated;
  wf_idle : _status w = idle -> awaiting w = false;
  wf_failed : _status w = failed -> awaiting w = false;
  wf_awaiting : awaiting w = true ->
    _status w = running \/ (_status w = terminated /\ signal_aborted w = true)
}.

(** A Worker whose function is running. *)
Definition sample_started : t :=
  fst (start_begin (new "ref" {| now := 0; rnd := "w" |})).

End Worker.

(** ** task/Handler.ts *)

Module Handler.

Inductive HandlerStatus := pending | running | completed | failed | cancelled.

Definition status_name (s : HandlerStatus) : string :=
  match s with
  | pending => "pending"
  | running => "running"
  | completed => "completed"
  | failed => "failed"
  | cancelled => "cancelled"
  end.

(** [_fn] records whether the function has been bound ([_fn !== null]);
    [awaiting] says that [execute] is suspended at [await this._fn()]. *)
Record t := mk {
  id : HandlerID;
  taskRef : Ref;
  _status : HandlerStatus;
  _fn : bool;
  _error : option JsError;
  _cancelled : bool;
  awaiting : bool
}.

Definition generateHandlerId (e : Entropy) : HandlerID :=
  "handler_" +:+ pretty (now e) +:+ "_" +:+ rnd e.

Definition new (taskRef : Ref) (e : Entropy) : t :=
  {| id := generateHandlerId e; taskRef := taskRef; _status := pending;
     _fn := false; _error := None; _cancelled := false; awaiting := false |}.

Definition setFunction (h : t) : t * option JsError :=
  if _fn h then (h, Some (KernelError "Handler function already set"))
  else ({| id := id h; taskRef := taskRef h; _status := _status h;
           _fn := true; _error := _error h; _cancelled := _cancelled h;
           awaiting := awaiting h |}, None).

Definition with_status (s : HandlerStatus) (aw : bool) (h : t) : t :=
  {| id := id h; taskRef := taskRef h; _status := s; _fn := _fn h;
     _error := _error h; _cancelled := _cancelled h; awaiting := aw |}.

(** [execute()] up to its [await]; [Some e] is the rejection. *)
Definition execute_begin (h : t) : t * option JsError :=
  match _status h with
  | pending =>
      if negb (_fn h) then (h, Some (KernelError "Handler function not set"))
      else if _cancelled h then
        (with_status cancelled (awaiting h) h,
         Some (KernelError "Handler was cancelled before execution"))
      else (with_status running true h, None)
  | s =>
      (h, Some (KernelError ("Cannot execute handler: status is " +:+ status_name s)))
  end.

(** [execute()] from its [await] on. *)
Definition execute_resume (o : FnOutcome) (h : t) : t * option JsError :=
  match o with
  | Returned _ =>
      if _cancelled h then (with_status cancelled false h, None)
      else (with_status completed false h, None)
  | Threw x =>
      if _cancelled h then (with_status cancelled false h, None)
      else
        ({| id := id h; taskRef := taskRef h; _status := failed; _fn := _fn h;
            _error := Some (toError x); _cancelled := _cancelled h;
            awaiting := false |}, Some (toError x))
  end.

Definition cancel (h : t) : t :=
  match _status h with
  | completed | failed => h
  | s =>
      {| id := id h; taskRef := taskRef h;
         _status := match s with pending => cancelled | _ => s end;
         _fn := _fn h; _error := _error h; _cancelled := true;
         awaiting := awaiting h |}
  end.

(** *** The Handler as a transition system *)
Inductive Event :=
| EvSetFunction
| EvExecute
| EvSettle (o : FnOutcome)
| EvCancel.

Definition step (ev : Event) (h : t) : option t :=
  match ev with
  | EvSetFunction => Some (fst (setFunction h))
  | EvExecute => Some (fst (execute_begin h))
  | EvSettle o => if awaiting h then Some (fst (execute_resume o h)) else None
  | EvCancel => Some (cancel h)
  end.

Inductive reachable : t -> Prop :=
| reach_new taskRef e : reachable (new taskRef e)
| reach_step h ev h' : reachable h -> step ev h = Some h' -> reachable h'.

(** Whether the event calls the bound function: an [execute()] that gets
    past its guards. *)
Definition starts_fn (ev : Event) (h : t) : bool :=
  match ev with
  | EvExecute => match snd (execute_begin h) with None => true | Some _ => false end
  | _ => false
  end.

(** How often the bound function is called along a run of events; an event
    that is not enabled is passed over. *)
Fixpoint calls_of_fn (evs : list Event) (h : t) : nat :=
  match evs with
  | [] => 0
  | ev :: evs' =>
      match step ev h with
      | Some h' => (if starts_fn ev h then 1 else 0) + calls_of_fn evs' h'
      | None => calls_of_fn evs' h
      end
  end.

Record wf (h : t) : Prop := {
  wf_error : _error h <> None <-> _status h = failed;
  wf_cancelled : _cancelled h = true -> _status h = cancelled \/ _status h = running;
  wf_awaiting : awaiting h = true <-> _status h = running
}.

(** A Handler whose function is running. *)
Definition sample_executing : t :=
  fst (execute_begin (fst (setFunction (new "ref" {| now := 0; rnd := "h" |})))).

End Handler.

(** ** task/Stream.ts

    A subscriber is a callback, named by a number. An exception it raises
    is dropped by the [try]/[catch] around each call, so all that counts
    of a call is what the subscriber does to the Stream meanwhile.
    [emit] and [subscribe] give the Stream afterwards and the deliveries
    for subscribers that do not call back into the Stream while they are
    called; [emit_with] and [subscribe_with] walk the live [Set] and the
    live buffer as the loops of the source do, for subscribers that call
    [emit], [subscribe], an unsubscribe function, [close] or [abort]
    from inside a call. *)

Module Stream.

Inductive StreamStatus := open | closed | aborted.

Record t := mk {
  id : StreamID;
  taskRef : Ref;
  _status : StreamStatus;
  _subscribers : JsSet.t;
  _buffer : list JsValue
}.

Definition generateStreamId (e : Entropy) : StreamID :=
  "stream_" +:+ pretty (now e) +:+ "_" +:+ rnd e.

Definition new (taskRef : Ref) (e : Entropy) : t :=
  {| id := generateStreamId e; taskRef := taskRef; _status := open;
     _subscribers := JsSet.empty; _buffer := [] |}.

(** [emit(value)] with subscribers that do not call back: the Stream
    afterwards and the deliveries, one for each subscriber. *)
Definition emit (v : JsValue) (s : t) : t * list (nat * JsValue) :=
  match _status s with
  | open =>
      ({| id := id s; taskRef := taskRef s; _status := open;
          _subscribers := _subscribers s; _buffer := _buffer s ++ [v] |},
       map (fun f => (f, v)) (JsSet.elements (_subscribers s)))
  | _ => (s, [])
  end.

(** [subscribe(fn)] with an [fn] that does not call back: the Stream
    afterwards and the replayed deliveries. *)
Definition subscribe (fn : nat) (s : t) : t * list (nat * JsValue) :=
  match _status s with
  | open =>
      ({| id := id s; taskRef := taskRef s; _status := open;
          _subscribers := JsSet.add fn (_subscribers s); _buffer := _buffer s |},
       map (fun v => (fn, v)) (_buffer s))
  | _ => (s, [])
  end.

(** The function [subscribe] returns. *)
Definition unsubscribe (fn : nat) (s : t) : t :=
  {| id := id s; taskRef := taskRef s; _status := _status s;
     _subscribers := JsSet.delete fn (_subscribers s); _buffer := _buffer s |}.

Definition finish (st : StreamStatus) (s : t) : t :=
  match _status s with
  | open =>
      {| id := id s; taskRef := taskRef s; _status := st;
         _subscribers := JsSet.clear (_subscribers s); _buffer := _buffer s |}
  | _ => s
  end.

Definition close (s : t) : t := finish closed s.

Definition abort (s : t) : t := finish aborted s.

(** *** Subscribers that call back

    What a subscriber does while it is called: the calls it makes on the
    Stream, in order. *)
Inductive Call :=
| CallEmit (v : JsValue)
| CallSubscribe (fn : nat)
| CallUnsubscribe (fn : nat)
| CallClose
| CallAbort.

Definition Behaviour := nat -> JsValue -> list Call.

Definition Log := list (nat * JsValue).

Section Loops.

(** [inv fn v s log]: the call [fn(v)], with what it does to the Stream
    and adds to the log; [None] when it does not come back. *)
Variable inv : nat -> JsValue -> t -> Log -> option (t * Log).

(** The loop [for (const subscriber of this._subscribers)] of [emit], from
    entry [idx] of the Set on: the Set is read again at every turn and a
    hole is skipped. [n] bounds the turns. *)
Fixpoint walk (n : nat) (v : JsValue) (idx : nat) (s : t) (log : Log) : option (t * Log) :=
  match n with
  | O => None
  | S n' =>
      match _subscribers s !! idx with
      | None => Some (s, log)
      | Some None => walk n' v (S idx) s log
      | Some (Some fn) =>
          match inv fn v s log with
          | Some (s', log') => walk n' v (S idx) s' log'
          | None => None
          end
      end
  end.

(** The loop [for (const value of this._buffer)] of [subscribe], from
    index [idx] of the buffer on: the array is read again at every
    turn. *)
Fixpoint replay (n : nat) (fn : nat) (idx : nat) (s : t) (log : Log) : option (t * Log) :=
  match n with
  | O => None
  | S n' =>
      match _buffer s !! idx with
      | None => Some (s, log)
      | Some v =>
          match inv fn v s log with
          | Some (s', log') => replay n' fn (S idx) s' log'
          | None => None
          end
      end
  end.

(** One call on the Stream. *)
Definition call_with (n : nat) (c : Call) (s : t) (log : Log) : option (t * Log) :=
  match c with
  | CallEmit v =>
      match _status s with
      | open => walk n v 0 (fst (emit v s)) log
      | _ => Some (s, log)
      end
  | CallSubscribe fn =>
      match _status s with
      | open => replay n fn 0 (fst (subscribe fn s)) log
      | _ => Some (s, log)
      end
  | CallUnsubscribe fn => Some (unsubscribe fn s, log)
  | CallClose => Some (close s, log)
  | CallAbort => Some (abort s, log)
  end.

End Loops.

(** The call [fn(v)] of a subscriber: it is logged, and the calls the
    subscriber makes are carried out in turn. [None] means the fuel ran
    out. *)
Fixpoint invoke (fuel : nat) (beh : Behaviour) (fn : nat) (v : JsValue) (s : t) (log : Log)
    : option (t * Log) :=
  match fuel with
  | O => None
  | S f =>
      fold_left
        (fun acc c =>
           match acc with
           | Some (s', log') => call_with (invoke f beh) f c s' log'
           | None => None
           end)
        (beh fn v) (Some (s, log ++ [(fn, v)]))
  end.

(** [emit(value)] and [subscribe(fn)] with subscribers that behave as
    [beh] says: the Stream afterwards and the deliveries, in order. *)
Definition emit_with (fuel : nat) (beh : Behaviour) (v : JsValue) (s : t) : option (t * Log) :=
  call_with (invoke fuel beh) fuel (CallEmit v) s [].

Definition subscribe_with (fuel : nat) (beh : Behaviour) (fn : nat) (s : t)
    : option (t * Log) :=
  call_with (invoke fuel beh) fuel (CallSubscribe fn) s [].

(** Subscriber 1 subscribes subscriber 2 when it is called, every other
    subscriber does nothing. *)
Definition first_subscribes : Behaviour :=
  fun fn _ => match fn with 1 => [CallSubscribe 2] | _ => [] end.

(** Subscriber 1 aborts the Stream when it is called. *)
Definition first_aborts : Behaviour :=
  fun fn _ => match fn with 1 => [CallAbort] | _ => [] end.

(** *** The Stream as a transition system *)
Inductive Event :=
| EvEmit (v : JsValue)
| EvSubscribe (fn : nat)
| EvUnsubscribe (fn : nat)
| EvClose
| EvAbort.

(** The Stream after the event, and what the event delivers. *)
Definition step (ev : Event) (s : t) : t * list (nat * JsValue) :=
  match ev with
  | EvEmit v => emit v s
  | EvSubscribe fn => subscribe fn s
  | EvUnsubscribe fn => (unsubscribe fn s, [])
  | EvClose => (close s, [])
  | EvAbort => (abort s, [])
  end.

(** A run of events: the Stream afterwards and all deliveries, in
    order. *)
Fixpoint run (evs : list Event) (s : t) : t * list (nat * JsValue) :=
  match evs with
  | [] => (s, [])
  | ev :: evs' =>
      let (s1, d1) := step ev s in
      let (s2, d2) := run evs' s1 in
      (s2, d1 ++ d2)
  end.

Inductive reachable : t -> Prop :=
| reach_new taskRef e : reachable (new taskRef e)
| reach_step s ev : reachable s -> reachable (fst (step ev s)).



Record wf (s : t) : Prop := {
  wf_subscribers : NoDup (JsSet.elements (_subscribers s));
  wf_ended : _status s <> open -> JsSet.elements (_subscribers s) = []
}.

End Stream.

(** ** Object stores

    [alter_each f addrs store] applies [f] to the object at each address of
    [addrs] in turn: the loop [for (const x of map.values()) x.m()]. *)
Definition alter_each {A : Type} (f : A -> A) (addrs : list nat) (store : list A) : list A :=
  fold_left (fun st a => alter f a st) addrs store.

(** ** task/Task.ts *)

Module Task.

Inductive TaskStatus := pending | running | success | error | aborted.

Definition status_name (s : TaskStatus) : string :=
  match s with
  | pending => "pending"
  | running => "running"
  | success => "success"
  | error => "error"
  | aborted => "aborted"
  end.

(** [TaskOutcome = 'success' | 'error' | 'aborted'] *)
Module Outcome.
Inductive t := success | error | aborted.
End Outcome.

Record TaskRunOptions := { deferred : bool; streaming : bool }.

(** The three branches of [run] that start the function. *)
Inductive Dispatch := Deferred | Pooled | Direct.

(** The frame of [run] suspended at its [await]: the branch taken and the
    [StreamBuffer] behind [ctx.emit]. *)
Record Frame := { dispatch : Dispatch; buffer : option StreamBuffer.t }.

(** How the promise [run] awaits settles. *)
Inductive Settlement :=
| Fulfilled (v : JsValue)
| RejectedWith (x : Thrown).

(** How the function handed to [run] ends: the promise it returns is
    fulfilled or rejected, or the call itself throws and no promise is
    returned (a function that is not [async]). *)
Inductive FnEnd :=
| Resolves (v : JsValue)
| Rejects (x : Thrown)
| ThrowsAtCall (x : Thrown).

(** The promise [run] awaits, from how the function ended. The pool's
    [catch] turns what was thrown into an [Error] before it rejects. In
    [_runDeferred] the function is called inside the timer callback, as
    [fn().then(resolve).catch(reject)]: a throw at the call leaves the
    callback, neither [resolve] nor [reject] is ever called, and the
    promise does not settle ([None]). In the direct branch a throw at the
    call reaches the [catch] of [run] as a rejection does, and in the pool
    the call is made inside a [then]. *)
Definition promise_of (d : Dispatch) (o : FnEnd) : option Settlement :=
  match o with
  | Resolves v => Some (Fulfilled v)
  | Rejects x =>
      Some (RejectedWith match d with
                         | Pooled => ThrowError (toError x)
                         | Deferred | Direct => x
                         end)
  | ThrowsAtCall x =>
      match d with
      | Deferred => None
      | Pooled => Some (RejectedWith (ThrowError (toError x)))
      | Direct => Some (RejectedWith x)
      end
  end.

(** [signal_aborted] is [_controller.signal.aborted]; [_workerPool] says
    whether a pool was given; [_workers], [_handlers] and [_streams] map
    ids to addresses in the stores [workers], [handlers] and [streams] of
    the units this Task has constructed; [awaiting] is the suspended frame
    of [run], if any. *)
Record t := mk {
  ref : Ref;
  scopeId : ScopeID;
  signal_aborted : bool;
  _workerPool : bool;
  _status : TaskStatus;
  _outcome : option Outcome.t;
  _error : option JsError;
  _result : option JsValue;
  _workers : JsMap.t nat;
  _handlers : JsMap.t nat;
  _streams : JsMap.t nat;
  workers : list Worker.t;
  handlers : list Handler.t;
  streams : list Stream.t;
  awaiting : option Frame
}.

Definition generateRef (e : Entropy) : Ref :=
  "ref_" +:+ pretty (now e) +:+ "_" +:+ rnd e.

(** [new Task(scopeId, workerPool, ref)]; [e] is what [generateRef] would
    draw. *)
Definition new (scopeId : ScopeID) (workerPool : bool) (r : option Ref) (e : Entropy) : t :=
  {| ref := match r with Some r => r | None => generateRef e end;
     scopeId := scopeId;
     signal_aborted := false;
     _workerPool := workerPool;
     _status := pending;
     _outcome := None;
     _error := None;
     _result := None;
     _workers := JsMap.empty;
     _handlers := JsMap.empty;
     _streams := JsMap.empty;
     workers := [];
     handlers := [];
     streams := [];
     awaiting := None |}.

Definition isActive (tk : t) : bool :=
  match _status tk with pending | running => true | _ => false end.

Definition isComplete (tk : t) : bool := negb (isActive tk).

Definition workerCount (tk : t) : nat := JsMap.size (_workers tk).
Definition handlerCount (tk : t) : nat := JsMap.size (_handlers tk).
Definition streamCount (tk : t) : nat := JsMap.size (_streams tk).

(** *** Field updates *)

Definition with_run (st : TaskStatus) (oc : option Outcome.t) (er : option JsError)
    (rs : option JsValue) (aw : option Frame) (tk : t) : t :=
  {| ref := ref tk; scopeId := scopeId tk; signal_aborted := signal_aborted tk;
     _workerPool := _workerPool tk;
     _status := st; _outcome := oc; _error := er; _result := rs;
     _workers := _workers tk; _handlers := _handlers tk; _streams := _streams tk;
     workers := workers tk; handlers := handlers tk; streams := streams tk;
     awaiting := aw |}.

Definition with_awaiting (aw : option Frame) (tk : t) : t :=
  with_run (_status tk) (_outcome tk) (_error tk) (_result tk) aw tk.

Definition with_workers (m : JsMap.t nat) (ws : list Worker.t) (tk : t) : t :=
  {| ref := ref tk; scopeId := scopeId tk; signal_aborted := signal_aborted tk;
     _workerPool := _workerPool tk;
     _status := _status tk; _outcome := _outcome tk; _error := _error tk;
     _result := _result tk;
     _workers := m; _handlers := _handlers tk; _streams := _streams tk;
     workers := ws; handlers := handlers tk; streams := streams tk;
     awaiting := awaiting tk |}.

Definition with_handlers (m : JsMap.t nat) (hs : list Handler.t) (tk : t) : t :=
  {| ref := ref tk; scopeId := scopeId tk; signal_aborted := signal_aborted tk;
     _workerPool := _workerPool tk;
     _status := _status tk; _outcome := _outcome tk; _error := _error tk;
     _result := _result tk;
     _workers := _workers tk; _handlers := m; _streams := _streams tk;
     workers := workers tk; handlers := hs; streams := streams tk;
     awaiting := awaiting tk |}.

Definition with_streams (m : JsMap.t nat) (ss : list Stream.t) (tk : t) : t :=
  {| ref := ref tk; scopeId := scopeId tk; signal_aborted := signal_aborted tk;
     _workerPool := _workerPool tk;
     _status := _status tk; _outcome := _outcome tk; _error := _error tk;
     _result := _result tk;
     _workers := _workers tk; _handlers := _handlers tk; _streams := m;
     workers := workers tk; handlers := handlers tk; streams := ss;
     awaiting := awaiting tk |}.

(** *** The dual execution API *)

(** [effect(fn)]: [Some e] is the exception; [None] means [fn()] is called
    and its result handed back. *)
Definition effect (tk : t) : option JsError :=
  if isActive tk then None
  else Some (KernelError "Cannot execute effect: task is not active").

(** What [run] hands back at a step: it is still awaiting, it resolved, or
    it rejected. *)
Inductive RunResult :=
| RunAwaiting (d : Dispatch)
| RunResolved (v : JsValue)
| RunRejected (e : JsError).

Definition dispatch_of (o : TaskRunOptions) (tk : t) : Dispatch :=
  if deferred o then Deferred
  else if _workerPool tk then Pooled
  else Direct.

(** The [catch (err)] block of [run]. *)
Definition run_catch (err : Thrown) (tk : t) : t * RunResult :=
  let t' :=
    if signal_aborted tk then
      with_run aborted (Some Outcome.aborted) (_error tk) (_result tk) None tk
    else
      with_run error (Some Outcome.error) (Some (toError err)) (_result tk) None tk in
  (t', RunRejected match _error t' with
                   | Some e => e
                   | None => KernelError "Task was aborted"
                   end).

(** The guard [if (this._controller.signal.aborted)] inside the [try], met
    before the function is started and again after it has returned. *)
Definition run_abort_guard (tk : t) : t * RunResult :=
  run_catch (ThrowError (KernelError "Task was aborted"))
    (with_run aborted (Some Outcome.aborted) (_error tk) (_result tk) (awaiting tk) tk).

(** [run(fn, options)] up to its [await]. *)
Definition run_begin (o : TaskRunOptions) (tk : t) : t * RunResult :=
  match _status tk with
  | pending =>
      let t1 := with_run running (_outcome tk) (_error tk) (_result tk) (awaiting tk) tk in
      let buf := if streaming o then Some (StreamBuffer.new None) else None in
      if signal_aborted t1 then run_abort_guard t1
      else
        let d := dispatch_of o t1 in
        (with_awaiting (Some {| dispatch := d; buffer := buf |}) t1, RunAwaiting d)
  | s =>
      (tk, RunRejected (KernelError ("Cannot run task: status is " +:+ status_name s)))
  end.

(** [run(fn, options)] from its [await] on, once the awaited promise has
    settled. *)
Definition run_resume (s : Settlement) (tk : t) : t * RunResult :=
  match s with
  | Fulfilled result =>
      if signal_aborted tk then run_abort_guard tk
      else
        (with_run success (Some Outcome.success) (_error tk) (Some result) None tk,
         RunResolved result)
  | RejectedWith err => run_catch err tk
  end.

(** [ctx.emit(value)] while [run] is in flight with [streaming] set. *)
Definition ctx_emit (v : JsValue) (tk : t) : option (t * bool) :=
  match awaiting tk with
  | Some {| dispatch := d; buffer := Some b |} =>
      let (b', ok) := StreamBuffer.push v b in
      Some (with_awaiting (Some {| dispatch := d; buffer := Some b' |}) tk, ok)
  | _ => None
  end.

Definition abort (tk : t) : t :=
  if negb (isActive tk) then tk
  else
    {| ref := ref tk; scopeId := scopeId tk;
       signal_aborted := true;
       _workerPool := _workerPool tk;
       _status := aborted;
       _outcome := Some Outcome.aborted;
       _error := _error tk;
       _result := _result tk;
       _workers := _workers tk; _handlers := _handlers tk; _streams := _streams tk;
       workers := alter_each Worker.terminate (JsMap.values (_workers tk)) (workers tk);
       handlers := alter_each Handler.cancel (JsMap.values (_handlers tk)) (handlers tk);
       streams := alter_each Stream.abort (JsMap.values (_streams tk)) (streams tk);
       awaiting := awaiting tk |}.

(** *** Execution units

    A handle is the address of the unit it closes over. *)

Definition _spawnWorker (e : Entropy) (tk : t) : t * (JsError + nat) :=
  if negb (isActive tk) then
    (tk, inl (KernelError "Cannot spawn worker: task is not active"))
  else
    let worker := Worker.new (ref tk) e in
    let a := length (workers tk) in
    (with_workers (JsMap.set (Worker.id worker) a (_workers tk))
       (workers tk ++ [fst (Worker.start_begin worker)]) tk,
     inr a).

(** The continuation of [worker.start(fn)] for the worker at [a]; the
    [.catch(() => {})] of [_spawnWorker] drops a rejection. *)
Definition worker_settled (a : nat) (o : FnOutcome) (tk : t) : t :=
  with_workers (_workers tk)
    (alter (fun w => fst (Worker.start_resume o w)) a (workers tk)) tk.

(** [handle.terminate()] *)
Definition worker_terminate (a : nat) (tk : t) : t :=
  with_workers (_workers tk) (alter Worker.terminate a (workers tk)) tk.

Definition _addHandler (e : Entropy) (tk : t) : t * (JsError + nat) :=
  if negb (isActive tk) then
    (tk, inl (KernelError "Cannot add handler: task is not active"))
  else
    let handler := fst (Handler.setFunction (Handler.new (ref tk) e)) in
    let a := length (handlers tk) in
    (with_handlers (JsMap.set (Handler.id handler) a (_handlers tk))
       (handlers tk ++ [handler]) tk,
     inr a).

(** [handle.execute()], [handle.cancel()] and the continuation of
    [execute]. *)
Definition handler_execute (a : nat) (tk : t) : t :=
  with_handlers (_handlers tk)
    (alter (fun h => fst (Handler.execute_begin h)) a (handlers tk)) tk.

Definition handler_settled (a : nat) (o : FnOutcome) (tk : t) : t :=
  with_handlers (_handlers tk)
    (alter (fun h => fst (Handler.execute_resume o h)) a (handlers tk)) tk.

Definition handler_cancel (a : nat) (tk : t) : t :=
  with_handlers (_handlers tk) (alter Handler.cancel a (handlers tk)) tk.

Definition _createStream (e : Entropy) (tk : t) : t * (JsError + nat) :=
  if negb (isActive tk) then
    (tk, inl (KernelError "Cannot create stream: task is not active"))
  else
    let stream := Stream.new (ref tk) e in
    let a := length (streams tk) in
    (with_streams (JsMap.set (Stream.id stream) a (_streams tk))
       (streams tk ++ [stream]) tk,
     inr a).

Definition stream_update (f : Stream.t -> Stream.t) (a : nat) (tk : t) : t :=
  with_streams (_streams tk) (alter f a (streams tk)) tk.

(** *** The Task as a transition system

    One event is one entry into the Task from the event loop: a call of its
    public surface or of a handle, or the resumption of a suspended
    [async] method. An event that has nothing to act on (no suspended
    frame, no unit at the address) is not enabled. *)
Inductive Event :=
| EvEffect
| EvRun (o : TaskRunOptions)
| EvSettle (s : Settlement)
| EvEmit (v : JsValue)
| EvAbort
| EvSpawnWorker (e : Entropy)
| EvWorkerSettle (a : nat) (o : FnOutcome)
| EvWorkerTerminate (a : nat)
| EvAddHandler (e : Entropy)
| EvHandlerExecute (a : nat)
| EvHandlerSettle (a : nat) (o : FnOutcome)
| EvHandlerCancel (a : nat)
| EvCreateStream (e : Entropy)
| EvStreamEmit (a : nat) (v : JsValue)
| EvStreamSubscribe (a : nat) (fn : nat)
| EvStreamUnsubscribe (a : nat) (fn : nat)
| EvStreamAbort (a : nat).

Definition guard (b : bool) (tk : t) : option t := if b then Some tk else None.

Definition step (ev : Event) (tk : t) : option t :=
  match ev with
  | EvEffect => Some tk
  | EvRun o => Some (fst (run_begin o tk))
  | EvSettle s =>
      match awaiting tk with
      | Some _ => Some (fst (run_resume s tk))
      | None => None
      end
  | EvEmit v => fst <$> ctx_emit v tk
  | EvAbort => Some (abort tk)
  | EvSpawnWorker e => Some (fst (_spawnWorker e tk))
  | EvWorkerSettle a o =>
      match workers tk !! a with
      | Some w => guard (Worker.awaiting w) (worker_settled a o tk)
      | None => None
      end
  | EvWorkerTerminate a =>
      guard (bool_decide (a < length (workers tk))) (worker_terminate a tk)
  | EvAddHandler e => Some (fst (_addHandler e tk))
  | EvHandlerExecute a =>
      guard (bool_decide (a < length (handlers tk))) (handler_execute a tk)
  | EvHandlerSettle a o =>
      match handlers tk !! a with
      | Some h => guard (Handler.awaiting h) (handler_settled a o tk)
      | None => None
      end
  | EvHandlerCancel a =>
      guard (bool_decide (a < length (handlers tk))) (handler_cancel a tk)
  | EvCreateStream e => Some (fst (_createStream e tk))
  | EvStreamEmit a v =>
      guard (bool_decide (a < length (streams tk)))
        (stream_update (fun s => fst (Stream.emit v s)) a tk)
  | EvStreamSubscribe a fn =>
      guard (bool_decide (a < length (streams tk)))
        (stream_update (fun s => fst (Stream.subscribe fn s)) a tk)
  | EvStreamUnsubscribe a fn =>
      guard (bool_decide (a < length (streams tk)))
        (stream_update (Stream.unsubscribe fn) a tk)
  | EvStreamAbort a =>
      guard (bool_decide (a < length (streams tk))) (stream_update Stream.abort a tk)
  end.

(** The states a Task can be in: a fresh Task, and whatever events lead
    to. *)
Inductive reachable : t -> Prop :=
| reach_new scopeId pool r e : reachable (new scopeId pool r e)
| reach_step tk ev t' : reachable tk -> step ev tk = Some t' -> reachable t'.

(** [steps tk t']: some run of events leads from [tk] to [t']. *)
Inductive steps : t -> t -> Prop :=
| steps_refl tk : steps tk tk
| steps_step tk ev t' t'' : step ev tk = Some t' -> steps t' t'' -> steps tk t''.

(** Whether the event ends a run in flight: the awaited promise settles,
    or [abort()] is called. *)
Definition ends_run (ev : Event) : bool :=
  match ev with EvSettle _ | EvAbort => true | _ => false end.

(** What can happen to a run in flight, dispatched as [d], whose function
    ends as [o]: the only settlement is the one of the promise [run]
    awaits, if that promise settles at all. *)
Definition may_occur (d : Dispatch) (o : FnEnd) (ev : Event) : Prop :=
  forall s, ev = EvSettle s -> promise_of d o = Some s.

(** Runs a list of events, stopping at one that is not enabled. *)
Fixpoint exec (evs : list Event) (tk : t) : option t :=
  match evs with
  | [] => Some tk
  | ev :: evs' =>
      match step ev tk with
      | Some tk' => exec evs' tk'
      | None => None
      end
  end.

(** *** Invariants of a Task *)

Definition status_eqb (a b : TaskStatus) : bool :=
  match a, b with
  | pending, pending | running, running | success, success
  | error, error | aborted, aborted => true
  | _, _ => false
  end.

Definition is_terminal (s : TaskStatus) : bool :=
  match s with success | error | aborted => true | _ => false end.

(** The outcome that goes with a status. *)
Definition outcome_of (s : TaskStatus) : option Outcome.t :=
  match s with
  | pending | running => None
  | success => Some Outcome.success
  | error => Some Outcome.error
  | aborted => Some Outcome.aborted
  end.

(** The path the status is said to follow:
    [pending -> running -> (success | error | aborted)]. *)
Definition strict_path (s s' : TaskStatus) : bool :=
  match s, s' with
  | pending, running => true
  | running, (success | error | aborted) => true
  | _, _ => status_eqb s s'
  end.

(** The moves the status makes: [strict_path], and [pending -> aborted]. *)
Definition may_follow (s s' : TaskStatus) : bool :=
  match s, s' with
  | pending, aborted => true
  | _, _ => strict_path s s'
  end.

Record wf (tk : t) : Prop := {
  wf_signal : signal_aborted tk = true <-> _status tk = aborted;
  wf_outcome : _outcome tk = outcome_of (_status tk);
  wf_error : _status tk <> error -> _error tk = None;
  wf_result : _status tk <> success -> _result tk = None;
  wf_awaiting : awaiting tk <> None -> _status tk = running \/ _status tk = aborted
}.

(** The fields [run] and [abort] decide. *)
Definition core (tk : t) :=
  (_status tk, _outcome tk, _error tk, _result tk, signal_aborted tk, awaiting tk).

Definition is_unit_event (ev : Event) : bool :=
  match ev with
  | EvEffect | EvRun _ | EvSettle _ | EvEmit _ | EvAbort => false
  | _ => true
  end.

(** *** Concrete Tasks *)

Definition sample_entropy : Entropy := {| now := 0; rnd := "a" |}.

Definition sample_options : TaskRunOptions := {| deferred := false; streaming := false |}.

(** A Task that has been started and is awaiting its function. *)
Definition sample_running : t :=
  fst (run_begin sample_options (new "scope" false None sample_entropy)).

(** A Task aborted while its function was running. *)
Definition sample_aborted_in_flight : t := abort sample_running.

(** *** Owned units *)

(** A Handler that [cancel()] has reached, or that had finished before:
    its status is cancelled, completed or failed, or it is still running
    its function with the cancellation recorded. *)
Definition handler_stopped (h : Handler.t) : bool :=
  match Handler._status h with
  | Handler.cancelled | Handler.completed | Handler.failed => true
  | Handler.running => Handler._cancelled h
  | Handler.pending => false
  end.

Definition stream_ended (s : Stream.t) : bool :=
  match Stream._status s with Stream.open => false | _ => true end.

(** Every entry of [m] leads to a unit of [store] that satisfies [p]. *)
Definition units_all {A : Type} (p : A -> bool) (m : JsMap.t nat) (store : list A) : Prop :=
  forall k a, (k, a) ∈ m -> exists u, store !! a = Some u /\ p u = true.

Definition any_unit {A : Type} (u : A) : bool := true.

Record units_wf (tk : t) : Prop := {
  uwf_workers : units_all any_unit (_workers tk) (workers tk);
  uwf_handlers : units_all any_unit (_handlers tk) (handlers tk);
  uwf_streams : units_all any_unit (_streams tk) (streams tk);
  uwf_aborted : _status tk = aborted ->
    units_all (fun w => negb (Worker.isActive w)) (_workers tk) (workers tk) /\
    units_all handler_stopped (_handlers tk) (handlers tk) /\
    units_all stream_ended (_streams tk) (streams tk)
}.

(** Whether the event gets the Task's function started: a [run] that gets
    past its guards. *)
Definition starts_fn (ev : Event) (tk : t) : bool :=
  match ev with
  | EvRun o => match snd (run_begin o tk) with RunAwaiting _ => true | _ => false end
  | _ => false
  end.

(** How often the Task's function is started along a run of events; an
    event that is not enabled is passed over. *)
Fixpoint starts_of_fn (evs : list Event) (tk : t) : nat :=
  match evs with
  | [] => 0
  | ev :: evs' =>
      match step ev tk with
      | Some tk' => (if starts_fn ev tk then 1 else 0) + starts_of_fn evs' tk'
      | None => starts_of_fn evs' tk
      end
  end.

(** A running Task that owns a worker, a handler and a stream. *)
Definition sample_with_units : t :=
  fst (_createStream sample_entropy
         (fst (_addHandler sample_entropy
                 (fst (_spawnWorker sample_entropy sample_running))))).

(** Every unit the Task has constructed carries the Task's ref. *)
Definition owns_units (tk : t) : Prop :=
  Forall (fun w => Worker.taskRef w = ref tk) (workers tk) /\
  Forall (fun h => Handler.taskRef h = ref tk) (handlers tk) /\
  Forall (fun s => Stream.taskRef s = ref tk) (streams tk).

End Task.

(** ** task/TaskTable.ts

    The table maps a ref to the address of a Task in the store of the
    Scope that owns the table. *)

Module TaskTable.

Definition t := JsMap.t nat.

Definition empty : t := JsMap.empty.

Definition size (tbl : t) : nat := JsMap.size tbl.

(** [register(task)], for the Task [tk] stored at [a]. *)
Definition register (tk : Task.t) (a : nat) (tbl : t) : t :=
  JsMap.set (Task.ref tk) a tbl.

Definition unregister (r : Ref) (tbl : t) : t := JsMap.delete r tbl.

Definition get (r : Ref) (tbl : t) : option nat := JsMap.get r tbl.

Definition has (r : Ref) (tbl : t) : bool := JsMap.has r tbl.

(** What [abortAll] does to one Task of the table. *)
Definition abort_in (scopeId : ScopeID) (tk : Task.t) : Task.t :=
  if String.eqb (Task.scopeId tk) scopeId then Task.abort tk else tk.

Definition abortAll (scopeId : ScopeID) (tbl : t) (store : list Task.t) : list Task.t :=
  alter_each (abort_in scopeId) (JsMap.values tbl) store.



Definition clear (tbl : t) : t := JsMap.empty.

End TaskTable.

(** ** scope/Scope.ts *)

Module Scope.

Record ScopeEngineConfig := { cfg_workers : option Z }.

Record ScopeConfig := {
  cfg_id : ScopeID;
  cfg_name : string;
  cfg_engine : option ScopeEngineConfig
}.

(** [tasks] is the store of the Tasks this Scope has constructed; [runs]
    holds, for each call of [run] suspended at [await task.run(..)], the
    address of its Task. *)
Record t := mk {
  id : ScopeID;
  name : string;
  _fsm : ScopeFSM.FSMState;
  _tasks : TaskTable.t;
  _workerPool : bool;
  _workerCount : option Z;
  tasks : list Task.t;
  runs : list nat
}.

Definition new (config : ScopeConfig) (workerPool : bool) : t :=
  {| id := cfg_id config;
     name := cfg_name config;
     _fsm := ScopeFSM.INIT;
     _tasks := TaskTable.empty;
     _workerPool := workerPool;
     _workerCount := match cfg_engine config with
                     | Some en => cfg_workers en
                     | None => None
                     end;
     tasks := [];
     runs := [] |}.

Definition state (s : t) : ScopeFSM.FSMState := _fsm s.
Definition taskCount (s : t) : nat := TaskTable.size (_tasks s).
Definition isAlive (s : t) : bool := ScopeFSM.isAlive (_fsm s).
Definition canExecute (s : t) : bool := ScopeFSM.canExecute (_fsm s).
Definition workerCount (s : t) : option Z := _workerCount s.

Definition with_fsm (f : ScopeFSM.FSMState) (s : t) : t :=
  {| id := id s; name := name s; _fsm := f; _tasks := _tasks s;
     _workerPool := _workerPool s; _workerCount := _workerCount s;
     tasks := tasks s; runs := runs s |}.

Definition with_tasks (tbl : TaskTable.t) (store : list Task.t) (s : t) : t :=
  {| id := id s; name := name s; _fsm := _fsm s; _tasks := tbl;
     _workerPool := _workerPool s; _workerCount := _workerCount s;
     tasks := store; runs := runs s |}.

Definition with_runs (rs : list nat) (s : t) : t :=
  {| id := id s; name := name s; _fsm := _fsm s; _tasks := _tasks s;
     _workerPool := _workerPool s; _workerCount := _workerCount s;
     tasks := tasks s; runs := rs |}.

(** *** Lifecycle *)

Definition fire (e : ScopeFSM.FSMEvent) (s : t) : t * bool :=
  let (f, changed) := ScopeFSM.transition (_fsm s) e in (with_fsm f s, changed).

Definition mount (s : t) : t * bool := fire ScopeFSM.mounted s.
Definition suspend (s : t) : t * bool := fire ScopeFSM.suspend s.
Definition resume (s : t) : t * bool := fire ScopeFSM.resume s.

Definition dispose (s : t) : t :=
  if negb (ScopeFSM.isAlive (_fsm s)) then s
  else
    let s1 := with_tasks (_tasks s) (TaskTable.abortAll (id s) (_tasks s) (tasks s)) s in
    let s2 := fst (fire ScopeFSM.dispose s1) in
    fst (fire ScopeFSM.dispose s2).

(** *** Task management *)

Definition createTask (r : option Ref) (e : Entropy) (s : t) : t * (JsError + nat) :=
  if negb (ScopeFSM.isAlive (_fsm s)) then
    (s, inl (KernelError ("Cannot create task: scope " +:+ quoted (name s) +:+ " is disposed")))
  else if negb (ScopeFSM.canExecute (_fsm s)) then
    (s, inl (KernelError ("Cannot create task: scope " +:+ quoted (name s) +:+ " is not ready")))
  else
    let task := Task.new (id s) (_workerPool s) r e in
    let a := length (tasks s) in
    let s1 := with_tasks (TaskTable.register task a (_tasks s)) (tasks s ++ [task]) s in
    let s2 := match _fsm s1 with
              | ScopeFSM.ATTACHED => fst (fire ScopeFSM.taskStarted s1)
              | _ => s1
              end in
    (s2, inr a).

(** [run(fn, options)] up to its [await]: [createTask()], then the
    synchronous part of [task.run]. *)
Definition run_begin (o : Task.TaskRunOptions) (e : Entropy) (s : t) : t * (JsError + nat) :=
  match createTask None e s with
  | (s1, inr a) =>
      (with_runs (runs s1 ++ [a])
         (with_tasks (_tasks s1)
            (alter (fun tk => fst (Task.run_begin o tk)) a (tasks s1)) s1),
       inr a)
  | (s1, inl err) => (s1, inl err)
  end.

(** The [finally] block of [run], for the call that created the Task at
    [a]: it runs once [task.run] has settled. *)
Definition run_finally (a : nat) (s : t) : option t :=
  match tasks s !! a with
  | Some tk =>
      if bool_decide (a ∈ runs s) && bool_decide (Task.awaiting tk = None) then
        Some (with_runs (List.filter (fun b => negb (Nat.eqb b a)) (runs s))
                (with_tasks (TaskTable.unregister (Task.ref tk) (_tasks s)) (tasks s) s))
      else None
  | None => None
  end.

Definition effect (s : t) : option JsError :=
  if negb (ScopeFSM.isAlive (_fsm s)) then
    Some (KernelError ("Cannot execute effect: scope " +:+ quoted (name s) +:+ " is disposed"))
  else None.

Definition getTask (r : Ref) (s : t) : option nat := TaskTable.get r (_tasks s).

Definition abortTask (r : Ref) (s : t) : t * bool :=
  match TaskTable.get r (_tasks s) with
  | Some a =>
      (with_tasks (TaskTable.unregister r (_tasks s)) (alter Task.abort a (tasks s)) s,
       true)
  | None => (s, false)
  end.

Definition abortAll (s : t) : t :=
  with_tasks (_tasks s) (TaskTable.abortAll (id s) (_tasks s) (tasks s)) s.

(** *** The Scope as a transition system *)
Inductive Event :=
| EvMount
| EvSuspend
| EvResume
| EvDispose
| EvAbortAll
| EvEffect
| EvCreateTask (r : option Ref) (e : Entropy)
| EvRun (o : Task.TaskRunOptions) (e : Entropy)
| EvRunFinally (a : nat)
| EvAbortTask (r : Ref)
| EvTask (a : nat) (ev : Task.Event).

Definition step (ev : Event) (s : t) : option t :=
  match ev with
  | EvMount => Some (fst (mount s))
  | EvSuspend => Some (fst (suspend s))
  | EvResume => Some (fst (resume s))
  | EvDispose => Some (dispose s)
  | EvAbortAll => Some (abortAll s)
  | EvEffect => Some s
  | EvCreateTask r e => Some (fst (createTask r e s))
  | EvRun o e => Some (fst (run_begin o e s))
  | EvRunFinally a => run_finally a s
  | EvAbortTask r => Some (fst (abortTask r s))
  | EvTask a ev =>
      match tasks s !! a with
      | Some tk =>
          match Task.step ev tk with
          | Some tk' => Some (with_tasks (_tasks s) (<[a := tk']> (tasks s)) s)
          | None => None
          end
      | None => None
      end
  end.

Inductive reachable : t -> Prop :=
| reach_new config pool : reachable (new config pool)
| reach_step s ev s' : reachable s -> step ev s = Some s' -> reachable s'.

(** Runs a list of events, stopping at one that is not enabled. *)
Fixpoint exec (evs : list Event) (s : t) : option t :=
  match evs with
  | [] => Some s
  | ev :: evs' =>
      match step ev s with
      | Some s' => exec evs' s'
      | None => None
      end
  end.

(** *** Invariants of a Scope *)

(** The store [st'] holds the Tasks of [st], each moved on by some
    events. *)
Definition evolves (st st' : list Task.t) : Prop :=
  length st = length st' /\
  forall a tk', st' !! a = Some tk' ->
    exists tk, st !! a = Some tk /\ Task.steps tk tk'.

Record wf (s : t) : Prop := {
  wf_keys : NoDup (JsMap.keys (_tasks s));
  wf_table : forall r a, (r, a) ∈ _tasks s ->
    exists tk, tasks s !! a = Some tk /\ Task.ref tk = r;
  wf_store : forall a tk, tasks s !! a = Some tk ->
    Task.reachable tk /\ Task.scopeId tk = id s;
  wf_disposed : ScopeFSM.isAlive (_fsm s) = false ->
    forall r a tk, (r, a) ∈ _tasks s -> tasks s !! a = Some tk ->
    Task.isActive tk = false
}.

(** *** Concrete Scopes *)

Definition sample_config : ScopeConfig :=
  {| cfg_id := "scope"; cfg_name := "Scope"; cfg_engine := None |}.

(** A mounted Scope with one Task created through [createTask()]. *)
Definition sample_with_task : t :=
  fst (createTask None Task.sample_entropy (fst (mount (new sample_config false)))).

(** A mounted Scope with two Tasks, created with different refs. *)
Definition sample_two_tasks : t :=
  fst (createTask (Some "b") Task.sample_entropy
         (fst (createTask (Some "a") Task.sample_entropy
                 (fst (mount (new sample_config false)))))).

End Scope.

(** ** engine/WorkerPool.ts

    The configured numbers are taken as integers. A unit of work is known
    to the pool by its id; its function and the [resolve]/[reject] pair of
    its promise stay with the caller. *)

Module WorkerPool.

Record WorkerPoolConfig := {
  defaultWorkers : Z;
  maxWorkers : Z;
  idleTimeout : option Z
}.

Inductive WorkerState := idle | busy | terminated.

Record PooledWorker := {
  id : string;
  state : WorkerState;
  currentWorkId : option string
}.

(** [store] holds the pooled workers ever created; [_workers] maps an id to
    an address in it. *)
Record t := mk {
  _config : WorkerPoolConfig;
  _workers : JsMap.t nat;
  _queue : list string;
  _disposed : bool;
  _workCounter : N;
  store : list PooledWorker
}.

Definition size (p : t) : nat := JsMap.size (_workers p).

Definition state_is (st : WorkerState) (p : t) (a : nat) : bool :=
  match store p !! a with
  | Some w =>
      match state w, st with
      | idle, idle | busy, busy | terminated, terminated => true
      | _, _ => false
      end
  | None => false
  end.

Definition idleCount (p : t) : nat :=
  length (List.filter (state_is idle p) (JsMap.values (_workers p))).

Definition busyCount (p : t) : nat :=
  length (List.filter (state_is busy p) (JsMap.values (_workers p))).

Definition queueSize (p : t) : nat := length (_queue p).

Definition isDisposed (p : t) : bool := _disposed p.

Definition with_workers (m : JsMap.t nat) (st : list PooledWorker) (p : t) : t :=
  {| _config := _config p; _workers := m; _queue := _queue p;
     _disposed := _disposed p; _workCounter := _workCounter p; store := st |}.

Definition with_queue (q : list string) (p : t) : t :=
  {| _config := _config p; _workers := _workers p; _queue := q;
     _disposed := _disposed p; _workCounter := _workCounter p; store := store p |}.

(** One turn of the loop of [_initializeWorkers]. *)
Definition add_worker (e : Entropy) (p : t) : t :=
  let wid := "worker_" +:+ pretty (now e) +:+ "_" +:+ rnd e in
  with_workers (JsMap.set wid (length (store p)) (_workers p))
    (store p ++ [{| id := wid; state := idle; currentWorkId := None |}]) p.

Fixpoint init_loop (gen : nat -> Entropy) (i n : nat) (p : t) : t :=
  match n with
  | O => p
  | S n' => init_loop gen (S i) n' (add_worker (gen i) p)
  end.

(** [_initializeWorkers(count)]; [gen i] is what the clock and the random
    source give at turn [i]. *)
Definition _initializeWorkers (gen : nat -> Entropy) (count : Z) (p : t) : t :=
  init_loop gen 0 (Z.to_nat count) p.

Definition new (gen : nat -> Entropy) (config : WorkerPoolConfig) : t :=
  _initializeWorkers gen (defaultWorkers config)
    {| _config := {| defaultWorkers := defaultWorkers config;
                     maxWorkers := maxWorkers config;
                     idleTimeout := Some match idleTimeout config with
                                         | Some ms => ms
                                         | None => 30000%Z
                                         end |};
       _workers := JsMap.empty;
       _queue := [];
       _disposed := false;
       _workCounter := 0%N;
       store := [] |}.

Definition _findIdleWorker (p : t) : option nat :=
  List.find (state_is idle p) (JsMap.values (_workers p)).

Definition set_worker (st : WorkerState) (wk : option string) (w : PooledWorker) : PooledWorker :=
  {| id := id w; state := st; currentWorkId := wk |}.

(** [_dispatchWork(worker, work)], up to the promise chain it starts. *)
Definition _dispatchWork (a : nat) (workId : string) (p : t) : t :=
  with_workers (_workers p) (alter (set_worker busy (Some workId)) a (store p)) p.

Definition _processQueue (p : t) : t :=
  match _queue p with
  | [] => p
  | work :: rest =>
      match _findIdleWorker p with
      | None => p
      | Some a => _dispatchWork a work (with_queue rest p)
      end
  end.

(** The [finally] of the chain [_dispatchWork] started for the worker at
    [a]. *)
Definition work_done (a : nat) (p : t) : t :=
  if _disposed p then p
  else
    _processQueue
      (with_workers (_workers p) (alter (set_worker idle None) a (store p)) p).

Inductive ExecResult :=
| ExecRejected (e : JsError)
| ExecDispatched (a : nat) (workId : string)
| ExecQueued (workId : string).

Definition execute (p : t) : t * ExecResult :=
  if _disposed p then (p, ExecRejected (KernelError "WorkerPool is disposed"))
  else
    let n := (_workCounter p + 1)%N in
    let workId := "work_" +:+ pretty n in
    let p1 := {| _config := _config p; _workers := _workers p; _queue := _queue p;
                 _disposed := _disposed p; _workCounter := n; store := store p |} in
    match _findIdleWorker p1 with
    | Some a => (_dispatchWork a workId p1, ExecDispatched a workId)
    | None => (with_queue (_queue p1 ++ [workId]) p1, ExecQueued workId)
    end.

(** The first loop of [_shrinkPool]: the ids of the first [count] idle
    workers, in the order of the map. *)
Fixpoint collect_idle (p : t) (addrs : list nat) (count : nat) : list string :=
  match count, addrs with
  | O, _ => []
  | _, [] => []
  | S c, a :: rest =>
      match store p !! a with
      | Some w =>
          match state w with
          | idle => id w :: collect_idle p rest c
          | _ => collect_idle p rest count
          end
      | None => collect_idle p rest count
      end
  end.

(** The second loop of [_shrinkPool], for one id. *)
Definition remove_worker (p : t) (wid : string) : t :=
  match JsMap.get wid (_workers p) with
  | Some a =>
      with_workers (JsMap.delete wid (_workers p))
        (alter (fun w => {| id := id w; state := terminated;
                            currentWorkId := currentWorkId w |}) a (store p)) p
  | None => p
  end.

Definition _shrinkPool (count : Z) (p : t) : t :=
  fold_left remove_worker
    (collect_idle p (JsMap.values (_workers p)) (Z.to_nat count)) p.

Definition scale (gen : nat -> Entropy) (count : Z) (p : t) : t :=
  if _disposed p then p
  else
    let target := Z.min count (maxWorkers (_config p)) in
    let current := Z.of_nat (JsMap.size (_workers p)) in
    if (current <? target)%Z then _initializeWorkers gen (target - current) p
    else if (target <? current)%Z then _shrinkPool (current - target) p
    else p.

(** [dispose()]: every queued unit is rejected, every worker of the map is
    marked terminated, and the map is emptied. *)
Definition dispose (p : t) : t :=
  if _disposed p then p
  else
    {| _config := _config p;
       _workers := JsMap.empty;
       _queue := [];
       _disposed := true;
       _workCounter := _workCounter p;
       store := alter_each (fun w => {| id := id w; state := terminated;
                                        currentWorkId := currentWorkId w |})
                  (JsMap.values (_workers p)) (store p) |}.

(** *** The pool as a transition system *)
Inductive Event :=
| EvExecute
| EvWorkDone (a : nat)
| EvScale (gen : nat -> Entropy) (count : Z)
| EvDispose.

Definition step (ev : Event) (p : t) : option t :=
  match ev with
  | EvExecute => Some (fst (execute p))
  | EvWorkDone a =>
      if state_is busy p a || _disposed p then Some (work_done a p) else None
  | EvScale gen count => Some (scale gen count p)
  | EvDispose => Some (dispose p)
  end.

Inductive reachable (gen : nat -> Entropy) (config : WorkerPoolConfig) : t -> Prop :=
| reach_new : reachable gen config (new gen config)
| reach_step p ev p' :
    reachable gen config p -> step ev p = Some p' -> reachable gen config p'.

(** Ids that differ from turn to turn. *)
Definition distinct_ids (i : nat) : Entropy := {| now := 0; rnd := pretty i |}.

(** The bound the code keeps: the larger of the two configured numbers. *)
Definition bound (config : WorkerPoolConfig) : Z :=
  Z.max 0 (Z.max (defaultWorkers config) (maxWorkers config)).

Definition within (config : WorkerPoolConfig) (p : t) : Prop :=
  maxWorkers (_config p) = maxWorkers config /\
  (Z.of_nat (size p) <= bound config)%Z.

(** Runs a list of events, stopping at one that is not enabled. *)
Fixpoint exec (evs : list Event) (p : t) : option t :=
  match evs with
  | [] => Some p
  | ev :: evs' =>
      match step ev p with
      | Some p' => exec evs' p'
      | None => None
      end
  end.

(** The map holds each worker under the worker's own id. *)
Record wf (p : t) : Prop := {
  wf_keys : NoDup (JsMap.keys (_workers p));
  wf_ids : forall k a, (k, a) ∈ _workers p ->
    exists w, store p !! a = Some w /\ id w = k
}.

(** The worker at [a] is busy with the unit [workId]. *)
Definition works_on (p : t) (a : nat) (workId : string) : Prop :=
  exists w, store p !! a = Some w /\ state w = busy /\ currentWorkId w = Some workId.

(** A pool of one worker that is busy, with a second unit in the queue. *)
Definition sample_config : WorkerPoolConfig :=
  {| defaultWorkers := 1; maxWorkers := 4; idleTimeout := None |}.

Definition sample_queued : t :=
  fst (execute (fst (execute (new distinct_ids sample_config)))).

(** A pool of three workers, the first of them busy. *)
Definition sample_busy : t :=
  fst (execute (scale (fun i => {| now := 1; rnd := pretty i |}) 3
                  (new distinct_ids sample_config))).

End WorkerPool.

(** ** core/Authority.ts: the broadcast mediator

    Of the Authority, the listener table and the three methods that touch
    it. A listener is a closure: [Behaviour] says, for each listener and
    each datum, which calls of [subscribe] and of returned unsubscribe
    functions it makes on the Authority, and whether it then throws. *)

Module Authority.

Record t := mk {
  _listeners : JsMap.t JsSet.t;
  _disposed : bool
}.

Definition new : t := {| _listeners := JsMap.empty; _disposed := false |}.

Definition subscribe (channel : string) (listener : nat) (a : t) : t :=
  let m := if JsMap.has channel (_listeners a) then _listeners a
           else JsMap.set channel JsSet.empty (_listeners a) in
  match JsMap.get channel m with
  | Some s =>
      {| _listeners := JsMap.set channel (JsSet.add listener s) m;
         _disposed := _disposed a |}
  | None => a
  end.

(** The function [subscribe] returns. *)
Definition unsubscribe (channel : string) (listener : nat) (a : t) : t :=
  match JsMap.get channel (_listeners a) with
  | Some s =>
      {| _listeners := JsMap.set channel (JsSet.delete listener s) (_listeners a);
         _disposed := _disposed a |}
  | None => a
  end.

Inductive Call :=
| CallSubscribe (channel : string) (listener : nat)
| CallUnsubscribe (channel : string) (listener : nat).

Record Reaction := { calls : list Call; throws : option Thrown }.

Definition Behaviour := nat -> JsValue -> Reaction.

Definition quiet : Reaction := {| calls := []; throws := None |}.

Definition apply_call (a : t) (c : Call) : t :=
  match c with
  | CallSubscribe ch l => subscribe ch l a
  | CallUnsubscribe ch l => unsubscribe ch l a
  end.

(** The loop [for (const listener of listeners) listener(data)], from entry
    [idx] of the Set on: the Set is read again at every turn, a hole is
    skipped, and an exception leaves the loop. [log] collects the
    listeners called. [None] means the fuel ran out. *)
Fixpoint deliver (fuel : nat) (beh : Behaviour) (channel : string) (data : JsValue)
    (idx : nat) (a : t) (log : list nat) : option (t * list nat * option Thrown) :=
  match fuel with
  | O => None
  | S fuel' =>
      match JsMap.get channel (_listeners a) with
      | None => Some (a, log, None)
      | Some s =>
          match s !! idx with
          | None => Some (a, log, None)
          | Some None => deliver fuel' beh channel data (S idx) a log
          | Some (Some l) =>
              let r := beh l data in
              let a' := fold_left apply_call (calls r) a in
              match throws r with
              | Some x => Some (a', log ++ [l], Some x)
              | None => deliver fuel' beh channel data (S idx) a' (log ++ [l])
              end
          end
      end
  end.

(** [broadcast(channel, data)]: the Authority afterwards, the listeners
    called, in order, and the exception that reached the caller, if any. *)
Definition broadcast (fuel : nat) (beh : Behaviour) (channel : string) (data : JsValue)
    (a : t) : option (t * list nat * option Thrown) :=
  match JsMap.get channel (_listeners a) with
  | Some _ => deliver fuel beh channel data 0 a []
  | None => Some (a, [], None)
  end.

Definition dispose (a : t) : t :=
  if _disposed a then a
  else {| _listeners := JsMap.empty; _disposed := true |}.

(** *** Concrete listeners *)

Definition boom : Thrown := ThrowError (UserError "boom").


(** Listener 1 subscribes listener 2 to channel "c", every other listener
    is quiet. *)
Definition first_subscribes : Behaviour :=
  fun l _ => match l with
             | 1 => {| calls := [CallSubscribe "c" 2]; throws := None |}
             | _ => quiet
             end.

(** The listeners of a channel, in subscription order, and the number of
    entries of its Set, holes included. *)
Definition listeners (channel : string) (a : t) : list nat :=
  match JsMap.get channel (_listeners a) with
  | Some s => JsSet.elements s
  | None => []
  end.

Definition entries (channel : string) (a : t) : nat :=
  match JsMap.get channel (_listeners a) with
  | Some s => length s
  | None => 0
  end.

(** The Authority after a run of [subscribe] calls and of calls of the
    functions they returned. *)
Definition run (cs : list Call) (a : t) : t := fold_left apply_call cs a.

End Authority.

(** ** core/Authority.ts: the scope registry and the lifecycle

    [bus] holds the listeners and the [_disposed] flag, [scopes] the Scopes
    the Authority has constructed; [_scopes] maps an id to an address in
    it. The pool is private to the Authority and handed to every Scope, so
    that apart from the Authority only Tasks reach it, through
    [execute]. *)

Module Registry.

Record AuthorityEngineConfig := {
  cfg_defaultWorkers : option Z;
  cfg_maxWorkers : option Z;
  cfg_idleTimeout : option Z
}.

Record AuthorityConfig := { cfg_engine : option AuthorityEngineConfig }.

Record t := mk {
  _workerPool : WorkerPool.t;
  _scopes : JsMap.t nat;
  bus : Authority.t;
  scopes : list Scope.t
}.

(** [new Authority(config)]; [navigator] is the host's object of that
    name, if it has one, with its [hardwareConcurrency]. *)
Definition new (navigator : option (option Z)) (gen : nat -> Entropy)
    (config : AuthorityConfig) : t :=
  let engineConfig :=
    match cfg_engine config with
    | Some en => en
    | None => {| cfg_defaultWorkers := None; cfg_maxWorkers := None;
                 cfg_idleTimeout := None |}
    end in
  let poolConfig :=
    {| WorkerPool.defaultWorkers :=
         match cfg_defaultWorkers engineConfig with Some d => d | None => 1%Z end;
       WorkerPool.maxWorkers :=
         match cfg_maxWorkers engineConfig with
         | Some m => m
         | None => match navigator with
                   | Some (Some h) => h
                   | _ => 4%Z
                   end
         end;
       WorkerPool.idleTimeout := cfg_idleTimeout engineConfig |} in
  {| _workerPool := WorkerPool.new gen poolConfig;
     _scopes := JsMap.empty;
     bus := Authority.new;
     scopes := [] |}.

Definition isDisposed (r : t) : bool := Authority._disposed (bus r).
Definition scopeCount (r : t) : nat := JsMap.size (_scopes r).
Definition idleWorkerCount (r : t) : nat := WorkerPool.idleCount (_workerPool r).
Definition busyWorkerCount (r : t) : nat := WorkerPool.busyCount (_workerPool r).

(** [createScope(config)]; [gen] is what the clock and the random source
    give if the pool is scaled. *)
Definition createScope (gen : nat -> Entropy) (config : Scope.ScopeConfig) (r : t)
    : t * (JsError + nat) :=
  if Authority._disposed (bus r) then
    (r, inl (KernelError "Authority is disposed"))
  else if JsMap.has (Scope.cfg_id config) (_scopes r) then
    (r, inl (KernelError ("Scope " +:+ quoted (Scope.cfg_id config) +:+ " already exists")))
  else
    let pool :=
      match Scope.cfg_engine config with
      | Some {| Scope.cfg_workers := Some w |} =>
          if (w =? 0)%Z then _workerPool r
          else if (Z.of_nat (WorkerPool.size (_workerPool r)) <? w)%Z
               then WorkerPool.scale gen w (_workerPool r)
               else _workerPool r
      | _ => _workerPool r
      end in
    let a := length (scopes r) in
    ({| _workerPool := pool;
        _scopes := JsMap.set (Scope.cfg_id config) a (_scopes r);
        bus := bus r;
        scopes := scopes r ++ [Scope.new config true] |},
     inr a).

Definition getScope (id : ScopeID) (r : t) : option nat := JsMap.get id (_scopes r).

Definition hasScope (id : ScopeID) (r : t) : bool := JsMap.has id (_scopes r).

Definition unregisterScope (id : ScopeID) (r : t) : t * bool :=
  ({| _workerPool := _workerPool r;
      _scopes := JsMap.delete id (_scopes r);
      bus := bus r;
      scopes := scopes r |},
   JsMap.has id (_scopes r)).

Definition getScopeIds (r : t) : list ScopeID := JsMap.keys (_scopes r).

Definition dispose (r : t) : t :=
  if Authority._disposed (bus r) then r
  else
    {| _workerPool := WorkerPool.dispose (_workerPool r);
       _scopes := JsMap.empty;
       bus := Authority.dispose (bus r);
       scopes := alter_each Scope.dispose (JsMap.values (_scopes r)) (scopes r) |}.

(** *** The Authority as a transition system

    Besides the calls of its own methods, an event is a call on one of the
    Scopes it has handed out, or a unit of work a Task gives to the pool
    or the end of one. *)
Inductive Event :=
| EvCreateScope (gen : nat -> Entropy) (config : Scope.ScopeConfig)
| EvUnregisterScope (id : ScopeID)
| EvBus (c : Authority.Call)
| EvDispose
| EvScope (a : nat) (ev : Scope.Event)
| EvPoolExecute
| EvPoolWorkDone (a : nat).

Definition step (ev : Event) (r : t) : option t :=
  match ev with
  | EvCreateScope gen config => Some (fst (createScope gen config r))
  | EvUnregisterScope id => Some (fst (unregisterScope id r))
  | EvBus c =>
      Some {| _workerPool := _workerPool r; _scopes := _scopes r;
              bus := Authority.apply_call (bus r) c; scopes := scopes r |}
  | EvDispose => Some (dispose r)
  | EvScope a ev =>
      match scopes r !! a with
      | Some s =>
          match Scope.step ev s with
          | Some s' =>
              Some {| _workerPool := _workerPool r; _scopes := _scopes r;
                      bus := bus r; scopes := <[a := s']> (scopes r) |}
          | None => None
          end
      | None => None
      end
  | EvPoolExecute =>
      match WorkerPool.step WorkerPool.EvExecute (_workerPool r) with
      | Some p => Some {| _workerPool := p; _scopes := _scopes r;
                          bus := bus r; scopes := scopes r |}
      | None => None
      end
  | EvPoolWorkDone a =>
      match WorkerPool.step (WorkerPool.EvWorkDone a) (_workerPool r) with
      | Some p => Some {| _workerPool := p; _scopes := _scopes r;
                          bus := bus r; scopes := scopes r |}
      | None => None
      end
  end.

Inductive reachable : t -> Prop :=
| reach_new navigator gen config : reachable (new navigator gen config)
| reach_step r ev r' : reachable r -> step ev r = Some r' -> reachable r'.

Fixpoint exec (evs : list Event) (r : t) : option t :=
  match evs with
  | [] => Some r
  | ev :: evs' =>
      match step ev r with
      | Some r' => exec evs' r'
      | None => None
      end
  end.

Record wf (r : t) : Prop := {
  wf_keys : NoDup (JsMap.keys (_scopes r));
  wf_ids : forall k a, (k, a) ∈ _scopes r ->
    exists s, scopes r !! a = Some s /\ Scope.id s = k;
  wf_scopes : forall a s, scopes r !! a = Some s -> Scope.reachable s;
  wf_pool : WorkerPool._disposed (_workerPool r) = Authority._disposed (bus r);
  wf_disposed : Authority._disposed (bus r) = true ->
    _scopes r = [] /\ WorkerPool._workers (_workerPool r) = []
}.

(** An Authority with two Scopes, "a" mounted and "b" not. *)
Definition sample_events : list Event :=
  [EvCreateScope WorkerPool.distinct_ids
     {| Scope.cfg_id := "a"; Scope.cfg_name := "A"; Scope.cfg_engine := None |};
   EvCreateScope WorkerPool.distinct_ids
     {| Scope.cfg_id := "b"; Scope.cfg_name := "B"; Scope.cfg_engine := None |};
   EvScope 0 Scope.EvMount].

Definition sample_new : t := new None WorkerPool.distinct_ids {| cfg_engine := None |}.

Definition sample_two_scopes : t :=
  match exec sample_events sample_new with
  | Some r => r
  | None => sample_new
  end.

End Registry.

(** * Properties *)

(** ** Properties of [JsMap] *)
Module JsMapFacts.
Import JsMap.

Section Facts.
Context {V : Type}.
Implicit Types (m : list (string * V)) (k : string) (v : V).

Lemma get_set_eq k v m : get k (set k v m) = Some v.
Proof.
  induction m as [|[k' v'] m IH]; simpl.
  - now rewrite String.eqb_refl.
  - destruct (String.eqb k k') eqn:E; simpl; rewrite ?String.eqb_refl, ?E; auto.
Qed.

Lemma get_set_ne k k' v m : k <> k' -> get k' (set k v m) = get k' m.
Proof.
  intros Hne. induction m as [|[k0 v0] m IH]; simpl.
  - destruct (String.eqb k' k) eqn:E; auto.
    apply String.eqb_eq in E. congruence.
  - destruct (String.eqb k k0) eqn:E; simpl.
    + apply String.eqb_eq in E. subst k0.
      destruct (String.eqb k' k) eqn:E'; auto.
      apply String.eqb_eq in E'. congruence.
    + now rewrite IH.
Qed.

Lemma keys_set k v m :
  keys (set k v m) = if has k m then keys m else keys m ++ [k].
Proof.
  unfold has. induction m as [|[k' v'] m IH]; simpl; auto.
  destruct (String.eqb k k') eqn:E; simpl.
  - apply String.eqb_eq in E. now subst.
  - rewrite IH. now destruct (get k m).
Qed.

Lemma size_set k v m :
  size (set k v m) = if has k m then size m else S (size m).
Proof.
  unfold size. rewrite <- !(length_map fst). fold (keys (set k v m)).
  rewrite keys_set. fold (keys m).
  destruct (has k m); auto. rewrite length_app. simpl. lia.
Qed.

Lemma size_set_le k v m : size (set k v m) <= S (size m).
Proof. rewrite size_set. destruct (has k m); lia. Qed.

Lemma size_delete_le k m : size (delete k m) <= size m.
Proof.
  unfold size. induction m as [|[k' v'] m IH]; simpl; auto.
  destruct (String.eqb k k'); simpl; lia.
Qed.

Lemma get_None_keys k m : get k m = None <-> k ∉ keys m.
Proof.
  induction m as [|[k' v'] m IH]; simpl.
  - split; [intros _; apply not_elem_of_nil | auto].
  - rewrite not_elem_of_cons. destruct (String.eqb k k') eqn:E.
    + apply String.eqb_eq in E. subst. split; [discriminate | tauto].
    + apply String.eqb_neq in E. rewrite IH. tauto.
Qed.

Lemma get_Some_elem k v m : get k m = Some v -> (k, v) ∈ m.
Proof.
  induction m as [|[k' v'] m IH]; simpl; [discriminate|].
  destruct (String.eqb k k') eqn:E.
  - apply String.eqb_eq in E. intros [= ->]. subst. apply elem_of_cons. now left.
  - intros H. apply elem_of_cons. right. auto.
Qed.

Lemma elem_keys k v m : (k, v) ∈ m -> k ∈ keys m.
Proof. intros H. unfold keys. apply list_elem_of_fmap. now exists (k, v). Qed.

Lemma elem_get k v m : NoDup (keys m) -> (k, v) ∈ m -> get k m = Some v.
Proof.
  induction m as [|[k' v'] m IH]; simpl.
  - intros _ H. now apply elem_of_nil in H.
  - intros Hnd H. apply NoDup_cons in Hnd as [Hni Hnd].
    apply elem_of_cons in H as [H|H].
    + injection H as -> ->. now rewrite String.eqb_refl.
    + destruct (String.eqb k k') eqn:E; auto.
      apply String.eqb_eq in E. subst k'. exfalso. apply Hni.
      eapply elem_keys; eauto.
Qed.

Lemma NoDup_keys_set k v m : NoDup (keys m) -> NoDup (keys (set k v m)).
Proof.
  intros Hnd. rewrite keys_set. unfold has.
  destruct (get k m) eqn:E; auto.
  apply get_None_keys in E.
  apply NoDup_app; repeat split; auto.
  - intros x Hx Hx'. apply list_elem_of_singleton in Hx'. now subst.
  - apply NoDup_singleton.
Qed.

Lemma elem_delete k kv m : kv ∈ delete k m -> kv ∈ m.
Proof.
  induction m as [|[k' v'] m IH]; simpl; auto.
  destruct (String.eqb k k'); simpl; rewrite !elem_of_cons; tauto.
Qed.

Lemma NoDup_keys_delete k m : NoDup (keys m) -> NoDup (keys (delete k m)).
Proof.
  induction m as [|[k' v'] m IH]; simpl; auto.
  intros Hnd. apply NoDup_cons in Hnd as [Hni Hnd].
  destruct (String.eqb k k'); simpl; auto.
  apply NoDup_cons. split; auto.
  intros Hin. apply Hni. unfold keys in *.
  apply list_elem_of_fmap in Hin as [kv [Hk Hin]].
  apply list_elem_of_fmap. exists kv. split; auto. eapply elem_delete; eauto.
Qed.

  (** An entry of [set k v m] is the new binding or an old one. *)
Lemma elem_set k v kv m : kv ∈ set k v m -> kv = (k, v) \/ kv ∈ m.
Proof.
  induction m as [|[k' v'] m IH]; simpl.
  - intros H. apply list_elem_of_singleton in H. now left.
  - destruct (String.eqb k k') eqn:E; simpl; rewrite !elem_of_cons.
    + intros [->|H]; auto.
    + intros [->|H]; auto. destruct (IH H); auto.
Qed.

Lemma values_elem a m : a ∈ values m <-> exists k, (k, a) ∈ m.
Proof.
  unfold values. rewrite list_elem_of_fmap. split.
  - intros [[k v] [-> H]]. now exists k.
  - intros [k H]. now exists (k, a).
Qed.

Lemma get_delete_eq k m : NoDup (keys m) -> get k (delete k m) = None.
Proof.
  induction m as [|[k' v'] m IH]; simpl; auto.
  intros Hnd. apply NoDup_cons in Hnd as [Hni Hnd].
  destruct (String.eqb k k') eqn:E.
  - apply String.eqb_eq in E. subst. now apply get_None_keys.
  - simpl. rewrite E. auto.
Qed.

Lemma get_delete_ne k k' m : k <> k' -> get k' (delete k m) = get k' m.
Proof.
  intros Hne. induction m as [|[k0 v0] m IH]; simpl; auto.
  destruct (String.eqb k k0) eqn:E.
  - apply String.eqb_eq in E. subst.
    destruct (String.eqb k' k0) eqn:E'; auto.
    apply String.eqb_eq in E'. congruence.
  - simpl. now rewrite IH.
Qed.

End Facts.

Lemma delete_set {V : Type} k (v : V) m : JsMap.delete k (JsMap.set k v m) = JsMap.delete k m.
Proof.
  induction m as [|[k' v'] m IH]; simpl.
  - now rewrite String.eqb_refl.
  - destruct (String.eqb k k') eqn:E; simpl; rewrite ?String.eqb_refl, ?E; auto.
    now rewrite IH.
Qed.

Lemma elem_delete_ne {V : Type} k (kv : string * V) m :
  kv ∈ m -> fst kv <> k -> kv ∈ JsMap.delete k m.
Proof.
  intros Hin Hne. induction m as [|[k' v'] m IH]; simpl; auto.
  apply elem_of_cons in Hin as [->|Hin].
  - simpl in Hne. destruct (String.eqb k k') eqn:E.
    + apply String.eqb_eq in E. congruence.
    + apply elem_of_cons. now left.
  - destruct (String.eqb k k'); auto. apply elem_of_cons. right. auto.
Qed.

End JsMapFacts.

(** ** Properties of [JsSet] *)
Module JsSetFacts.
Import JsSet.

Lemma elements_app s1 s2 : elements (s1 ++ s2) = elements s1 ++ elements s2.
Proof. unfold elements. apply omap_app. Qed.

Lemma has_elements x s : has x s = true <-> x ∈ elements s.
Proof.
  unfold has, elements. induction s as [|[y|] s IH]; simpl.
  - split; [discriminate | intros H; now apply elem_of_nil in H].
  - rewrite orb_true_iff, IH, elem_of_cons, Nat.eqb_eq. tauto.
  - exact IH.
Qed.

Lemma elements_delete x s :
  elements (delete x s) = List.filter (fun y => negb (Nat.eqb x y)) (elements s).
Proof.
  unfold elements, delete. induction s as [|[y|] s IH]; simpl; auto.
  destruct (Nat.eqb x y); simpl; [exact IH | f_equal; exact IH].
Qed.

Lemma elements_clear s : elements (clear s) = [].
Proof. unfold elements, clear. induction s as [|e s IH]; simpl; auto. Qed.

Lemma elements_add x s :
  elements (add x s) = if has x s then elements s else elements s ++ [x].
Proof.
  unfold add. destruct (has x s); auto. now rewrite elements_app.
Qed.

Lemma NoDup_filter_bool (f : nat -> bool) (l : list nat) :
  NoDup l -> NoDup (List.filter f l).
Proof.
  induction 1 as [|y l Hni Hnd IH]; simpl; [apply NoDup_nil_2|].
  destruct (f y); auto. apply NoDup_cons. split; auto.
  intros Hin. apply Hni. apply list_elem_of_In in Hin.
  apply List.filter_In in Hin as [Hin _]. now apply list_elem_of_In.
Qed.

(** The live entries of a Set are pairwise different, whatever is added
    or deleted. *)
Lemma NoDup_elements_add x s : NoDup (elements s) -> NoDup (elements (add x s)).
Proof.
  intros Hnd. rewrite elements_add. destruct (has x s) eqn:E; auto.
  apply NoDup_app. repeat split; auto.
  - intros y Hy Hy'. apply list_elem_of_singleton in Hy'. subst y.
    apply has_elements in Hy. congruence.
  - apply NoDup_singleton.
Qed.

Lemma NoDup_elements_delete x s : NoDup (elements s) -> NoDup (elements (delete x s)).
Proof. intros Hnd. rewrite elements_delete. now apply NoDup_filter_bool. Qed.

Lemma not_elem_delete x s : x ∉ elements (delete x s).
Proof.
  rewrite elements_delete. intros Hin. apply list_elem_of_In in Hin.
  apply List.filter_In in Hin as [_ Hin]. now rewrite Nat.eqb_refl in Hin.
Qed.


End JsSetFacts.

(** ** Properties of [ScopeFSM] *)
Module ScopeFSMFacts.
Import ScopeFSM.

Lemma state_eqb_eq a b : state_eqb a b = true <-> a = b.
Proof. destruct a, b; simpl; split; congruence. Qed.

Lemma canExecute_isAlive s : canExecute s = true -> isAlive s = true.
Proof. now destruct s. Qed.

Lemma next_rank s e : rank s <= rank (next s e).
Proof. destruct s, e; simpl; lia. Qed.

(** X1. The lifecycle never goes back to an earlier phase: along any run
    of events the rank of the state does not decrease, and a transition
    that keeps the rank either leaves the state as it is or goes between
    [RUNNING] and [SUSPENDED], the only cycle of the machine; the answer
    of [transition] tells whether the state changed. *)
Theorem lifecycle_only_moves_forward (s : FSMState) (evs : list FSMEvent) (e : FSMEvent) :
  rank s <= rank (run evs s) /\
  (rank (next s e) = rank s ->
     next s e = s \/
     (s = RUNNING /\ e = suspend /\ next s e = SUSPENDED) \/
     (s = SUSPENDED /\ e = resume /\ next s e = RUNNING)) /\
  (snd (transition s e) = true <-> fst (transition s e) <> s).
Proof.
  split; [| split].
  - unfold run. revert s. induction evs as [|ev evs IH]; intros s; simpl; auto.
    pose proof (next_rank s ev). pose proof (IH (next s ev)). lia.
  - destruct s, e; simpl; intros H; try discriminate H;
      try (left; reflexivity);
      try (right; left; repeat split; reflexivity);
      right; right; repeat split; reflexivity.
  - destruct s, e; simpl; split; congruence.
Qed.

(** X2. A machine that is no longer alive never comes back: whatever
    events follow, it is not alive and does not permit execution, and after
    at least one more event it is [DISPOSED]. *)
Theorem disposal_is_final (s : FSMState) (evs : list FSMEvent) :
  isAlive s = false ->
  isAlive (run evs s) = false /\
  canExecute (run evs s) = false /\
  (evs <> [] -> run evs s = DISPOSED).
Proof.
  intros Ha.
  assert (Hd : forall evs, run evs DISPOSED = DISPOSED).
  { clear. unfold run. induction evs; simpl; auto. }
  destruct evs as [|e evs].
  - simpl. destruct s; try discriminate Ha; repeat split; congruence.
  - assert (Hn : next s e = DISPOSED) by (destruct s; try discriminate Ha; reflexivity).
    unfold run in *. simpl. rewrite Hn, Hd. auto.
Qed.

Lemma disposal_is_final_witness :
  isAlive (run [mounted; resume] DISPOSING) = false /\
  run [mounted; resume] DISPOSING = DISPOSED.
Proof.
  destruct (disposal_is_final DISPOSING [mounted; resume] eq_refl) as (H1 & _ & H3).
  split; [exact H1 | apply H3; discriminate].
Defined.

End ScopeFSMFacts.

(** ** Properties of [StreamBuffer] *)
Module StreamBufferProps.
Import StreamBuffer.

Lemma length_ge_room n x :
  length_ge n x = match room x with Some H => H <=? n | None => false end.
Proof.
  destruct x as [q| | |]; simpl; auto.
  destruct (Z.to_nat (Qround.Qceiling q) <=? n) eqn:E.
  - apply Nat.leb_le in E. apply QArith_base.Qle_bool_iff.
    apply (QArith_base.Qle_trans _ (QArith_base.inject_Z (Qround.Qceiling q)));
      [apply Qround.Qle_ceiling|].
    rewrite <- QArith_base.Zle_Qle. lia.
  - apply Nat.leb_gt in E.
    destruct (QArith_base.Qle_bool q (QArith_base.inject_Z (Z.of_nat n))) eqn:Eq; auto.
    apply QArith_base.Qle_bool_iff, Qround.Qceiling_resp_le in Eq.
    rewrite Qround.Qceiling_Z in Eq. lia.
Qed.

Lemma room_of_Z z : room (of_Z z) = Some (Z.to_nat z).
Proof. unfold room, of_Z. now rewrite Qround.Qceiling_Z. Qed.

Lemma step_bounded H b ev :
  room (_highWaterMark b) = Some H ->
  size b <= H ->
  size (step b ev) <= H /\ _highWaterMark (step b ev) = _highWaterMark b.
Proof.
  intros Hr Hb. destruct ev; simpl; unfold push, size in *; simpl; auto.
  - destruct (_closed b); simpl; auto.
    rewrite length_ge_room, Hr.
    destruct (H <=? length (_chunks b)) eqn:E; simpl; auto.
    apply Nat.leb_gt in E. rewrite length_app. simpl. split; [lia | auto].
  - split; [lia | auto].
  - split; [lia | auto].
Qed.

Lemma run_bounded H evs b :
  room (_highWaterMark b) = Some H ->
  size b <= H ->
  size (run evs b) <= H.
Proof.
  unfold run. revert b. induction evs as [|ev evs IH]; intros b Hr Hb; simpl; auto.
  destruct (step_bounded H b ev Hr Hb) as [H1 H2].
  apply IH; [now rewrite H2 | exact H1].
Qed.

(** X3. Whatever is done to a buffer after its construction, it never
    holds more chunks than its high-water mark rounded up, and none when
    the mark is below 0: for a mark that is an integer this is the mark
    itself, 10000 when none is given. A mark that is [NaN] or [Infinity]
    sets no bound. *)
Theorem buffer_never_exceeds_highWaterMark (h : option JsNumber) (evs : list Event) :
  match room (_highWaterMark (new h)) with
  | Some H => size (run evs (new h)) <= H
  | None => _highWaterMark (new h) = NaN \/ _highWaterMark (new h) = PosInfinity
  end /\
  (forall z, h = Some (of_Z z) -> (Z.of_nat (size (run evs (new h))) <= Z.max 0 z)%Z) /\
  (h = None -> (Z.of_nat (size (run evs (new h))) <= 10000)%Z).
Proof.
  assert (Hb : forall H, room (_highWaterMark (new h)) = Some H ->
                 size (run evs (new h)) <= H).
  { intros H Hr. apply run_bounded; auto. unfold size. simpl. lia. }
  split; [| split].
  - destruct (room (_highWaterMark (new h))) as [H|] eqn:Hr; [now apply Hb|].
    destruct (_highWaterMark (new h)); try discriminate Hr; auto.
  - intros z ->. specialize (Hb _ (room_of_Z z)). lia.
  - intros ->. specialize (Hb _ (room_of_Z 10000)). lia.
Qed.

Lemma pushes_bounded H vs b :
  _closed b = false ->
  room (_highWaterMark b) = Some H ->
  _chunks (fst (pushes vs b)) = _chunks b ++ firstn (H - length (_chunks b)) vs /\
  snd (pushes vs b) = map (fun i => i <? H - length (_chunks b)) (seq 0 (length vs)).
Proof.
  revert b. induction vs as [|v vs IH]; intros [ch hw cl] Hc Hr; simpl in *; subst cl.
  - rewrite firstn_nil, app_nil_r. auto.
  - unfold push. simpl. rewrite length_ge_room, Hr.
    destruct (H <=? length ch) eqn:E.
    + apply Nat.leb_le in E.
      specialize (IH {| _chunks := ch; _highWaterMark := hw; _closed := false |}
                    eq_refl Hr).
      simpl in IH. destruct IH as (H1 & H2).
      destruct (pushes vs _) as [b2 oks]. simpl in *.
      replace (H - length ch) with 0 in * by lia.
      simpl in *. rewrite firstn_O in H1. repeat split; auto.
      f_equal. rewrite H2. rewrite <- seq_shift, map_map. reflexivity.
    + apply Nat.leb_gt in E.
      specialize (IH {| _chunks := ch ++ [v]; _highWaterMark := hw; _closed := false |}
                    eq_refl Hr).
      simpl in IH. destruct IH as (H1 & H2).
      destruct (pushes vs _) as [b2 oks]. simpl in *.
      rewrite length_app in *. simpl in *.
      destruct (H - length ch) as [|rm] eqn:Er; [lia|].
      replace (H - (length ch + 1)) with rm in * by lia.
      simpl. rewrite H1, <- app_assoc. repeat split; auto.
      f_equal. rewrite H2. rewrite <- seq_shift, map_map. reflexivity.
Qed.

Lemma pushes_unbounded vs b :
  _closed b = false ->
  room (_highWaterMark b) = None ->
  _chunks (fst (pushes vs b)) = _chunks b ++ vs /\
  snd (pushes vs b) = map (fun _ => true) (seq 0 (length vs)).
Proof.
  revert b. induction vs as [|v vs IH]; intros [ch hw cl] Hc Hr; simpl in *; subst cl.
  - rewrite app_nil_r. auto.
  - unfold push. simpl. rewrite length_ge_room, Hr.
    specialize (IH {| _chunks := ch ++ [v]; _highWaterMark := hw; _closed := false |}
                  eq_refl Hr).
    simpl in IH. destruct IH as (H1 & H2).
    destruct (pushes vs _) as [b2 oks]. simpl in *.
    rewrite H1, <- app_assoc. split; auto.
    f_equal. rewrite H2. rewrite <- seq_shift, map_map. reflexivity.
Qed.

(** X4. Pushing values into a fresh buffer accepts exactly the first
    [H] of them, in order, where [H] is the high-water mark rounded up (0
    for a mark below 0, and every value for a mark that is [NaN] or
    [Infinity]), and answers [false] to the others without changing the
    buffer; [drain] then hands back the accepted values in the order they
    were pushed and leaves the buffer empty. With a mark of 2.5 three
    values are accepted. *)
Theorem pushes_accept_up_to_highWaterMark (h : option JsNumber) (vs : list JsValue) :
  let H := match room (_highWaterMark (new h)) with
           | Some H => H
           | None => length vs
           end in
  let b := fst (pushes vs (new h)) in
  snd (pushes vs (new h)) = map (fun i => i <? H) (seq 0 (length vs)) /\
  getChunks b = firstn H vs /\
  size b = Nat.min H (length vs) /\
  snd (drain b) = firstn H vs /\
  size (fst (drain b)) = 0 /\
  room (Finite (QArith_base.Qmake 5 2)) = Some 3 /\
  (forall z, room (of_Z z) = Some (Z.to_nat z)).
Proof.
  simpl.
  assert (Hp : _chunks (fst (pushes vs (new h))) =
                 firstn match room (_highWaterMark (new h)) with
                        | Some H => H
                        | None => length vs
                        end vs /\
               snd (pushes vs (new h)) =
                 map (fun i => i <? match room (_highWaterMark (new h)) with
                                    | Some H => H
                                    | None => length vs
                                    end) (seq 0 (length vs))).
  { destruct (room (_highWaterMark (new h))) as [H|] eqn:Hr.
    - destruct (pushes_bounded H vs (new h) eq_refl Hr) as (H1 & H2).
      simpl in H1, H2. rewrite Nat.sub_0_r in H1, H2. auto.
    - destruct (pushes_unbounded vs (new h) eq_refl Hr) as (H1 & H2).
      simpl in H1. rewrite firstn_all. split; auto.
      rewrite H2. apply map_ext_in. intros i Hi. apply in_seq in Hi.
      symmetry. apply Nat.ltb_lt. lia. }
  destruct Hp as (H1 & H2).
  unfold getChunks, size, drain. simpl.
  rewrite H1, H2. repeat split; auto.
  - rewrite length_firstn. reflexivity.
  - apply room_of_Z.
Qed.

Lemma closed_step b ev :
  _closed b = true ->
  _closed (step b ev) = true /\
  (_chunks (step b ev) = _chunks b \/ _chunks (step b ev) = []).
Proof.
  intros Hc. destruct ev; simpl; unfold push; rewrite ?Hc; simpl; auto.
Qed.

(** X5. Once a buffer is closed it stays closed: every later [push] is
    refused, so the chunks it holds are those it held at the close, until a
    [drain] or [clear] empties it for good. *)
Theorem closed_buffer_takes_nothing (b : t) (evs : list Event) (chunk : JsValue) :
  let b' := run evs (close b) in
  isClosed b' = true /\
  (getChunks b' = getChunks b \/ getChunks b' = []) /\
  push chunk b' = (b', false).
Proof.
  simpl.
  assert (H : forall evs c, _closed c = true ->
            _closed (run evs c) = true /\
            (_chunks (run evs c) = _chunks c \/ _chunks (run evs c) = [])).
  { clear. unfold run. induction evs as [|ev evs IH]; intros c Hc; simpl; auto.
    destruct (closed_step c ev Hc) as [H1 H2].
    destruct (IH _ H1) as [H3 H4]. split; auto.
    destruct H4 as [H4|H4]; auto. rewrite H4. exact H2. }
  destruct (H evs (close b) eq_refl) as [H1 H2].
  unfold isClosed, getChunks. repeat split; auto.
  unfold push. now rewrite H1.
Qed.

End StreamBufferProps.

(** ** Properties of [Worker] *)
Module WorkerProps.
Import Worker.

Ltac worker_cases w :=
  destruct w as [i r st sa er aw]; simpl in *;
  destruct st, sa, aw; simpl in *.

Lemma new_worker_wf taskRef e : wf (new taskRef e).
Proof.
  split; simpl; try discriminate; auto.
  split; [congruence | discriminate].
Qed.

Lemma step_worker_wf ev w w' : wf w -> step ev w = Some w' -> wf w'.
Proof.
  intros [W1 W2 W3 W4 W5] Hs.
  destruct ev as [|[v|x]|]; worker_cases w;
    try discriminate Hs; injection Hs as <-;
    unfold terminate, isActive in *; simpl in *;
    try (specialize (W2 eq_refl); discriminate W2);
    try (specialize (W3 eq_refl); discriminate W3);
    try (specialize (W4 eq_refl); discriminate W4);
    try (destruct (W5 eq_refl) as [W5'|[W5' W5'']]; discriminate);
    split; simpl; auto; try discriminate; try tauto;
    try (split; [congruence | discriminate]);
    try (split; [intros _; reflexivity | discriminate]);
    try (destruct W1 as [W1a W1b]; split; [intros H; specialize (W1a H); discriminate W1a | discriminate]).
Qed.

Lemma reachable_worker_wf w : reachable w -> wf w.
Proof.
  induction 1 as [| w ev w' _ IH Hs]; [apply new_worker_wf | eapply step_worker_wf; eauto].
Qed.

(** X6. A Worker's status moves only along [idle -> running ->
    (terminated | failed)], or from [idle] to [terminated] when it is
    terminated before being started; once terminated or failed it keeps
    its status and its error under every later call and settlement, so a
    failed Worker never becomes terminated; an error is recorded exactly
    in the failed state; and a Worker whose signal is aborted is
    terminated. *)
Theorem worker_lifecycle (w w' : t) (ev : Event) :
  reachable w ->
  step ev w = Some w' ->
  may_follow (_status w) (_status w') = true /\
  (isActive w = false -> _status w' = _status w /\ _error w' = _error w) /\
  (_error w' <> None <-> _status w' = failed) /\
  (signal_aborted w' = true -> _status w' = terminated).
Proof.
  intros Hr Hs.
  assert (Hr' : reachable w') by (eapply reach_step; eauto).
  pose proof (reachable_worker_wf _ Hr') as [W1' W2' _ _ _].
  pose proof (reachable_worker_wf _ Hr) as [W1 W2 W3 W4 W5]. clear Hr Hr'.
  split; [| split; [| split; [exact W1' | exact W2']]]; clear W1' W2'.
  - destruct ev as [|[v|x]|]; unfold isActive, terminate in *; worker_cases w;
      try discriminate Hs; injection Hs as <-; try reflexivity;
      try (specialize (W3 eq_refl); discriminate W3);
      try (specialize (W4 eq_refl); discriminate W4);
      try (destruct (W5 eq_refl) as [W5'|[W5' W5'']]; discriminate).
  - destruct ev as [|[v|x]|]; unfold isActive, terminate in *; worker_cases w;
      intros Hi; try discriminate Hi; try discriminate Hs;
      injection Hs as <-; simpl; auto;
      try (specialize (W4 eq_refl); discriminate W4);
      try (destruct (W5 eq_refl) as [W5'|[W5' W5'']]; discriminate).
Qed.

Lemma worker_lifecycle_witness :
  let failed_worker := fst (start_resume (Threw (ThrowValue "x")) sample_started) in
  reachable failed_worker /\
  _status failed_worker = failed /\
  _status (terminate failed_worker) = failed /\
  _error (terminate failed_worker) = Some (WrappedError "x").
Proof.
  intros failed_worker.
  assert (Hr : reachable failed_worker).
  { apply (reach_step sample_started (EvSettle (Threw (ThrowValue "x")))); [| reflexivity].
    apply (reach_step (new "ref" {| now := 0; rnd := "w" |}) EvStart);
      [apply reach_new | reflexivity]. }
  destruct (worker_lifecycle failed_worker (terminate failed_worker) EvTerminate Hr eq_refl)
    as (_ & H & _).
  destruct (H eq_refl) as [H1 H2].
  split; [exact Hr|]. split; [reflexivity|]. split; [exact H1 | exact H2].
Defined.

(** X7. When a Worker is terminated while its function runs, whatever the
    function then does is swallowed: returning or throwing, [start]
    resolves, the Worker is terminated with its signal aborted, and no
    error is recorded. *)
Theorem terminated_worker_swallows_outcome (w : t) (o : FnOutcome) :
  reachable w ->
  awaiting w = true ->
  let w1 := terminate w in
  let w2 := fst (start_resume o w1) in
  signal_aborted w1 = true /\
  snd (start_resume o w1) = StartResolved /\
  _status w2 = terminated /\
  _error w2 = None /\
  awaiting w2 = false.
Proof.
  intros Hr Ha. pose proof (reachable_worker_wf _ Hr) as [W1 W2 W3 W4 W5].
  destruct (W5 Ha) as [Hs|[Hs Hsig]];
    destruct o as [v|x]; unfold terminate, isActive; worker_cases w;
    try discriminate; repeat split; auto;
    destruct er as [e|]; auto;
    destruct W1 as [W1 _]; specialize (W1 ltac:(discriminate)); discriminate W1.
Qed.

Lemma terminated_worker_swallows_outcome_witness :
  let x := Threw (ThrowError (UserError "late")) in
  snd (start_resume x (terminate sample_started)) = StartResolved /\
  _status (fst (start_resume x (terminate sample_started))) = terminated /\
  _error (fst (start_resume x (terminate sample_started))) = None.
Proof.
  assert (Hr : reachable sample_started).
  { apply (reach_step (new "ref" {| now := 0; rnd := "w" |}) EvStart);
      [apply reach_new | reflexivity]. }
  destruct (terminated_worker_swallows_outcome sample_started
              (Threw (ThrowError (UserError "late"))) Hr eq_refl)
    as (_ & H2 & H3 & H4 & _).
  split; [exact H2|]. split; [exact H3 | exact H4].
Defined.

End WorkerProps.

(** ** Properties of [Handler] *)
Module HandlerProps.
Import Handler.

Ltac handler_cases h :=
  destruct h as [i r st fn er ca aw]; simpl in *;
  destruct st, fn, ca, aw; simpl in *.

Lemma new_handler_wf taskRef e : wf (new taskRef e).
Proof.
  split; simpl; try discriminate.
  - split; [congruence | discriminate].
  - split; discriminate.
Qed.

Lemma step_handler_wf ev h h' : wf h -> step ev h = Some h' -> wf h'.
Proof.
  intros [W1 W2 W3] Hs.
  destruct ev as [| |[v|x]|]; unfold setFunction, execute_begin, execute_resume,
    cancel, with_status in *; handler_cases h;
    try discriminate Hs; injection Hs as <-;
    try (destruct (W2 eq_refl) as [W|W]; discriminate W);
    try (destruct W3 as [W3 _]; specialize (W3 eq_refl); discriminate W3);
    try (destruct W3 as [_ W3]; specialize (W3 eq_refl); discriminate W3);
    split; simpl; auto; try discriminate; try tauto;
    try (split; discriminate); try (split; [congruence | discriminate]);
    try (split; [intros _; reflexivity | discriminate]);
    try (split; [discriminate | intros _; reflexivity]);
    try (destruct W1 as [W1a W1b]; split;
         [intros H; specialize (W1a H); discriminate W1a | discriminate]).
Qed.

Lemma reachable_handler_wf h : reachable h -> wf h.
Proof.
  induction 1 as [| h ev h' _ IH Hs]; [apply new_handler_wf | eapply step_handler_wf; eauto].
Qed.

Lemma step_not_pending ev h h' :
  _status h <> pending -> step ev h = Some h' -> _status h' <> pending.
Proof.
  intros Hp Hs.
  destruct ev as [| |[v|x]|]; unfold setFunction, execute_begin, execute_resume,
    cancel, with_status in *; handler_cases h;
    try discriminate Hs; injection Hs as <-; simpl; congruence.
Qed.

Lemma not_pending_never_called evs h :
  _status h <> pending -> calls_of_fn evs h = 0.
Proof.
  revert h. induction evs as [|ev evs IH]; intros h Hp; simpl; auto.
  destruct (step ev h) as [h'|] eqn:Hs; [| now apply IH].
  rewrite (IH h') by (eapply step_not_pending; eauto).
  destruct ev; simpl; auto.
  unfold execute_begin. destruct (_status h); try congruence; reflexivity.
Qed.

(** X8. A Handler runs at most once: along any run of calls and
    settlements, the bound function is called at most one time. *)
Theorem handler_function_called_at_most_once (h : t) (evs : list Event) :
  calls_of_fn evs h <= 1.
Proof.
  revert h. induction evs as [|ev evs IH]; intros h; simpl; [lia|].
  destruct (step ev h) as [h'|] eqn:Hs; [| apply IH].
  destruct (starts_fn ev h) eqn:Est; [| apply IH].
  rewrite not_pending_never_called; [lia|].
  destruct ev; try discriminate Est. simpl in *. injection Hs as <-.
  unfold execute_begin, with_status in *.
  destruct (_status h); simpl in *; try discriminate Est.
  destruct (negb (_fn h)); simpl in *; try discriminate Est.
  destruct (_cancelled h); simpl in *; [discriminate Est | discriminate].
Qed.

(** X9. A Handler cancelled while it is still pending never runs: its
    status is [cancelled], [execute()] rejects, and no later run of calls
    gets the bound function called. *)
Theorem cancelled_pending_handler_never_runs (h : t) (evs : list Event) :
  _status h = pending ->
  _status (cancel h) = cancelled /\
  execute_begin (cancel h) =
    (cancel h, Some (KernelError "Cannot execute handler: status is cancelled")) /\
  calls_of_fn evs (cancel h) = 0.
Proof.
  intros Hp.
  assert (Hc : _status (cancel h) = cancelled) by (unfold cancel; now rewrite Hp).
  split; [exact Hc|]. split.
  - unfold execute_begin. now rewrite Hc.
  - apply not_pending_never_called. congruence.
Qed.

Lemma cancelled_pending_handler_never_runs_witness :
  let h := fst (setFunction (new "ref" {| now := 0; rnd := "h" |})) in
  calls_of_fn [EvExecute; EvCancel; EvExecute] (cancel h) = 0.
Proof.
  intros h.
  destruct (cancelled_pending_handler_never_runs h [EvExecute; EvCancel; EvExecute] eq_refl)
    as (_ & _ & H).
  exact H.
Defined.

(** X10. Cancellation during the run wins: if [cancel()] is called while
    the function of a Handler runs, then however the function ends, the
    Handler ends [cancelled], [execute] resolves without raising, and no
    error is recorded. *)
Theorem cancel_during_run_wins (h : t) (o : FnOutcome) :
  reachable h ->
  awaiting h = true ->
  let h' := fst (execute_resume o (cancel h)) in
  _status (cancel h) = running /\
  _status h' = cancelled /\
  _error h' = None /\
  snd (execute_resume o (cancel h)) = None.
Proof.
  intros Hr Ha. pose proof (reachable_handler_wf _ Hr) as [W1 W2 W3].
  destruct W3 as [W3 _]. specialize (W3 Ha).
  assert (He : _error h = None).
  { destruct (_error h) eqn:E; auto.
    destruct W1 as [W1 _]. rewrite W1 in W3 by congruence. discriminate W3. }
  unfold cancel, execute_resume, with_status. rewrite W3. simpl.
  destruct o; simpl; auto.
Qed.

Lemma cancel_during_run_wins_witness :
  let boom := Threw (ThrowError (UserError "boom")) in
  _status (fst (execute_resume boom (cancel sample_executing))) = cancelled /\
  snd (execute_resume boom (cancel sample_executing)) = None.
Proof.
  assert (Hr : reachable sample_executing).
  { apply (reach_step (fst (setFunction (new "ref" {| now := 0; rnd := "h" |}))) EvExecute);
      [| reflexivity].
    apply (reach_step (new "ref" {| now := 0; rnd := "h" |}) EvSetFunction);
      [apply reach_new | reflexivity]. }
  destruct (cancel_during_run_wins sample_executing (Threw (ThrowError (UserError "boom")))
              Hr eq_refl) as (_ & H2 & _ & H4).
  split; [exact H2 | exact H4].
Defined.

End HandlerProps.

(** ** Properties of [Stream] *)
Module StreamProps.
Import Stream.

Lemma new_stream_wf taskRef e : wf (new taskRef e).
Proof. split; simpl; [apply NoDup_nil_2 | congruence]. Qed.

Lemma step_stream_wf ev s : wf s -> wf (fst (step ev s)).
Proof.
  intros [W1 W2].
  destruct ev; unfold step, emit, subscribe, unsubscribe, close, abort, finish;
    simpl; destruct (_status s) eqn:Es; simpl; split; simpl; auto;
    try congruence;
    try (intros _; apply JsSetFacts.elements_clear);
    try apply JsSetFacts.NoDup_elements_add;
    try apply JsSetFacts.NoDup_elements_delete; auto;
    try (rewrite JsSetFacts.elements_clear; apply NoDup_nil_2);
    try (intros _; rewrite JsSetFacts.elements_delete, W2 by congruence; reflexivity).
Qed.

Lemma reachable_stream_wf s : reachable s -> wf s.
Proof.
  induction 1 as [| s ev _ IH]; [apply new_stream_wf | now apply step_stream_wf].
Qed.

Lemma run_reachable evs s : reachable s -> reachable (fst (run evs s)).
Proof.
  revert s. induction evs as [|ev evs IH]; intros s Hr; simpl; auto.
  pose proof (IH _ (reach_step s ev Hr)) as H.
  destruct (step ev s) as [s1 d1]. simpl in *.
  destruct (run evs s1) as [s2 d2]. exact H.
Qed.




Lemma delete_no_entries x (s : list (option nat)) :
  JsSet.elements s = [] -> JsSet.delete x s = s.
Proof.
  unfold JsSet.elements, JsSet.delete.
  induction s as [|[y|] s IH]; simpl; intros H; auto; [discriminate|].
  now rewrite IH.
Qed.

Lemma ended_step ev s :
  _status s <> open -> JsSet.elements (_subscribers s) = [] -> step ev s = (s, []).
Proof.
  intros Hs He.
  destruct ev; unfold step, emit, subscribe, unsubscribe, close, abort, finish;
    destruct (_status s) eqn:Es; try congruence; auto.
  all: rewrite delete_no_entries by auto; destruct s; simpl in *; congruence.
Qed.

(** X12. The end of a Stream is final. [close()] and [abort()] act only
    on an open Stream, which they leave closed, respectively aborted, with
    no subscriber; on a Stream already ended they change nothing, so a
    closed Stream is never turned into an aborted one, nor the reverse.
    After either, no run of calls changes the Stream or delivers anything:
    emissions are dropped and subscriptions refused. *)
Theorem stream_end_is_final (s : t) (st : StreamStatus) (evs : list Event) :
  reachable s ->
  st <> open ->
  let s' := finish st s in
  (_status s = open -> _status s' = st) /\
  (_status s <> open -> s' = s) /\
  JsSet.elements (_subscribers s') = [] /\
  _buffer s' = _buffer s /\
  run evs s' = (s', []).
Proof.
  intros Hr Hst. pose proof (reachable_stream_wf _ Hr) as [W1 W2]. simpl.
  assert (Hns : _status (finish st s) <> open).
  { unfold finish. destruct (_status s) eqn:Es; simpl; congruence. }
  assert (Hel : JsSet.elements (_subscribers (finish st s)) = []).
  { unfold finish. destruct (_status s) eqn:Es; simpl;
      [apply JsSetFacts.elements_clear | apply W2; congruence | apply W2; congruence]. }
  repeat split; auto.
  - unfold finish. intros ->. reflexivity.
  - unfold finish. destruct (_status s); congruence.
  - unfold finish. destruct (_status s); reflexivity.
  - induction evs as [|ev evs IH]; simpl; auto.
    rewrite ended_step by auto. now rewrite IH.
Qed.

Lemma stream_end_is_final_witness :
  let s := fst (run [EvSubscribe 1; EvEmit (VNum 1)] (new "ref" {| now := 0; rnd := "s" |})) in
  run [EvAbort; EvEmit (VNum 5); EvSubscribe 2] (close s) = (close s, []) /\
  _status (close s) = closed.
Proof.
  intros s.
  assert (Hr : reachable s).
  { apply run_reachable, reach_new. }
  destruct (stream_end_is_final s closed [EvAbort; EvEmit (VNum 5); EvSubscribe 2] Hr
              ltac:(discriminate)) as (H1 & _ & _ & _ & H5).
  split; [exact H5 | apply H1; reflexivity].
Defined.

(** A subscriber that makes no call is logged and leaves the Stream as
    it is. *)
Lemma invoke_quiet fuel beh fn v s log :
  beh fn v = [] -> invoke (S fuel) beh fn v s log = Some (s, log ++ [(fn, v)]).
Proof. intros H. simpl. now rewrite H. Qed.

(** A stretch of subscribers that make no call is walked in order. *)
Lemma walk_quiet fuel beh v s (seg : JsSet.t) :
  (forall fn, Some fn ∈ seg -> beh fn v = []) ->
  forall n idx log,
  (forall k e, seg !! k = Some e -> _subscribers s !! (idx + k) = Some e) ->
  walk (invoke (S fuel) beh) (length seg + n) v idx s log =
  walk (invoke (S fuel) beh) n v (idx + length seg) s
    (log ++ map (fun fn => (fn, v)) (JsSet.elements seg)).
Proof.
  induction seg as [|e seg IH]; intros Hq n idx log Hseg.
  - simpl. now rewrite Nat.add_0_r, app_nil_r.
  - pose proof (Hseg 0 e eq_refl) as H0. rewrite Nat.add_0_r in H0.
    assert (Hseg' : forall k e', seg !! k = Some e' ->
                      _subscribers s !! (S idx + k) = Some e').
    { intros k e' Hk. specialize (Hseg (S k) e' Hk).
      now replace (S idx + k) with (idx + S k) by lia. }
    assert (Hq' : forall fn, Some fn ∈ seg -> beh fn v = []).
    { intros fn Hfn. apply Hq. apply elem_of_cons. now right. }
    change (length (e :: seg) + n) with (S (length seg + n)).
    cbn [walk]. rewrite H0.
    replace (idx + length (e :: seg)) with (S idx + length seg) by (simpl; lia).
    destruct e as [fn|].
    + rewrite invoke_quiet by (apply Hq; apply elem_of_cons; now left).
      rewrite IH by auto. f_equal.
      unfold JsSet.elements. simpl. now rewrite <- app_assoc.
    + now rewrite IH by auto.
Qed.

Lemma walk_quiet_from fuel beh v s (seg : JsSet.t) m n idx log :
  m = length seg + n ->
  (forall fn, Some fn ∈ seg -> beh fn v = []) ->
  (forall k e, seg !! k = Some e -> _subscribers s !! (idx + k) = Some e) ->
  walk (invoke (S fuel) beh) m v idx s log =
  walk (invoke (S fuel) beh) n v (idx + length seg) s
    (log ++ map (fun fn => (fn, v)) (JsSet.elements seg)).
Proof. intros -> Hq Hseg. now apply walk_quiet. Qed.

(** X13. An emission on an open Stream whose subscribers do not call back
    into the Stream while they are called reaches every current
    subscriber exactly once, in subscription order, a function subscribed
    twice being one subscriber, and the value is appended to the buffer:
    the walk over the live Set then gives what [emit] gives. *)
Theorem emission_reaches_each_subscriber_once
  (beh : Behaviour) (s : t) (v : JsValue) (fuel : nat) :
  reachable s ->
  _status s = open ->
  (forall fn, fn ∈ JsSet.elements (_subscribers s) -> beh fn v = []) ->
  let subs := JsSet.elements (_subscribers s) in
  emit_with (S (length (_subscribers s)) + fuel) beh v s =
    Some (fst (emit v s), map (fun fn => (fn, v)) subs) /\
  snd (emit v s) = map (fun fn => (fn, v)) subs /\
  NoDup subs /\
  (forall fn, fn ∈ subs <-> JsSet.has fn (_subscribers s) = true) /\
  _buffer (fst (emit v s)) = _buffer s ++ [v].
Proof.
  intros Hr Ho Hq. pose proof (reachable_stream_wf _ Hr) as [W1 W2]. simpl.
  split; [| unfold emit; rewrite Ho; simpl; repeat split; auto;
            intros H; now apply JsSetFacts.has_elements].
  unfold emit_with, call_with. rewrite Ho.
  assert (Hsub : _subscribers (fst (emit v s)) = _subscribers s)
    by (unfold emit; now rewrite Ho).
  change (S (length (_subscribers s)) + fuel) with (S (length (_subscribers s) + fuel)).
  rewrite (walk_quiet_from _ beh v (fst (emit v s)) (_subscribers s)
             (S (length (_subscribers s) + fuel)) (S fuel) 0 []).
  - simpl. rewrite Hsub. unfold JsSet.t. now rewrite lookup_ge_None_2 by lia.
  - lia.
  - intros fn Hfn. apply Hq. unfold JsSet.elements.
    apply list_elem_of_omap. exists (Some fn). auto.
  - intros k e Hk. simpl. now rewrite Hsub.
Qed.

Lemma emission_reaches_each_subscriber_once_witness :
  let s := fst (run [EvSubscribe 1; EvSubscribe 2; EvSubscribe 1; EvUnsubscribe 2; EvSubscribe 2]
                  (new "ref" {| now := 0; rnd := "s" |})) in
  emit_with 4 (fun _ _ => []) (VNum 9) s =
    Some (fst (emit (VNum 9) s), [(1, VNum 9); (2, VNum 9)]).
Proof.
  intros s.
  assert (Hr : reachable s).
  { apply run_reachable, reach_new. }
  destruct (emission_reaches_each_subscriber_once (fun _ _ => []) s (VNum 9) 0 Hr eq_refl)
    as (H & _).
  - intros fn _. reflexivity.
  - exact H.
Defined.

(** *** Subscribers that call back, on examples *)

(** A subscriber that subscribes another one while it is called: the new
    one gets the value from the replay of [subscribe], the buffer holding
    it already, and again when the walk of [emit] reaches it. *)
Example subscriber_added_during_emit :
  let s := fst (subscribe 1 (new "ref" {| now := 0; rnd := "s" |})) in
  snd <$> emit_with 5 first_subscribes (VNum 9) s =
    Some [(1, VNum 9); (2, VNum 9); (2, VNum 9)] /\
  snd (emit (VNum 9) s) = [(1, VNum 9)].
Proof. split; reflexivity. Qed.

(** A subscriber that aborts the Stream while it is called: the Set is
    cleared and the subscribers after it are not called. *)
Example abort_during_emit :
  let s := fst (subscribe 2 (fst (subscribe 1 (new "ref" {| now := 0; rnd := "s" |})))) in
  snd <$> emit_with 5 first_aborts (VNum 9) s = Some [(1, VNum 9)] /\
  (_status ∘ fst) <$> emit_with 5 first_aborts (VNum 9) s = Some aborted /\
  snd (emit (VNum 9) s) = [(1, VNum 9); (2, VNum 9)].
Proof. repeat split. Qed.

End StreamProps.

(** ** Properties of the object stores *)

Lemma length_alter_each {A : Type} (f : A -> A) addrs (store : list A) :
  length (alter_each f addrs store) = length store.
Proof.
  unfold alter_each. revert store.
  induction addrs as [|a addrs IH]; intros store; simpl; auto.
  rewrite IH. apply length_alter.
Qed.

Lemma lookup_alter_each_notin {A : Type} (f : A -> A) addrs (store : list A) a :
  a ∉ addrs -> alter_each f addrs store !! a = store !! a.
Proof.
  unfold alter_each. revert store.
  induction addrs as [|b addrs IH]; intros store Hni; simpl; auto.
  apply not_elem_of_cons in Hni as [Hne Hni].
  rewrite IH by auto. apply list_lookup_alter_ne. congruence.
Qed.

Lemma lookup_alter_each_in {A : Type} (f : A -> A) addrs (store : list A) a :
  (forall x, f (f x) = f x) ->
  a ∈ addrs -> alter_each f addrs store !! a = f <$> store !! a.
Proof.
  intros Hidem. unfold alter_each. revert store.
  induction addrs as [|b addrs IH]; intros store Hin; simpl.
  - now apply elem_of_nil in Hin.
  - destruct (decide (a ∈ addrs)) as [Hin'|Hni].
    + rewrite IH by auto. destruct (decide (b = a)) as [->|Hne].
      * rewrite list_lookup_alter_eq. destruct (store !! a); simpl; congruence.
      * now rewrite list_lookup_alter_ne.
    + apply elem_of_cons in Hin as [->|Hin]; [|contradiction].
      fold (alter_each f addrs (alter f b store)).
      rewrite lookup_alter_each_notin by auto.
      apply list_lookup_alter_eq.
Qed.


Lemma alter_each_pres {A : Type} (P : A -> Prop) (f : A -> A) addrs (store : list A) :
  (forall x, P x -> P (f x)) ->
  (forall a x, store !! a = Some x -> P x) ->
  forall a x, alter_each f addrs store !! a = Some x -> P x.
Proof.
  intros Hf. unfold alter_each. revert store.
  induction addrs as [|b addrs IH]; intros store Hst a x; simpl; [apply Hst|].
  apply IH. intros c y Hl. destruct (decide (b = c)) as [->|Hne].
  - rewrite list_lookup_alter_eq in Hl.
    destruct (store !! c) as [z|] eqn:E; [| discriminate].
    injection Hl as <-. eauto.
  - rewrite list_lookup_alter_ne in Hl by auto. eauto.
Qed.

(** ** Properties of [Task] *)
Module TaskProps.
Import Task.

(** Inverts the guards of [step]. *)
Ltac guard_inv :=
  repeat match goal with
  | H : guard ?b _ = Some _ |- _ =>
      unfold guard in H; destruct b eqn:?; [injection H as <- | discriminate H]
  | H : match ?x with Some _ => _ | None => None end = Some _ |- _ =>
      destruct x eqn:?; [| discriminate H]
  | H : Some _ = Some _ |- _ => injection H as <-
  end.

Lemma unit_event_core ev tk tk' :
  is_unit_event ev = true -> step ev tk = Some tk' -> core tk' = core tk.
Proof.
  intros Hu Hs. destruct ev; try discriminate Hu; simpl in Hs; guard_inv;
    try reflexivity;
    unfold _spawnWorker, _addHandler, _createStream;
    destruct (negb (isActive tk)); reflexivity.
Qed.

Lemma new_wf scopeId pool r e : wf (new scopeId pool r e).
Proof. split; simpl; try tauto; try (split; discriminate); congruence. Qed.

(** Case analysis on the fields [run] and [abort] read. *)
Ltac wf_absurd :=
  match goal with
  | W : true = true <-> _ |- _ =>
      destruct W as [W _]; specialize (W eq_refl); discriminate W
  | W : false = true <-> ?s = ?s |- _ =>
      destruct W as [_ W]; specialize (W eq_refl); discriminate W
  | W : _ -> ?a = running \/ ?a = aborted |- _ =>
      destruct W as [W|W]; [congruence | discriminate W | discriminate W]
  | W : ?x <> None -> _ \/ _ |- _ =>
      destruct W as [W|W]; [congruence | discriminate W | discriminate W]
  end.

Ltac core_cases tk :=
  destruct tk as [rf sc sa wp st oc er rs wm hm sm ws hs ss aw];
  unfold run_begin, run_resume, run_abort_guard, run_catch, abort, isActive,
    with_awaiting, with_run in *;
  simpl in *;
  destruct st, sa; simpl in *; try wf_absurd.

Lemma step_wf ev tk tk' : wf tk -> step ev tk = Some tk' -> wf tk'.
Proof.
  intros Hwf Hs.
  destruct (is_unit_event ev) eqn:Hu.
  - pose proof (unit_event_core _ _ _ Hu Hs) as Hc. unfold core in Hc.
    injection Hc as E1 E2 E3 E4 E5 E6. destruct Hwf.
    split; rewrite ?E1, ?E2, ?E3, ?E4, ?E5, ?E6; assumption.
  - destruct Hwf as [W1 W2 W3 W4 W5].
    destruct ev; try discriminate Hu; simpl in Hs.
    + injection Hs as <-. now split.
    + injection Hs as <-. core_cases tk; split; simpl; auto;
        try (split; congruence); try (intros _; auto; congruence).
    + guard_inv. destruct s; core_cases tk; split; simpl; auto;
        try (split; congruence); try congruence;
        try (intros _; auto; congruence).
    + unfold ctx_emit in Hs. destruct (awaiting tk) as [[d [b|]]|] eqn:Ea;
        try discriminate Hs.
      destruct (StreamBuffer.push v b). simpl in Hs. injection Hs as <-.
      split; simpl; auto.
    + injection Hs as <-. core_cases tk; split; simpl; auto;
        try (split; congruence); try (intros _; auto; congruence).
Qed.

Lemma reachable_wf tk : reachable tk -> wf tk.
Proof.
  induction 1 as [| tk ev tk' _ IH Hs]; [apply new_wf | eapply step_wf; eauto].
Qed.

Lemma steps_reachable tk tk' : reachable tk -> steps tk tk' -> reachable tk'.
Proof.
  intros Hr Hs. induction Hs as [| tk ev tk' tk'' Hst _ IH]; auto.
  apply IH. eapply reach_step; eauto.
Qed.

(** Every move of the status is one of [may_follow]. *)
Lemma step_may_follow ev tk tk' :
  wf tk -> step ev tk = Some tk' -> may_follow (_status tk) (_status tk') = true.
Proof.
  intros Hwf Hs.
  assert (Hrefl : forall s, may_follow s s = true) by (now intros []).
  destruct (is_unit_event ev) eqn:Hu.
  - pose proof (unit_event_core _ _ _ Hu Hs) as Hc. unfold core in Hc.
    injection Hc as E1 _ _ _ _ _. rewrite E1. apply Hrefl.
  - destruct Hwf as [W1 W2 W3 W4 W5].
    destruct ev; try discriminate Hu; simpl in Hs.
    + injection Hs as <-. apply Hrefl.
    + injection Hs as <-. core_cases tk; reflexivity.
    + guard_inv. destruct s; core_cases tk; reflexivity.
    + unfold ctx_emit in Hs. destruct (awaiting tk) as [[d [b|]]|] eqn:Ea;
        try discriminate Hs.
      destruct (StreamBuffer.push v b). simpl in Hs. injection Hs as <-.
      apply Hrefl.
    + injection Hs as <-. core_cases tk; reflexivity.
Qed.

(** Once terminal, the status and what was captured with it stay. *)
Lemma step_terminal_stable ev tk tk' :
  wf tk -> is_terminal (_status tk) = true -> step ev tk = Some tk' ->
  _status tk' = _status tk /\ _outcome tk' = _outcome tk /\
  _error tk' = _error tk /\ _result tk' = _result tk /\
  signal_aborted tk' = signal_aborted tk.
Proof.
  intros Hwf Ht Hs.
  destruct (is_unit_event ev) eqn:Hu.
  - pose proof (unit_event_core _ _ _ Hu Hs) as Hc. unfold core in Hc.
    injection Hc as E1 E2 E3 E4 E5 _. auto.
  - destruct Hwf as [W1 W2 W3 W4 W5].
    destruct ev; try discriminate Hu; simpl in Hs.
    + injection Hs as <-. auto.
    + injection Hs as <-. core_cases tk; try discriminate Ht; auto.
    + guard_inv. destruct s; core_cases tk; try discriminate Ht; auto.
    + unfold ctx_emit in Hs. destruct (awaiting tk) as [[d [b|]]|] eqn:Ea;
        try discriminate Hs.
      destruct (StreamBuffer.push v b). simpl in Hs. injection Hs as <-.
      simpl. auto.
    + injection Hs as <-. core_cases tk; try discriminate Ht; auto.
Qed.

Lemma steps_terminal_stable tk tk' :
  wf tk -> is_terminal (_status tk) = true -> steps tk tk' ->
  _status tk' = _status tk /\ _outcome tk' = _outcome tk /\
  _error tk' = _error tk /\ _result tk' = _result tk /\
  signal_aborted tk' = signal_aborted tk.
Proof.
  intros Hwf Ht Hs. induction Hs as [| tk ev tk' tk'' Hst _ IH]; auto.
  destruct (step_terminal_stable _ _ _ Hwf Ht Hst) as (E1 & E2 & E3 & E4 & E5).
  destruct IH as (F1 & F2 & F3 & F4 & F5).
  - eapply step_wf; eauto.
  - now rewrite E1.
  - repeat split; congruence.
Qed.

(** *** Outcome of [run] *)

(** When the promise [run] awaits settles, the Task is finalized by how
    the function ended and by the signal: thrown or rejected with the
    signal aborted gives [aborted], thrown or rejected with the signal not
    aborted gives [error] with the error captured, fulfilled with the
    signal not aborted gives [success] with the result stored; the three
    are exclusive, and no later event changes status, outcome, error or
    result. [d] is the branch the suspended frame of [run] recorded. *)
Lemma run_outcome_classification (tk : t) (d : Dispatch) (b : option StreamBuffer.t)
    (o : FnEnd) (s : Settlement) :
  reachable tk ->
  awaiting tk = Some {| dispatch := d; buffer := b |} ->
  promise_of d o = Some s ->
  let tk' := fst (run_resume s tk) in
  step (EvSettle s) tk = Some tk' /\
  match o, signal_aborted tk with
  | (Rejects x | ThrowsAtCall x), true =>
      _status tk' = aborted /\ _outcome tk' = Some Outcome.aborted /\
      _error tk' = None
  | (Rejects x | ThrowsAtCall x), false =>
      _status tk' = error /\ _outcome tk' = Some Outcome.error /\
      _error tk' = Some (toError x)
  | Resolves v, false =>
      _status tk' = success /\ _outcome tk' = Some Outcome.success /\
      _result tk' = Some v
  | Resolves v, true =>
      _status tk' = aborted /\ _outcome tk' = Some Outcome.aborted
  end /\
  awaiting tk' = None /\
  forall tk'', steps tk' tk'' ->
    _status tk'' = _status tk' /\ _outcome tk'' = _outcome tk' /\
    _error tk'' = _error tk' /\ _result tk'' = _result tk'.
Proof.
  intros Hr Haw Hp tk'.
  assert (Hs : step (EvSettle s) tk = Some tk') by (simpl; now rewrite Haw).
  assert (Hr' : reachable tk') by (eapply reach_step; eauto).
  pose proof (reachable_wf _ Hr) as [W1 W2 W3 W4 W5].
  pose proof (reachable_wf _ Hr') as Hwf'.
  split; [exact Hs|]. subst tk'. clear Hs.
  assert (Hcls :
    match o, signal_aborted tk with
    | (Rejects x | ThrowsAtCall x), true =>
        _status (fst (run_resume s tk)) = aborted /\
        _outcome (fst (run_resume s tk)) = Some Outcome.aborted /\
        _error (fst (run_resume s tk)) = None
    | (Rejects x | ThrowsAtCall x), false =>
        _status (fst (run_resume s tk)) = error /\
        _outcome (fst (run_resume s tk)) = Some Outcome.error /\
        _error (fst (run_resume s tk)) = Some (toError x)
    | Resolves v, false =>
        _status (fst (run_resume s tk)) = success /\
        _outcome (fst (run_resume s tk)) = Some Outcome.success /\
        _result (fst (run_resume s tk)) = Some v
    | Resolves v, true =>
        _status (fst (run_resume s tk)) = aborted /\
        _outcome (fst (run_resume s tk)) = Some Outcome.aborted
    end /\
    awaiting (fst (run_resume s tk)) = None /\
    is_terminal (_status (fst (run_resume s tk))) = true).
  { clear Hr Hr' Hwf'.
    destruct o as [v|x|x]; destruct d; try discriminate Hp;
      injection Hp as <-; try destruct x;
      core_cases tk; repeat split; auto; try congruence;
      try (apply W3; congruence). }
  destruct Hcls as (Hc & Ha & Ht).
  split; [exact Hc|]. split; [exact Ha|].
  intros tk'' Hst.
  destruct (steps_terminal_stable _ _ Hwf' Ht Hst) as (E1 & E2 & E3 & E4 & _).
  auto.
Qed.

(** The fields a run in flight keeps while neither its promise settles
    nor [abort()] is called. *)
Lemma step_keeps_running ev tk tk' :
  ends_run ev = false ->
  step ev tk = Some tk' ->
  signal_aborted tk = false /\ _status tk = running /\ _outcome tk = None /\
    _error tk = None /\ awaiting tk <> None ->
  signal_aborted tk' = false /\ _status tk' = running /\ _outcome tk' = None /\
    _error tk' = None /\ awaiting tk' <> None.
Proof.
  intros He Hs (J1 & J2 & J3 & J4 & J5).
  destruct (is_unit_event ev) eqn:Hu.
  - pose proof (unit_event_core _ _ _ Hu Hs) as Hc. unfold core in Hc.
    injection Hc as E1 E2 E3 E4 E5 E6. rewrite E1, E2, E3, E5, E6. auto.
  - destruct ev; try discriminate Hu; try discriminate He; simpl in Hs.
    + injection Hs as <-. auto.
    + injection Hs as <-. unfold run_begin. rewrite J2. simpl. auto.
    + unfold ctx_emit in Hs. destruct (awaiting tk) as [[d [b|]]|] eqn:Ea;
        try discriminate Hs.
      destruct (StreamBuffer.push v b). simpl in Hs. injection Hs as <-.
      simpl. repeat split; auto.
Qed.

(** C5 at a deferred run whose function throws at the call. [run] has
    started the Task and awaits the promise of [_runDeferred]; the throw
    leaves the timer callback and the promise never settles, so that no
    settlement is among the events that follow. As long as [abort()] is
    not called, the Task stays [running] whatever else happens: it is not
    finalized as [error], and no error is captured. The same throw in the
    direct branch and in the pool rejects the awaited promise. *)
Theorem deferred_throw_leaves_task_running (tk tk' : t) (o : TaskRunOptions)
    (x : Thrown) (evs : list Event) :
  reachable tk ->
  _status tk = pending ->
  deferred o = true ->
  Forall (may_occur Deferred (ThrowsAtCall x)) evs ->
  Forall (fun ev => ev <> EvAbort) evs ->
  exec evs (fst (run_begin o tk)) = Some tk' ->
  snd (run_begin o tk) = RunAwaiting Deferred /\
  promise_of Deferred (ThrowsAtCall x) = None /\
  promise_of Direct (ThrowsAtCall x) = Some (RejectedWith x) /\
  promise_of Pooled (ThrowsAtCall x) = Some (RejectedWith (ThrowError (toError x))) /\
  signal_aborted tk' = false /\
  _status tk' = running /\ isActive tk' = true /\
  _outcome tk' = None /\ _error tk' = None /\ awaiting tk' <> None.
Proof.
  intros Hr Hp Hd Hmay Hna Hex.
  pose proof (reachable_wf _ Hr) as [W1 W2 W3 W4 W5].
  assert (Hsa : signal_aborted tk = false).
  { destruct (signal_aborted tk) eqn:E; auto.
    destruct W1 as [W1 _]. specialize (W1 eq_refl). congruence. }
  assert (Hb : snd (run_begin o tk) = RunAwaiting Deferred /\
               signal_aborted (fst (run_begin o tk)) = false /\
               _status (fst (run_begin o tk)) = running /\
               _outcome (fst (run_begin o tk)) = None /\
               _error (fst (run_begin o tk)) = None /\
               awaiting (fst (run_begin o tk)) <> None).
  { unfold run_begin, dispatch_of. rewrite Hp. simpl. rewrite Hsa, Hd. simpl.
    rewrite W2, Hp. simpl. repeat split; auto.
    apply W3. congruence. }
  destruct Hb as (Hb1 & Hb).
  assert (Hev : forall ev, ev ∈ evs -> ends_run ev = false).
  { intros ev Hin.
    pose proof (proj1 (Forall_forall _ _) Hmay ev Hin) as H1.
    pose proof (proj1 (Forall_forall _ _) Hna ev Hin) as H2.
    destruct ev; try reflexivity; [| contradiction].
    specialize (H1 s eq_refl). discriminate H1. }
  assert (J : signal_aborted tk' = false /\ _status tk' = running /\
              _outcome tk' = None /\ _error tk' = None /\ awaiting tk' <> None).
  { clear -Hb Hev Hex. revert Hb Hev Hex. generalize (fst (run_begin o tk)) as q.
    induction evs as [|ev evs IH]; intros q Hq Hev Hex; simpl in *.
    - now injection Hex as <-.
    - destruct (step ev q) as [q1|] eqn:Hs; [| discriminate].
      apply (IH q1); auto.
      + eapply step_keeps_running; eauto. apply Hev. apply elem_of_cons. now left.
      + intros ev' Hin. apply Hev. apply elem_of_cons. now right. }
  destruct J as (J1 & J2 & J3 & J4 & J5).
  repeat split; auto. unfold isActive. now rewrite J2.
Qed.

(** *** Moves of the status *)

(** C6, as stated, fails: [abort()] on a Task that was never run takes the
    status from [pending] to [aborted] without passing through
    [running]. *)
Lemma abort_pending_skips_running :
  let tk := new "scope" false None {| now := 0; rnd := "a" |} in
  reachable tk /\
  _status tk = pending /\
  step EvAbort tk = Some (abort tk) /\
  _status (abort tk) = aborted /\
  strict_path (_status tk) (_status (abort tk)) = false.
Proof.
  simpl. repeat split. apply reach_new.
Qed.

(** C6, amended. Every event moves the status along
    [pending -> running -> (success | error | aborted)] or, by [abort()] on
    a pending Task, from [pending] to [aborted]; a terminal status is kept
    by every event, a settlement of a run still in flight included; and
    [run] on a Task that is not pending rejects and leaves the Task as it
    is, no frame being pushed for the function. *)
Theorem status_moves (tk tk' : t) (ev : Event) :
  reachable tk ->
  step ev tk = Some tk' ->
  may_follow (_status tk) (_status tk') = true /\
  (is_terminal (_status tk) = true -> _status tk' = _status tk) /\
  (_status tk <> pending ->
   forall o, run_begin o tk =
     (tk, RunRejected
            (KernelError ("Cannot run task: status is " +:+ status_name (_status tk))))).
Proof.
  intros Hr Hs. pose proof (reachable_wf _ Hr) as Hwf.
  split; [eapply step_may_follow; eauto|].
  split.
  - intros Ht. now destruct (step_terminal_stable _ _ _ Hwf Ht Hs).
  - intros Hnp o. unfold run_begin. destruct (_status tk); congruence.
Qed.

(** *** The aborted outcome *)

(** The guard of [run] met with the signal already aborted: the rejection
    is the kernel's own error as long as no error was captured before. *)
Lemma run_begin_aborted_guard (tk : t) (o : TaskRunOptions) :
  _status tk = pending -> signal_aborted tk = true -> _error tk = None ->
  _outcome (fst (run_begin o tk)) = Some Outcome.aborted /\
  snd (run_begin o tk) = RunRejected (KernelError "Task was aborted").
Proof.
  intros Hs Ha He. unfold run_begin, run_abort_guard, run_catch.
  rewrite Hs. simpl. rewrite Ha. simpl. rewrite He. auto.
Qed.

(** C10. A Task whose outcome is [aborted] has neither error nor result,
    and a continuation of [run] that leaves the Task aborted rejects with
    the kernel's own [Error('Task was aborted')], never with an error that
    user code threw. *)
Theorem aborted_has_no_error_or_result (tk : t) :
  reachable tk ->
  (_outcome tk = Some Outcome.aborted -> _error tk = None /\ _result tk = None) /\
  (forall s, awaiting tk <> None ->
     _outcome (fst (run_resume s tk)) = Some Outcome.aborted ->
     snd (run_resume s tk) = RunRejected (KernelError "Task was aborted")).
Proof.
  intros Hr. pose proof (reachable_wf _ Hr) as [W1 W2 W3 W4 W5].
  split.
  - intros Ho. rewrite W2 in Ho.
    destruct (_status tk) eqn:Es; try discriminate Ho.
    split; [apply W3 | apply W4]; congruence.
  - intros s Ha Ho. specialize (W5 Ha).
    destruct s; core_cases tk; try discriminate Ho; try reflexivity;
      destruct W5 as [W5|W5]; try discriminate W5;
      rewrite W3 by congruence; reflexivity.
Qed.

(** *** Worker failure *)

(** C8, as stated, fails: a worker whose function throws while its signal
    is not aborted ends [failed] with the error recorded, but the Task that
    spawned it goes on and, its own function returning, ends [success]. *)
Lemma worker_failure_not_surfaced :
  let e := {| now := 0; rnd := "a" |} in
  let boom := ThrowError (UserError "boom") in
  let tk0 := new "scope" false None e in
  let tk1 := fst (run_begin {| deferred := false; streaming := false |} tk0) in
  let tk2 := fst (_spawnWorker e tk1) in
  let tk3 := worker_settled 0 (Threw boom) tk2 in
  let tk4 := fst (run_resume (Fulfilled (VNum 42)) tk3) in
  snd (_spawnWorker e tk1) = inr 0 /\
  step (EvWorkerSettle 0 (Threw boom)) tk2 = Some tk3 /\
  Worker._status <$> workers tk3 !! 0 = Some Worker.failed /\
  Worker._error <$> workers tk3 !! 0 = Some (Some (UserError "boom")) /\
  _status tk3 = running /\
  step (EvSettle (Fulfilled (VNum 42))) tk3 = Some tk4 /\
  snd (run_resume (Fulfilled (VNum 42)) tk3) = RunResolved (VNum 42) /\
  _outcome tk4 = Some Outcome.success /\
  _outcome tk4 <> Some Outcome.error.
Proof.
  vm_compute. repeat split; congruence.
Qed.

(** C8, amended. A spawned worker whose function throws while the worker's
    signal is not aborted moves to [failed], records the error, and
    [start] rejects with it; [_spawnWorker] drops that rejection, so the
    owning Task keeps its status, outcome, error, result, signal and
    suspended [run]: nothing reaches the caller's promise. *)
Theorem worker_failure_stays_in_worker (tk : t) (a : nat) (w : Worker.t) (x : Thrown) :
  workers tk !! a = Some w ->
  Worker.awaiting w = true ->
  Worker.signal_aborted w = false ->
  let w' := fst (Worker.start_resume (Threw x) w) in
  let tk' := worker_settled a (Threw x) tk in
  step (EvWorkerSettle a (Threw x)) tk = Some tk' /\
  workers tk' !! a = Some w' /\
  Worker._status w' = Worker.failed /\
  Worker._error w' = Some (toError x) /\
  snd (Worker.start_resume (Threw x) w) = Worker.StartRejected (toError x) /\
  core tk' = core tk.
Proof.
  intros Hw Haw Hsig. simpl.
  rewrite Hw. unfold guard. rewrite Haw.
  repeat split.
  - unfold worker_settled. simpl. rewrite list_lookup_alter_eq, Hw. reflexivity.
  - unfold Worker.start_resume. now rewrite Hsig.
  - unfold Worker.start_resume. now rewrite Hsig.
  - unfold Worker.start_resume. now rewrite Hsig.
Qed.

(** *** What the owner of a Task relies on *)

Lemma step_identity ev tk tk' :
  step ev tk = Some tk' -> ref tk' = ref tk /\ scopeId tk' = scopeId tk.
Proof.
  intros Hs. destruct ev; simpl in Hs; guard_inv; auto;
    unfold run_begin, run_resume, run_abort_guard, run_catch, abort,
      _spawnWorker, _addHandler, _createStream, ctx_emit in *;
    repeat match goal with
    | |- context [match ?x with _ => _ end] => destruct x; simpl; auto
    | |- context [if ?x then _ else _] => destruct x; simpl; auto
    | H : context [match ?x with _ => _ end] |- _ => destruct x; simpl in H; try discriminate H
    | H : Some _ = Some _ |- _ => injection H as <-; simpl; auto
    end.
Qed.

Lemma steps_identity tk tk' :
  steps tk tk' -> ref tk' = ref tk /\ scopeId tk' = scopeId tk.
Proof.
  induction 1 as [| tk ev tk' tk'' Hst _ [IH1 IH2]]; auto.
  destruct (step_identity _ _ _ Hst) as [E1 E2]. split; congruence.
Qed.

Lemma isActive_terminal tk : isActive tk = negb (is_terminal (_status tk)).
Proof. unfold isActive. now destruct (_status tk). Qed.

Lemma steps_inactive tk tk' :
  wf tk -> isActive tk = false -> steps tk tk' -> isActive tk' = false.
Proof.
  intros Hwf Hi Hs. rewrite isActive_terminal in *.
  apply negb_false_iff in Hi.
  destruct (steps_terminal_stable _ _ Hwf Hi Hs) as (E & _).
  now rewrite E, Hi.
Qed.

Lemma abort_inactive tk : isActive (abort tk) = false.
Proof. unfold abort. destruct (isActive tk) eqn:E; simpl; auto. Qed.

Lemma abort_idem tk : abort (abort tk) = abort tk.
Proof.
  unfold abort at 1. now rewrite abort_inactive.
Qed.

Lemma abort_steps tk : steps tk (abort tk).
Proof. apply (steps_step tk EvAbort (abort tk)); [reflexivity | apply steps_refl]. Qed.

Lemma abort_scopeId tk : scopeId (abort tk) = scopeId tk.
Proof. unfold abort. now destruct (negb (isActive tk)). Qed.

Lemma steps_trans tk1 tk2 tk3 : steps tk1 tk2 -> steps tk2 tk3 -> steps tk1 tk3.
Proof.
  induction 1 as [| tk ev tk' tk'' Hst _ IH]; auto.
  intros H. eapply steps_step; eauto.
Qed.


(** *** The theorems at concrete Tasks *)

Lemma sample_running_reachable : reachable sample_running.
Proof.
  apply (reach_step (new "scope" false None sample_entropy) (EvRun sample_options));
    [apply reach_new | reflexivity].
Qed.

Lemma sample_aborted_in_flight_reachable : reachable sample_aborted_in_flight.
Proof.
  apply (reach_step sample_running EvAbort);
    [apply sample_running_reachable | reflexivity].
Qed.

Lemma run_outcome_classification_witness :
  let tk' := fst (run_resume (Fulfilled (VNum 42)) sample_running) in
  step (EvSettle (Fulfilled (VNum 42))) sample_running = Some tk' /\
  _status tk' = success /\ _outcome tk' = Some Outcome.success /\
  _result tk' = Some (VNum 42).
Proof.
  intros tk'.
  pose proof (run_outcome_classification sample_running Direct None (Resolves (VNum 42))
                (Fulfilled (VNum 42)) sample_running_reachable eq_refl eq_refl) as H.
  simpl in H. destruct H as (H1 & H2 & _).
  split; [exact H1 | exact H2].
Defined.

Lemma deferred_throw_leaves_task_running_witness :
  let o := {| deferred := true; streaming := false |} in
  let tk := new "scope" false None sample_entropy in
  let tk' := fst (_spawnWorker sample_entropy (fst (run_begin o tk))) in
  exec [EvEffect; EvSpawnWorker sample_entropy; EvRun o] (fst (run_begin o tk)) = Some tk' /\
  _status tk' = running /\ _error tk' = None.
Proof.
  intros o tk tk'.
  assert (E : exec [EvEffect; EvSpawnWorker sample_entropy; EvRun o] (fst (run_begin o tk))
              = Some tk') by reflexivity.
  assert (Hmay : Forall (may_occur Deferred (ThrowsAtCall (ThrowError (UserError "boom"))))
                   [EvEffect; EvSpawnWorker sample_entropy; EvRun o]).
  { repeat constructor; intros s Hs; discriminate Hs. }
  assert (Hna : Forall (fun ev => ev <> EvAbort)
                  [EvEffect; EvSpawnWorker sample_entropy; EvRun o]).
  { repeat constructor; discriminate. }
  destruct (deferred_throw_leaves_task_running tk tk' o (ThrowError (UserError "boom"))
              [EvEffect; EvSpawnWorker sample_entropy; EvRun o]
              (reach_new _ _ _ _) eq_refl eq_refl Hmay Hna E)
    as (_ & _ & _ & _ & _ & H1 & _ & _ & H2 & _).
  split; [exact E|]. split; [exact H1 | exact H2].
Defined.

Lemma status_moves_witness :
  reachable sample_aborted_in_flight /\
  step (EvSettle (Fulfilled (VNum 42))) sample_aborted_in_flight
    = Some (fst (run_resume (Fulfilled (VNum 42)) sample_aborted_in_flight)) /\
  _status (fst (run_resume (Fulfilled (VNum 42)) sample_aborted_in_flight)) = aborted.
Proof.
  assert (Hs : step (EvSettle (Fulfilled (VNum 42))) sample_aborted_in_flight
               = Some (fst (run_resume (Fulfilled (VNum 42)) sample_aborted_in_flight)))
    by reflexivity.
  pose proof (status_moves _ _ _ sample_aborted_in_flight_reachable Hs) as (_ & H & _).
  split; [exact sample_aborted_in_flight_reachable|]. split; [exact Hs|].
  rewrite H; reflexivity.
Defined.

Lemma aborted_has_no_error_or_result_witness :
  reachable sample_aborted_in_flight /\
  _outcome sample_aborted_in_flight = Some Outcome.aborted /\
  _error sample_aborted_in_flight = None /\
  _result sample_aborted_in_flight = None /\
  snd (run_resume (RejectedWith (ThrowError (UserError "boom"))) sample_aborted_in_flight)
    = RunRejected (KernelError "Task was aborted").
Proof.
  pose proof (aborted_has_no_error_or_result _ sample_aborted_in_flight_reachable)
    as (H1 & H2).
  split; [exact sample_aborted_in_flight_reachable|].
  split; [reflexivity|].
  destruct (H1 eq_refl) as (He & Hr).
  split; [exact He|]. split; [exact Hr|].
  apply H2; [discriminate | reflexivity].
Defined.

Lemma worker_failure_stays_in_worker_witness :
  let tk := fst (_spawnWorker sample_entropy sample_running) in
  let x := ThrowError (UserError "boom") in
  (Worker._status <$> workers (worker_settled 0 (Threw x) tk) !! 0) = Some Worker.failed /\
  core (worker_settled 0 (Threw x) tk) = core tk.
Proof.
  intros tk x.
  assert (Hw : workers tk !! 0 =
               Some (fst (Worker.start_begin (Worker.new (ref sample_running) sample_entropy))))
    by reflexivity.
  pose proof (worker_failure_stays_in_worker tk 0 _ x Hw eq_refl eq_refl)
    as (_ & H2 & H3 & _ & _ & H6).
  split; [| exact H6].
  rewrite H2. simpl. reflexivity.
Defined.

(** *** The repository's tests, replayed (task/Task.test.ts) *)

(** 'should throw if already executed' *)
Example run_twice_rejects :
  let tk := fst (run_resume (Fulfilled (VStr "first")) sample_running) in
  _status tk = success /\
  run_begin sample_options tk =
    (tk, RunRejected (KernelError "Cannot run task: status is success")).
Proof. split; reflexivity. Qed.

(** 'should transition to error on failure' and 'should store error on
    failure' *)
Example run_failure_is_error :
  let crash := ThrowError (UserError "Task crashed") in
  let tk := fst (run_resume (RejectedWith crash) sample_running) in
  snd (run_resume (RejectedWith crash) sample_running)
    = RunRejected (UserError "Task crashed") /\
  _status tk = error /\ _error tk = Some (UserError "Task crashed").
Proof. repeat split. Qed.

(** 'should throw if task is not active' *)
Example effect_after_abort_throws :
  effect (abort (new "scope" false None sample_entropy)) =
    Some (KernelError "Cannot execute effect: task is not active").
Proof. reflexivity. Qed.

(** *** Owned units *)

Lemma units_all_mono {A : Type} (p q : A -> bool) m (st : list A) :
  (forall u, p u = true -> q u = true) -> units_all p m st -> units_all q m st.
Proof.
  intros Hpq H k a Hin. destruct (H _ _ Hin) as (u & Hl & Hp). eauto.
Qed.

Lemma units_all_register {A : Type} (p : A -> bool) m (st : list A) k u :
  units_all p m st -> p u = true ->
  units_all p (JsMap.set k (length st) m) (st ++ [u]).
Proof.
  intros H Hu k' a Hin. apply JsMapFacts.elem_set in Hin as [Heq|Hin].
  - injection Heq as -> ->. exists u. split; auto.
    rewrite lookup_app_r by lia. now rewrite Nat.sub_diag.
  - destruct (H _ _ Hin) as (u' & Hl & Hp). exists u'. split; auto.
    now apply lookup_app_l_Some.
Qed.

Lemma units_all_alter {A : Type} (p : A -> bool) f a m (st : list A) :
  units_all p m st -> (forall u, p u = true -> p (f u) = true) ->
  units_all p m (alter f a st).
Proof.
  intros H Hf k b Hin. destruct (H _ _ Hin) as (u & Hl & Hp).
  destruct (decide (a = b)) as [->|Hne].
  - exists (f u). rewrite list_lookup_alter_eq, Hl. split; auto.
  - exists u. rewrite list_lookup_alter_ne by auto. auto.
Qed.

Lemma units_all_alter_each {A : Type} (q : A -> bool) f m (st : list A) :
  units_all any_unit m st -> (forall u, f (f u) = f u) -> (forall u, q (f u) = true) ->
  units_all q m (alter_each f (JsMap.values m) st).
Proof.
  intros H Hi Hq k a Hin. destruct (H _ _ Hin) as (u & Hl & _).
  exists (f u). rewrite lookup_alter_each_in; auto.
  - rewrite Hl. split; auto.
  - apply JsMapFacts.values_elem. eauto.
Qed.

Lemma terminate_idem w : Worker.terminate (Worker.terminate w) = Worker.terminate w.
Proof.
  unfold Worker.terminate, Worker.isActive. destruct w as [i r st sa er aw]. simpl.
  destruct st; reflexivity.
Qed.

Lemma terminate_inactive w : negb (Worker.isActive (Worker.terminate w)) = true.
Proof.
  unfold Worker.terminate, Worker.isActive. destruct w as [i r st sa er aw]. simpl.
  destruct st; reflexivity.
Qed.

Lemma cancel_idem h : Handler.cancel (Handler.cancel h) = Handler.cancel h.
Proof.
  unfold Handler.cancel. destruct h as [i r st fn er ca aw]. simpl.
  destruct st; reflexivity.
Qed.

Lemma cancel_stopped h : handler_stopped (Handler.cancel h) = true.
Proof.
  unfold handler_stopped, Handler.cancel. destruct h as [i r st fn er ca aw]. simpl.
  destruct st; simpl; auto using orb_true_r.
Qed.

Lemma stream_abort_idem s : Stream.abort (Stream.abort s) = Stream.abort s.
Proof.
  unfold Stream.abort, Stream.finish. destruct (Stream._status s) eqn:E; simpl; rewrite ?E; auto.
Qed.

Lemma stream_abort_ended s : stream_ended (Stream.abort s) = true.
Proof.
  unfold stream_ended, Stream.abort, Stream.finish.
  destruct (Stream._status s) eqn:E; simpl; rewrite ?E; auto.
Qed.

Lemma settle_keeps_inactive o w :
  negb (Worker.isActive w) = true ->
  negb (Worker.isActive (fst (Worker.start_resume o w))) = true.
Proof.
  unfold Worker.isActive, Worker.start_resume. destruct w as [i r st sa er aw]. simpl.
  destruct o, st, sa; simpl; auto.
Qed.

Lemma terminate_keeps_inactive w :
  negb (Worker.isActive w) = true ->
  negb (Worker.isActive (Worker.terminate w)) = true.
Proof. intros _. apply terminate_inactive. Qed.

Lemma handler_ops_keep_stopped h :
  handler_stopped h = true ->
  handler_stopped (fst (Handler.execute_begin h)) = true /\
  (forall o, handler_stopped (fst (Handler.execute_resume o h)) = true) /\
  handler_stopped (Handler.cancel h) = true.
Proof.
  intros H. split; [| split; [| apply cancel_stopped]].
  - unfold handler_stopped, Handler.execute_begin, Handler.with_status in *.
    destruct h as [i r st fn er ca aw]. simpl in *.
    destruct st, fn, ca; simpl in *; auto.
  - intros o. unfold handler_stopped, Handler.execute_resume, Handler.with_status in *.
    destruct h as [i r st fn er ca aw]. simpl in *.
    destruct o, ca; simpl in *; auto.
Qed.

Lemma stream_ops_keep_ended s :
  stream_ended s = true ->
  (forall v, stream_ended (fst (Stream.emit v s)) = true) /\
  (forall fn, stream_ended (fst (Stream.subscribe fn s)) = true) /\
  (forall fn, stream_ended (Stream.unsubscribe fn s) = true) /\
  stream_ended (Stream.abort s) = true.
Proof.
  intros H. unfold stream_ended, Stream.emit, Stream.subscribe, Stream.unsubscribe in *.
  repeat split; try intros x; try apply stream_abort_ended;
    destruct (Stream._status s) eqn:E; simpl; rewrite ?E; auto.
Qed.

Lemma new_units_wf scopeId pool r e : units_wf (new scopeId pool r e).
Proof.
  split; simpl; try discriminate;
    intros k a Hin; now apply elem_of_nil in Hin.
Qed.

(** The events that leave the units alone. *)
Lemma core_event_units ev tk tk' :
  is_unit_event ev = false -> ev <> EvAbort -> step ev tk = Some tk' ->
  _workers tk' = _workers tk /\ workers tk' = workers tk /\
  _handlers tk' = _handlers tk /\ handlers tk' = handlers tk /\
  _streams tk' = _streams tk /\ streams tk' = streams tk.
Proof.
  intros Hu Hna Hs. destruct ev; try discriminate Hu; try congruence; simpl in Hs.
  - injection Hs as <-. repeat split.
  - injection Hs as <-. unfold run_begin, run_abort_guard, run_catch.
    destruct (_status tk); simpl; try (repeat split; fail).
    destruct (signal_aborted tk); simpl; repeat split.
  - guard_inv. unfold run_resume, run_abort_guard, run_catch.
    destruct s; destruct tk as [rf sc sa wp st oc er rs wm hm sm ws hs ss aw];
      simpl; destruct sa; simpl; repeat split.
  - unfold ctx_emit in Hs. destruct (awaiting tk) as [[d [b|]]|]; try discriminate Hs.
    destruct (StreamBuffer.push v b). simpl in Hs. injection Hs as <-. simpl.
    repeat split.
Qed.

Lemma step_units_wf ev tk tk' :
  wf tk -> units_wf tk -> step ev tk = Some tk' -> units_wf tk'.
Proof.
  intros Hwf [Uw Uh Us Ua] Hs.
  destruct (is_unit_event ev) eqn:Hu.
  - (* an event on a unit: the Task's own status stays *)
    pose proof (unit_event_core _ _ _ Hu Hs) as Hc. unfold core in Hc.
    injection Hc as E1 _ _ _ _ _.
    destruct ev; try discriminate Hu; simpl in Hs; guard_inv.
    + (* spawnWorker *)
      unfold _spawnWorker in *. destruct (isActive tk) eqn:Ea; simpl in *;
        [| split; auto].
      split; simpl; auto.
      * now apply units_all_register.
      * intros Hab. unfold isActive in Ea. rewrite Hab in Ea. discriminate.
    + (* worker settles *)
      split; simpl; auto.
      * apply units_all_alter; auto.
      * intros Hab. destruct (Ua Hab) as (A1 & A2 & A3). repeat split; auto.
        apply units_all_alter; auto; intros u; apply settle_keeps_inactive.
    + (* handle.terminate *)
      split; simpl; auto.
      * apply units_all_alter; auto.
      * intros Hab. destruct (Ua Hab) as (A1 & A2 & A3). repeat split; auto.
        apply units_all_alter; auto; intros u; apply terminate_keeps_inactive.
    + (* addHandler *)
      unfold _addHandler in *. destruct (isActive tk) eqn:Ea; simpl in *;
        [| split; auto].
      split; simpl; auto.
      * now apply units_all_register.
      * intros Hab. unfold isActive in Ea. rewrite Hab in Ea. discriminate.
    + split; simpl; auto.
      * apply units_all_alter; auto.
      * intros Hab. destruct (Ua Hab) as (A1 & A2 & A3). repeat split; auto.
        apply units_all_alter; auto; intros u Hu';
          now destruct (handler_ops_keep_stopped u Hu').
    + split; simpl; auto.
      * apply units_all_alter; auto.
      * intros Hab. destruct (Ua Hab) as (A1 & A2 & A3). repeat split; auto.
        apply units_all_alter; auto; intros u Hu';
          destruct (handler_ops_keep_stopped u Hu') as (_ & H & _); apply H.
    + split; simpl; auto.
      * apply units_all_alter; auto.
      * intros Hab. destruct (Ua Hab) as (A1 & A2 & A3). repeat split; auto.
        apply units_all_alter; auto; intros u Hu'; apply cancel_stopped.
    + (* createStream *)
      unfold _createStream in *. destruct (isActive tk) eqn:Ea; simpl in *;
        [| split; auto].
      split; simpl; auto.
      * now apply units_all_register.
      * intros Hab. unfold isActive in Ea. rewrite Hab in Ea. discriminate.
    + split; simpl; auto.
      * apply units_all_alter; auto.
      * intros Hab. destruct (Ua Hab) as (A1 & A2 & A3). repeat split; auto.
        apply units_all_alter; auto; intros u Hu';
          destruct (stream_ops_keep_ended u Hu') as (H & _); apply H.
    + split; simpl; auto.
      * apply units_all_alter; auto.
      * intros Hab. destruct (Ua Hab) as (A1 & A2 & A3). repeat split; auto.
        apply units_all_alter; auto; intros u Hu';
          destruct (stream_ops_keep_ended u Hu') as (_ & H & _); apply H.
    + split; simpl; auto.
      * apply units_all_alter; auto.
      * intros Hab. destruct (Ua Hab) as (A1 & A2 & A3). repeat split; auto.
        apply units_all_alter; auto; intros u Hu';
          destruct (stream_ops_keep_ended u Hu') as (_ & _ & H & _); apply H.
    + split; simpl; auto.
      * apply units_all_alter; auto.
      * intros Hab. destruct (Ua Hab) as (A1 & A2 & A3). repeat split; auto.
        apply units_all_alter; auto; intros u Hu'; apply stream_abort_ended.
  - assert (Hd : ev = EvAbort \/ ev <> EvAbort)
      by (destruct ev; ((now left) || (right; discriminate))).
    destruct Hd as [->|Hna].
    + simpl in Hs. injection Hs as <-. unfold abort.
      destruct (isActive tk) eqn:Ea; simpl; [| split; auto].
      split; simpl.
      * apply units_all_alter_each; auto using terminate_idem.
      * apply units_all_alter_each; auto using cancel_idem.
      * apply units_all_alter_each; auto using stream_abort_idem.
      * intros _. repeat split.
        -- apply units_all_alter_each; auto using terminate_idem, terminate_inactive.
        -- apply units_all_alter_each; auto using cancel_idem, cancel_stopped.
        -- apply units_all_alter_each; auto using stream_abort_idem, stream_abort_ended.
    + destruct (core_event_units _ _ _ Hu Hna Hs) as (E1 & E2 & E3 & E4 & E5 & E6).
      split; rewrite ?E1, ?E2, ?E3, ?E4, ?E5, ?E6; auto.
      intros Hab. apply Ua.
      (* the Task was aborted before: these events abort only on a raised signal *)
      destruct Hwf as [W1 W2 W3 W4 W5].
      destruct ev; try discriminate Hu; try congruence; simpl in Hs.
      * now injection Hs as <-.
      * injection Hs as <-. revert Hab. core_cases tk; congruence.
      * guard_inv. revert Hab. destruct s; core_cases tk; congruence.
      * unfold ctx_emit in Hs. destruct (awaiting tk) as [[d [b|]]|]; try discriminate Hs.
        destruct (StreamBuffer.push v b). simpl in Hs. injection Hs as <-. exact Hab.
Qed.

Lemma reachable_units_wf tk : reachable tk -> units_wf tk.
Proof.
  induction 1 as [| tk ev tk' Hr IH Hs]; [apply new_units_wf|].
  eapply step_units_wf; eauto. now apply reachable_wf.
Qed.

(** X14. [abort()] stops the units of a Task: when a Task's status is
    [aborted], every Worker in its map is terminated or failed and every
    Stream in its map is closed or aborted. Every Handler in its map is
    cancelled, completed or failed, or its function is still running with
    the cancellation recorded: its status is then still [running], and
    whichever way the function ends, the Handler ends cancelled and
    [execute] resolves. This holds in every state the Task can reach, so
    also after every later call on the Task or on a handle. *)
Theorem aborted_task_stops_its_units (tk : t) :
  reachable tk ->
  _status tk = aborted ->
  (forall k a, (k, a) ∈ _workers tk ->
     exists w, workers tk !! a = Some w /\
       (Worker._status w = Worker.terminated \/ Worker._status w = Worker.failed)) /\
  (forall k a, (k, a) ∈ _handlers tk ->
     exists h, handlers tk !! a = Some h /\
       (Handler._status h = Handler.cancelled \/
        Handler._status h = Handler.completed \/
        Handler._status h = Handler.failed \/
        (Handler._status h = Handler.running /\ Handler._cancelled h = true /\
         forall o, Handler._status (fst (Handler.execute_resume o h)) = Handler.cancelled /\
                   snd (Handler.execute_resume o h) = None))) /\
  (forall k a, (k, a) ∈ _streams tk ->
     exists s, streams tk !! a = Some s /\
       (Stream._status s = Stream.closed \/ Stream._status s = Stream.aborted)).
Proof.
  intros Hr Hab.
  destruct (uwf_aborted _ (reachable_units_wf _ Hr) Hab) as (Hw & Hh & Hs).
  split; [| split].
  - intros k a Hin. destruct (Hw k a Hin) as (w & Hl & Hp). exists w. split; auto.
    unfold Worker.isActive in Hp. destruct (Worker._status w); try discriminate Hp; auto.
  - intros k a Hin. destruct (Hh k a Hin) as (h & Hl & Hp). exists h. split; auto.
    unfold handler_stopped in Hp.
    destruct (Handler._status h) eqn:Es; try discriminate Hp; auto.
    right. right. right. repeat split; auto;
      unfold Handler.execute_resume; destruct o; rewrite Hp; reflexivity.
  - intros k a Hin. destruct (Hs k a Hin) as (s & Hl & Hp). exists s. split; auto.
    unfold stream_ended in Hp. destruct (Stream._status s); try discriminate Hp; auto.
Qed.

Lemma sample_with_units_reachable : reachable sample_with_units.
Proof.
  apply (reach_step _ (EvCreateStream sample_entropy) _
           (reach_step _ (EvAddHandler sample_entropy) _
              (reach_step _ (EvSpawnWorker sample_entropy) _
                 sample_running_reachable eq_refl) eq_refl) eq_refl).
Qed.

Lemma aborted_task_stops_its_units_witness :
  let tk := abort (handler_execute 0 sample_with_units) in
  Worker._status <$> workers tk !! 0 = Some Worker.terminated /\
  Handler._status <$> handlers tk !! 0 = Some Handler.running /\
  Stream._status <$> streams tk !! 0 = Some Stream.aborted /\
  exists h, handlers tk !! 0 = Some h /\
    forall o, Handler._status (fst (Handler.execute_resume o h)) = Handler.cancelled.
Proof.
  intros tk.
  assert (Hr : reachable tk).
  { apply (reach_step (handler_execute 0 sample_with_units) EvAbort); [| reflexivity].
    apply (reach_step sample_with_units (EvHandlerExecute 0));
      [apply sample_with_units_reachable | reflexivity]. }
  destruct (aborted_task_stops_its_units tk Hr eq_refl) as (_ & H & _).
  destruct (H "handler_0_a" 0) as (h & Hl & Hc).
  { apply list_elem_of_singleton. reflexivity. }
  repeat split; auto. exists h. split; [exact Hl|].
  assert (Hrun : Handler._status h = Handler.running).
  { vm_compute in Hl. injection Hl as <-. reflexivity. }
  destruct Hc as [Hc|[Hc|[Hc|(_ & _ & Hc)]]]; try congruence.
  intros o. apply Hc.
Defined.

Lemma Forall_alter_each {A : Type} (P : A -> Prop) f addrs (st : list A) :
  (forall u, P u -> P (f u)) -> Forall P st -> Forall P (alter_each f addrs st).
Proof.
  intros Hf. unfold alter_each. revert st.
  induction addrs as [|a addrs IH]; intros st H; simpl; auto.
  apply IH. apply Forall_alter; auto.
Qed.

Lemma worker_ops_taskRef w :
  (forall o, Worker.taskRef (fst (Worker.start_resume o w)) = Worker.taskRef w) /\
  Worker.taskRef (Worker.terminate w) = Worker.taskRef w /\
  Worker.taskRef (fst (Worker.start_begin w)) = Worker.taskRef w.
Proof.
  unfold Worker.start_resume, Worker.terminate, Worker.start_begin, Worker.isActive.
  destruct w as [i r st sa er aw]. simpl.
  repeat split; try intros [v|x]; destruct st, sa; reflexivity.
Qed.

Lemma handler_ops_taskRef h :
  (forall o, Handler.taskRef (fst (Handler.execute_resume o h)) = Handler.taskRef h) /\
  Handler.taskRef (fst (Handler.execute_begin h)) = Handler.taskRef h /\
  Handler.taskRef (Handler.cancel h) = Handler.taskRef h /\
  Handler.taskRef (fst (Handler.setFunction h)) = Handler.taskRef h.
Proof.
  unfold Handler.execute_resume, Handler.execute_begin, Handler.cancel,
    Handler.setFunction, Handler.with_status.
  destruct h as [i r st fn er ca aw]. simpl.
  repeat split; try intros [v|x]; destruct st, fn, ca; reflexivity.
Qed.

Lemma stream_ops_taskRef s :
  (forall v, Stream.taskRef (fst (Stream.emit v s)) = Stream.taskRef s) /\
  (forall fn, Stream.taskRef (fst (Stream.subscribe fn s)) = Stream.taskRef s) /\
  (forall fn, Stream.taskRef (Stream.unsubscribe fn s) = Stream.taskRef s) /\
  Stream.taskRef (Stream.abort s) = Stream.taskRef s.
Proof.
  unfold Stream.emit, Stream.subscribe, Stream.unsubscribe, Stream.abort, Stream.finish.
  repeat split; try intros x; destruct (Stream._status s); reflexivity.
Qed.

Lemma step_owns_units ev tk tk' : owns_units tk -> step ev tk = Some tk' -> owns_units tk'.
Proof.
  intros (Ow & Oh & Os) Hs. unfold owns_units.
  destruct (step_identity _ _ _ Hs) as [-> _].
  destruct (is_unit_event ev) eqn:Hu.
  - destruct ev; try discriminate Hu; simpl in Hs; guard_inv;
      unfold _spawnWorker, _addHandler, _createStream in *;
      try (destruct (isActive tk); simpl; [| now auto]);
      simpl; repeat split; auto;
      try (apply Forall_app; split; auto; apply Forall_singleton; reflexivity);
      apply Forall_alter; auto; intros u _ <-;
      first [apply (worker_ops_taskRef u) | apply (handler_ops_taskRef u)
            | apply (stream_ops_taskRef u)].
  - assert (Hd : ev = EvAbort \/ ev <> EvAbort)
      by (destruct ev; ((now left) || (right; discriminate))).
    destruct Hd as [->|Hna].
    + simpl in Hs. injection Hs as <-. unfold abort.
      destruct (isActive tk); simpl; auto.
      repeat split; apply Forall_alter_each; auto; intros u <-.
      * apply (worker_ops_taskRef u).
      * apply (handler_ops_taskRef u).
      * apply (stream_ops_taskRef u).
    + destruct (core_event_units _ _ _ Hu Hna Hs) as (_ & E2 & _ & E4 & _ & E6).
      now rewrite E2, E4, E6.
Qed.

(** X15. Every Worker, Handler and Stream a Task has constructed carries
    the Task's ref, in every state the Task can reach. *)
Theorem units_carry_task_ref (tk : t) :
  reachable tk -> owns_units tk.
Proof.
  induction 1 as [| tk ev tk' _ IH Hs]; [| eapply step_owns_units; eauto].
  repeat split; apply Forall_nil_2.
Qed.

Lemma units_carry_task_ref_witness :
  Worker.taskRef <$> workers sample_with_units !! 0 = Some "ref_0_a" /\
  ref sample_with_units = "ref_0_a".
Proof.
  destruct (units_carry_task_ref _ sample_with_units_reachable) as (H & _).
  split; [| reflexivity].
  destruct (workers sample_with_units !! 0) as [w|] eqn:E; [| discriminate E].
  simpl. f_equal. exact (Forall_lookup_1 _ _ _ _ H E).
Defined.

(** *** After the end *)

(** X16. A Task that has settled or was aborted refuses everything, for
    good: in every later state, [effect], [run], [spawnWorker],
    [addHandler] and [createStream] fail and leave the Task as it is. *)
Theorem settled_task_refuses_everything (tk tk' : t) (o : TaskRunOptions) (e : Entropy) :
  reachable tk ->
  isActive tk = false ->
  steps tk tk' ->
  effect tk' = Some (KernelError "Cannot execute effect: task is not active") /\
  run_begin o tk' =
    (tk', RunRejected
            (KernelError ("Cannot run task: status is " +:+ status_name (_status tk)))) /\
  _spawnWorker e tk' =
    (tk', inl (KernelError "Cannot spawn worker: task is not active")) /\
  _addHandler e tk' =
    (tk', inl (KernelError "Cannot add handler: task is not active")) /\
  _createStream e tk' =
    (tk', inl (KernelError "Cannot create stream: task is not active")).
Proof.
  intros Hr Hi Hst. pose proof (reachable_wf _ Hr) as Hwf.
  pose proof (steps_inactive _ _ Hwf Hi Hst) as Hi'.
  assert (Hs : _status tk' = _status tk).
  { rewrite isActive_terminal in Hi. apply negb_false_iff in Hi.
    now destruct (steps_terminal_stable _ _ Hwf Hi Hst). }
  unfold effect, _spawnWorker, _addHandler, _createStream, run_begin.
  rewrite Hi'. simpl. repeat split.
  rewrite Hs. unfold isActive in Hi. destruct (_status tk); try discriminate Hi; reflexivity.
Qed.

Lemma settled_task_refuses_everything_witness :
  let tk := fst (run_resume (Fulfilled (VNum 1)) sample_running) in
  effect (abort tk) = Some (KernelError "Cannot execute effect: task is not active") /\
  snd (run_begin sample_options (abort tk)) =
    RunRejected (KernelError "Cannot run task: status is success").
Proof.
  intros tk.
  assert (Hr : reachable tk).
  { apply (reach_step sample_running (EvSettle (Fulfilled (VNum 1))));
      [apply sample_running_reachable | reflexivity]. }
  destruct (settled_task_refuses_everything tk (abort tk) sample_options sample_entropy
              Hr eq_refl (abort_steps tk)) as (H1 & H2 & _).
  split; [exact H1 | now rewrite H2].
Defined.

Lemma step_task_not_pending ev tk tk' :
  _status tk <> pending -> step ev tk = Some tk' -> _status tk' <> pending.
Proof.
  intros Hp Hs.
  destruct (is_unit_event ev) eqn:Hu.
  - pose proof (unit_event_core _ _ _ Hu Hs) as Hc. unfold core in Hc.
    injection Hc as E1 _ _ _ _ _. congruence.
  - destruct ev; try discriminate Hu; simpl in Hs.
    + now injection Hs as <-.
    + injection Hs as <-. unfold run_begin, run_abort_guard.
      destruct (_status tk) eqn:E; simpl; congruence.
    + guard_inv. unfold run_resume, run_abort_guard, run_catch.
      destruct tk; simpl in *.
      destruct s; destruct signal_aborted0; simpl; intro; discriminate.
    + unfold ctx_emit in Hs. destruct (awaiting tk) as [[d [b|]]|]; try discriminate Hs.
      destruct (StreamBuffer.push v b). simpl in Hs. now injection Hs as <-.
    + injection Hs as <-. unfold abort. destruct (negb (isActive tk)); simpl; congruence.
Qed.

Lemma not_pending_never_started evs tk :
  _status tk <> pending -> starts_of_fn evs tk = 0.
Proof.
  revert tk. induction evs as [|ev evs IH]; intros tk Hp; simpl; auto.
  destruct (step ev tk) as [tk'|] eqn:Hs; [| now apply IH].
  rewrite (IH tk') by (eapply step_task_not_pending; eauto).
  destruct ev; simpl; auto.
  unfold run_begin. destruct (_status tk); try congruence; reflexivity.
Qed.

(** X17. A Task runs at most once: along any run of calls, settlements
    and handle operations, from any state, the Task's function is started
    at most one time. *)
Theorem task_function_started_at_most_once (tk : t) (evs : list Event) :
  starts_of_fn evs tk <= 1.
Proof.
  revert tk. induction evs as [|ev evs IH]; intros tk; simpl; [lia|].
  destruct (step ev tk) as [tk'|] eqn:Hs; [| apply IH].
  destruct (starts_fn ev tk) eqn:Est; [| apply IH].
  rewrite not_pending_never_started; [lia|].
  destruct ev; try discriminate Est. simpl in *. injection Hs as <-.
  unfold run_begin, run_abort_guard, run_catch in *.
  destruct (_status tk); simpl in *; try discriminate Est.
  destruct (signal_aborted tk); simpl in *; [discriminate Est | discriminate].
Qed.

Lemma size_set_ge {V : Type} k (v : V) m : JsMap.size m <= JsMap.size (JsMap.set k v m).
Proof. rewrite JsMapFacts.size_set. destruct (JsMap.has k m); lia. Qed.

Lemma step_counts ev tk tk' :
  step ev tk = Some tk' ->
  workerCount tk <= workerCount tk' /\
  handlerCount tk <= handlerCount tk' /\
  streamCount tk <= streamCount tk'.
Proof.
  intros Hs. unfold workerCount, handlerCount, streamCount.
  destruct (is_unit_event ev) eqn:Hu.
  - destruct ev; try discriminate Hu; simpl in Hs; guard_inv;
      unfold _spawnWorker, _addHandler, _createStream in *;
      try (destruct (isActive tk); simpl; [| now auto]);
      simpl; repeat split; auto using size_set_ge.
  - assert (Hd : ev = EvAbort \/ ev <> EvAbort)
      by (destruct ev; ((now left) || (right; discriminate))).
    destruct Hd as [->|Hna].
    + simpl in Hs. injection Hs as <-. unfold abort.
      destruct (isActive tk); simpl; auto.
    + destruct (core_event_units _ _ _ Hu Hna Hs) as (E1 & _ & E3 & _ & E5 & _).
      now rewrite E1, E3, E5.
Qed.

(** X18. The unit counts of a Task never go down: [workerCount],
    [handlerCount] and [streamCount] count the units ever registered, a
    unit that has terminated, finished or been aborted still counts, and
    [abort()] leaves the three counts as they are. *)
Theorem unit_counts_never_decrease (tk tk' : t) :
  steps tk tk' ->
  workerCount tk <= workerCount tk' /\
  handlerCount tk <= handlerCount tk' /\
  streamCount tk <= streamCount tk' /\
  workerCount (abort tk) = workerCount tk /\
  handlerCount (abort tk) = handlerCount tk /\
  streamCount (abort tk) = streamCount tk.
Proof.
  intros Hst.
  assert (Ha : workerCount (abort tk) = workerCount tk /\
               handlerCount (abort tk) = handlerCount tk /\
               streamCount (abort tk) = streamCount tk).
  { unfold abort. destruct (negb (isActive tk)); auto. }
  destruct Ha as (A1 & A2 & A3). repeat split; auto; clear A1 A2 A3;
    induction Hst as [| tk ev tk' tk'' Hs _ IH]; auto;
    destruct (step_counts _ _ _ Hs) as (H1 & H2 & H3); lia.
Qed.

Lemma unit_counts_never_decrease_witness :
  workerCount (abort sample_with_units) = 1 /\
  1 <= workerCount (worker_terminate 0 (abort sample_with_units)).
Proof.
  assert (Hst : steps (abort sample_with_units)
                  (worker_terminate 0 (abort sample_with_units))).
  { apply (steps_step _ (EvWorkerTerminate 0) (worker_terminate 0 (abort sample_with_units)));
      [reflexivity | apply steps_refl]. }
  destruct (unit_counts_never_decrease _ _ Hst) as (H & _).
  split; [reflexivity | exact H].
Defined.

End TaskProps.

(** ** Properties of [Scope] *)
Module ScopeProps.
Import Scope.

Lemma exec_reachable evs s s' : reachable s -> exec evs s = Some s' -> reachable s'.
Proof.
  revert s. induction evs as [|ev evs IH]; simpl; intros s Hr He.
  - now injection He as <-.
  - destruct (step ev s) as [s1|] eqn:Hs; [| discriminate].
    eapply IH; [| exact He]. eapply reach_step; eauto.
Qed.

Lemma evolves_refl st : evolves st st.
Proof. split; auto. intros a tk H. exists tk. split; auto. apply Task.steps_refl. Qed.

Lemma evolves_trans st1 st2 st3 : evolves st1 st2 -> evolves st2 st3 -> evolves st1 st3.
Proof.
  intros [L1 H1] [L2 H2]. split; [congruence|].
  intros a tk3 Hl. destruct (H2 _ _ Hl) as (tk2 & Hl2 & S2).
  destruct (H1 _ _ Hl2) as (tk1 & Hl1 & S1).
  exists tk1. split; auto. eapply TaskProps.steps_trans; eauto.
Qed.

Lemma evolves_alter f a st :
  (forall tk, Task.steps tk (f tk)) -> evolves st (alter f a st).
Proof.
  intros Hf. split; [now rewrite length_alter|].
  intros b tk' Hl. destruct (decide (a = b)) as [->|Hne].
  - rewrite list_lookup_alter_eq in Hl.
    destruct (st !! b) as [tk|] eqn:E; [| discriminate].
    injection Hl as <-. eauto.
  - rewrite list_lookup_alter_ne in Hl by auto.
    exists tk'. split; auto. apply Task.steps_refl.
Qed.

Lemma evolves_alter_each f addrs st :
  (forall tk, Task.steps tk (f tk)) -> evolves st (alter_each f addrs st).
Proof.
  intros Hf. unfold alter_each. revert st.
  induction addrs as [|a addrs IH]; intros st; simpl; [apply evolves_refl|].
  eapply evolves_trans; [apply evolves_alter; exact Hf | apply IH].
Qed.

Lemma evolves_insert a tk tk' st :
  st !! a = Some tk -> Task.steps tk tk' -> evolves st (<[a := tk']> st).
Proof.
  intros Hl Hs. split; [now rewrite length_insert|].
  intros b tk2 Hl2. destruct (decide (a = b)) as [->|Hne].
  - rewrite list_lookup_insert_eq in Hl2 by (eapply lookup_lt_Some; eauto).
    injection Hl2 as <-. eauto.
  - rewrite list_lookup_insert_ne in Hl2 by auto.
    exists tk2. split; auto. apply Task.steps_refl.
Qed.

Lemma abort_in_steps sid tk : Task.steps tk (TaskTable.abort_in sid tk).
Proof.
  unfold TaskTable.abort_in.
  destruct (String.eqb (Task.scopeId tk) sid);
    [apply TaskProps.abort_steps | apply Task.steps_refl].
Qed.

Lemma abort_in_idem sid tk :
  TaskTable.abort_in sid (TaskTable.abort_in sid tk) = TaskTable.abort_in sid tk.
Proof.
  unfold TaskTable.abort_in.
  destruct (String.eqb (Task.scopeId tk) sid) eqn:E; rewrite ?E; auto.
  rewrite TaskProps.abort_scopeId, E. apply TaskProps.abort_idem.
Qed.

Lemma new_scope_wf config pool : wf (new config pool).
Proof.
  split; simpl.
  - apply NoDup_nil_2.
  - intros r a H. now apply elem_of_nil in H.
  - intros a tk H. discriminate H.
  - discriminate.
Qed.

(** A state whose table is part of the old one, whose Tasks are the old
    ones moved on, and which is alive if the old one was. *)
Lemma wf_change s s' :
  wf s ->
  id s' = id s ->
  NoDup (JsMap.keys (_tasks s')) ->
  (forall r a, (r, a) ∈ _tasks s' -> (r, a) ∈ _tasks s) ->
  evolves (tasks s) (tasks s') ->
  (ScopeFSM.isAlive (_fsm s') = false -> ScopeFSM.isAlive (_fsm s) = false) ->
  wf s'.
Proof.
  intros [K T S D] Hid Hnd Hsub [Hlen Hev] Halive. split; auto.
  - intros r a Hin. destruct (T _ _ (Hsub _ _ Hin)) as (tk & Hl & Hr).
    destruct (lookup_lt_is_Some_2 (tasks s') a) as [tk' Hl'].
    { rewrite <- Hlen. eapply lookup_lt_Some; eauto. }
    exists tk'. split; auto.
    destruct (Hev _ _ Hl') as (tk0 & Hl0 & Hst).
    rewrite Hl in Hl0. injection Hl0 as <-.
    destruct (TaskProps.steps_identity _ _ Hst). congruence.
  - intros a tk' Hl'. destruct (Hev _ _ Hl') as (tk & Hl & Hst).
    destruct (S _ _ Hl) as [Hr Hsc].
    split; [eapply TaskProps.steps_reachable; eauto|].
    destruct (TaskProps.steps_identity _ _ Hst). congruence.
  - intros Hna r a tk' Hin Hl'.
    destruct (Hev _ _ Hl') as (tk & Hl & Hst).
    destruct (S _ _ Hl) as [Hr _].
    eapply TaskProps.steps_inactive; [apply TaskProps.reachable_wf; exact Hr | | exact Hst].
    eapply D; eauto.
Qed.

Lemma fire_alive e f :
  e <> ScopeFSM.dispose ->
  ScopeFSM.isAlive (ScopeFSM.next f e) = false -> ScopeFSM.isAlive f = false.
Proof. destruct f, e; simpl; congruence. Qed.

Lemma fire_wf e s :
  e <> ScopeFSM.dispose -> wf s -> wf (fst (fire e s)).
Proof.
  intros He Hwf. unfold fire. simpl.
  apply (wf_change s); simpl; auto; try apply Hwf.
  - apply evolves_refl.
  - now apply fire_alive.
Qed.

Lemma abortAll_wf s : wf s -> wf (abortAll s).
Proof.
  intros Hwf. apply (wf_change s); simpl; auto; try apply Hwf.
  apply evolves_alter_each, abort_in_steps.
Qed.

(** After [abortAll], the Tasks of the table are inactive. *)
Lemma abortAll_inactive s r a tk' :
  wf s -> (r, a) ∈ _tasks s ->
  TaskTable.abortAll (id s) (_tasks s) (tasks s) !! a = Some tk' ->
  exists tk, tasks s !! a = Some tk /\ tk' = Task.abort tk.
Proof.
  intros [K T S D] Hin Hl. unfold TaskTable.abortAll in Hl.
  rewrite lookup_alter_each_in in Hl.
  - destruct (tasks s !! a) as [tk|] eqn:E; [| discriminate].
    simpl in Hl. injection Hl as <-. exists tk. split; auto.
    unfold TaskTable.abort_in. destruct (S _ _ E) as [_ ->].
    now rewrite String.eqb_refl.
  - apply abort_in_idem.
  - apply JsMapFacts.values_elem. eauto.
Qed.

Lemma dispose_wf s : wf s -> wf (dispose s).
Proof.
  intros Hwf. unfold dispose.
  destruct (ScopeFSM.isAlive (_fsm s)) eqn:Ea; simpl; auto.
  pose proof (abortAll_wf s Hwf) as [K T S D]. unfold abortAll in *. simpl in *.
  split; simpl; auto.
  intros _ r a tk' Hin Hl.
  destruct (abortAll_inactive s r a tk' Hwf Hin Hl) as (tk & _ & ->).
  apply TaskProps.abort_inactive.
Qed.

Lemma createTask_wf r e s : wf s -> wf (fst (createTask r e s)).
Proof.
  intros Hwf. unfold createTask.
  destruct (ScopeFSM.isAlive (_fsm s)) eqn:Ea; simpl; auto.
  destruct (ScopeFSM.canExecute (_fsm s)) eqn:Ec; simpl; auto.
  destruct Hwf as [K T S D].
  assert (Hfin : wf (with_tasks
             (TaskTable.register (Task.new (id s) (_workerPool s) r e)
                (length (tasks s)) (_tasks s))
             (tasks s ++ [Task.new (id s) (_workerPool s) r e]) s)).
  { split; simpl.
    - apply JsMapFacts.NoDup_keys_set, K.
    - intros r' a Hin. apply JsMapFacts.elem_set in Hin as [Heq|Hin].
      + injection Heq as -> ->.
        exists (Task.new (id s) (_workerPool s) r e). split; [| reflexivity].
        rewrite lookup_app_r by lia. now rewrite Nat.sub_diag.
      + destruct (T _ _ Hin) as (tk & Hl & Hr). exists tk. split; auto.
        now apply lookup_app_l_Some.
    - intros a tk Hl. apply lookup_app_Some in Hl as [Hl|[_ Hl]]; [exact (S _ _ Hl)|].
      destruct (a - length (tasks s)) eqn:Ed; simpl in Hl; [| discriminate].
      injection Hl as <-. split; [apply Task.reach_new | reflexivity].
    - congruence. }
  destruct (_fsm s) eqn:Ef; try discriminate Ec; simpl; rewrite ?Ef; auto.
  destruct Hfin as [K' T' S' D']. split; simpl in *; auto. discriminate.
Qed.

Lemma run_begin_wf o e s : wf s -> wf (fst (run_begin o e s)).
Proof.
  intros Hwf. unfold run_begin.
  pose proof (createTask_wf None e s Hwf) as H1.
  destruct (createTask None e s) as [s1 [err|a]]; simpl in *; auto.
  apply (wf_change s1); simpl; auto; try apply H1.
  apply evolves_alter. intros tk.
  apply (Task.steps_step tk (Task.EvRun o) (fst (Task.run_begin o tk)));
    [reflexivity | apply Task.steps_refl].
Qed.

Lemma step_scope_wf ev s s' : wf s -> step ev s = Some s' -> wf s'.
Proof.
  intros Hwf Hs. destruct ev; simpl in Hs.
  - injection Hs as <-. now apply fire_wf.
  - injection Hs as <-. now apply fire_wf.
  - injection Hs as <-. now apply fire_wf.
  - injection Hs as <-. now apply dispose_wf.
  - injection Hs as <-. now apply abortAll_wf.
  - now injection Hs as <-.
  - injection Hs as <-. now apply createTask_wf.
  - injection Hs as <-. now apply run_begin_wf.
  - unfold run_finally in Hs. destruct (tasks s !! a) as [tk|]; [| discriminate].
    destruct (_ && _); [| discriminate]. injection Hs as <-.
    apply (wf_change s); simpl; auto.
    + apply JsMapFacts.NoDup_keys_delete, Hwf.
    + intros r b. apply JsMapFacts.elem_delete.
    + apply evolves_refl.
  - injection Hs as <-. unfold abortTask.
    destruct (TaskTable.get r (_tasks s)) as [a|]; simpl; auto.
    apply (wf_change s); simpl; auto.
    + apply JsMapFacts.NoDup_keys_delete, Hwf.
    + intros r' b. apply JsMapFacts.elem_delete.
    + apply evolves_alter, TaskProps.abort_steps.
  - destruct (tasks s !! a) as [tk|] eqn:El; [| discriminate].
    destruct (Task.step ev tk) as [tk'|] eqn:Et; [| discriminate].
    injection Hs as <-.
    apply (wf_change s); simpl; auto; try apply Hwf.
    eapply evolves_insert; eauto.
    eapply Task.steps_step; [exact Et | apply Task.steps_refl].
Qed.

Lemma reachable_scope_wf s : reachable s -> wf s.
Proof.
  induction 1 as [| s ev s' _ IH Hs]; [apply new_scope_wf | eapply step_scope_wf; eauto].
Qed.

Lemma sample_with_task_reachable : reachable sample_with_task.
Proof.
  apply (exec_reachable [EvMount; EvCreateTask None Task.sample_entropy]
           (new sample_config false));
    [apply reach_new | reflexivity].
Qed.

(** *** Disposal and the Tasks of the table *)




(** *** Disposal and the state machine *)

(** C2 at a Scope that was never mounted: [dispose()] changes nothing, the
    state stays [INIT] and the Scope stays alive, since [INIT] has no
    [dispose] transition. *)
Theorem dispose_in_INIT_stays_INIT (config : ScopeConfig) (pool : bool) :
  isAlive (new config pool) = true /\
  dispose (new config pool) = new config pool /\
  state (dispose (new config pool)) = ScopeFSM.INIT /\
  isAlive (dispose (new config pool)) = true.
Proof. repeat split. Qed.


(** *** Refs *)

(** C9, as stated, fails: [createTask] with an explicit ref that is already
    in use builds a second Task with the same ref; both Tasks are active,
    and the table keeps the second only. *)
Lemma two_tasks_share_ref :
  match exec [EvMount;
              EvCreateTask (Some "a") Task.sample_entropy;
              EvCreateTask (Some "a") Task.sample_entropy]
             (new sample_config false) with
  | Some s =>
      Task.ref <$> tasks s !! 0 = Some "a" /\
      Task.ref <$> tasks s !! 1 = Some "a" /\
      Task.isActive <$> tasks s !! 0 = Some true /\
      Task.isActive <$> tasks s !! 1 = Some true /\
      _tasks s = [("a", 1)]
  | None => False
  end.
Proof. vm_compute. repeat split. Qed.

(** C9, amended. In the table of a Scope no two different Tasks are
    registered with the same ref. *)
Theorem table_holds_one_task_per_ref (s : t) (r1 r2 : Ref) (a1 a2 : nat)
    (tk1 tk2 : Task.t) :
  reachable s ->
  (r1, a1) ∈ _tasks s -> (r2, a2) ∈ _tasks s ->
  tasks s !! a1 = Some tk1 -> tasks s !! a2 = Some tk2 ->
  Task.ref tk1 = Task.ref tk2 ->
  a1 = a2.
Proof.
  intros Hr H1 H2 L1 L2 Heq. pose proof (reachable_scope_wf _ Hr) as [K T _ _].
  destruct (T _ _ H1) as (tk & L & R1). rewrite L1 in L. injection L as <-.
  destruct (T _ _ H2) as (tk & L & R2). rewrite L2 in L. injection L as <-.
  assert (r1 = r2) by congruence. subst r2.
  pose proof (JsMapFacts.elem_get _ _ _ K H1) as G1.
  pose proof (JsMapFacts.elem_get _ _ _ K H2) as G2.
  congruence.
Qed.

(** A ref that is registered again is bound to the new Task. *)
Lemma createTask_rebinds (s s' : t) (r : Ref) (e : Entropy) (a : nat) :
  createTask (Some r) e s = (s', inr a) -> getTask r s' = Some a.
Proof.
  unfold createTask, getTask.
  destruct (ScopeFSM.isAlive (_fsm s)); simpl; [| discriminate].
  destruct (ScopeFSM.canExecute (_fsm s)); simpl; [| discriminate].
  intros [= <- <-].
  destruct (_fsm s); simpl; apply JsMapFacts.get_set_eq.
Qed.

(** A generated ref is a function of the clock reading and the random
    draw: two Tasks created on the same reading and draw get the same
    ref. *)
Example generated_refs_follow_entropy :
  let s1 := fst (createTask None Task.sample_entropy (fst (mount (new sample_config false)))) in
  let s2 := fst (createTask None Task.sample_entropy s1) in
  Task.ref <$> tasks s2 !! 0 = Some "ref_0_a" /\
  Task.ref <$> tasks s2 !! 1 = Some "ref_0_a" /\
  taskCount s2 = 1.
Proof. repeat split. Qed.

Lemma table_holds_one_task_per_ref_witness :
  reachable sample_two_tasks /\
  _tasks sample_two_tasks = [("a", 0); ("b", 1)] /\
  (forall a, ("b", a) ∈ _tasks sample_two_tasks ->
     Task.ref <$> tasks sample_two_tasks !! a = Some "b" -> a = 1).
Proof.
  assert (Hr : reachable sample_two_tasks).
  { apply (exec_reachable [EvMount; EvCreateTask (Some "a") Task.sample_entropy;
                           EvCreateTask (Some "b") Task.sample_entropy]
             (new sample_config false)); [apply reach_new | reflexivity]. }
  split; [exact Hr|]. split; [reflexivity|].
  intros a Hin Hl.
  destruct (tasks sample_two_tasks !! a) as [tk|] eqn:E; [| discriminate Hl].
  injection Hl as Hl.
  assert (H1 : ("b", 1) ∈ _tasks sample_two_tasks) by (vm_compute; right; left).
  assert (L1 : tasks sample_two_tasks !! 1 =
               Some (Task.new "scope" false (Some "b") Task.sample_entropy))
    by reflexivity.
  exact (table_holds_one_task_per_ref sample_two_tasks "b" "b" a 1 tk _
           Hr Hin H1 E L1 Hl).
Defined.

(** *** The repository's tests, replayed (scope/Scope.test.ts) *)

(** 'should mount (INIT -> ATTACHED)' *)
Example mount_attaches :
  snd (mount (new sample_config false)) = true /\
  state (fst (mount (new sample_config false))) = ScopeFSM.ATTACHED /\
  canExecute (fst (mount (new sample_config false))) = true.
Proof. repeat split. Qed.

(** 'should throw if creating task in INIT state' *)
Example createTask_in_INIT_throws :
  snd (createTask None Task.sample_entropy (new sample_config false)) =
    inl (KernelError ("Cannot create task: scope " +:+ quoted "Scope" +:+ " is not ready")).
Proof. reflexivity. Qed.

(** 'should transition to RUNNING on first task' *)
Example first_task_starts_running :
  state sample_with_task = ScopeFSM.RUNNING /\ taskCount sample_with_task = 1.
Proof. split; reflexivity. Qed.

(** 'should abort all tasks on dispose' and 'should throw if scope
    disposed' *)
Example dispose_aborts_both_tasks :
  let s := dispose sample_two_tasks in
  state s = ScopeFSM.DISPOSED /\
  Task._status <$> tasks s !! 0 = Some Task.aborted /\
  Task._status <$> tasks s !! 1 = Some Task.aborted /\
  snd (createTask None Task.sample_entropy s) =
    inl (KernelError ("Cannot create task: scope " +:+ quoted "Scope" +:+ " is disposed")).
Proof. repeat split. Qed.

(** *** After disposal *)

Lemma step_disposed ev s s' :
  state s = ScopeFSM.DISPOSED -> step ev s = Some s' ->
  state s' = ScopeFSM.DISPOSED /\ taskCount s' <= taskCount s.
Proof.
  unfold state, taskCount, TaskTable.size. intros Hd Hs.
  destruct ev; simpl in Hs;
    unfold mount, suspend, resume, fire, dispose, abortAll, createTask, run_begin,
      createTask, run_finally, abortTask in Hs;
    rewrite ?Hd in Hs; simpl in Hs.
  - injection Hs as <-. auto.
  - injection Hs as <-. auto.
  - injection Hs as <-. auto.
  - injection Hs as <-. auto.
  - injection Hs as <-. auto.
  - injection Hs as <-. auto.
  - injection Hs as <-. auto.
  - injection Hs as <-. auto.
  - destruct (tasks s !! a) as [tk|]; [| discriminate].
    destruct (_ && _); [| discriminate]. injection Hs as <-. simpl.
    split; auto. apply JsMapFacts.size_delete_le.
  - injection Hs as <-. destruct (TaskTable.get r (_tasks s)); simpl; auto.
    split; auto. apply JsMapFacts.size_delete_le.
  - destruct (tasks s !! a) as [tk|]; [| discriminate].
    destruct (Task.step ev tk); [| discriminate]. injection Hs as <-. auto.
Qed.

(** X20. A disposed Scope stays disposed: whatever is called on it
    afterwards, its state is DISPOSED, its table does not grow,
    [createTask], [run] and [effect] fail with the disposed error and
    change nothing, and [mount], [suspend], [resume] and [dispose] are
    no-ops. *)
Theorem disposed_scope_is_inert
  (s s' : t) (evs : list Event) (r : option Ref) (o : Task.TaskRunOptions) (e : Entropy) :
  state s = ScopeFSM.DISPOSED ->
  exec evs s = Some s' ->
  state s' = ScopeFSM.DISPOSED /\
  taskCount s' <= taskCount s /\
  createTask r e s' =
    (s', inl (KernelError
                ("Cannot create task: scope " +:+ quoted (name s') +:+ " is disposed"))) /\
  run_begin o e s' =
    (s', inl (KernelError
                ("Cannot create task: scope " +:+ quoted (name s') +:+ " is disposed"))) /\
  effect s' =
    Some (KernelError
            ("Cannot execute effect: scope " +:+ quoted (name s') +:+ " is disposed")) /\
  mount s' = (s', false) /\ suspend s' = (s', false) /\ resume s' = (s', false) /\
  dispose s' = s'.
Proof.
  intros Hd Hex.
  assert (H : state s' = ScopeFSM.DISPOSED /\ taskCount s' <= taskCount s).
  { revert s Hd Hex. induction evs as [|ev evs IH]; intros s Hd Hex; simpl in Hex.
    - injection Hex as <-. auto.
    - destruct (step ev s) as [s1|] eqn:Hs; [| discriminate].
      destruct (step_disposed _ _ _ Hd Hs) as [Hd1 Hc1].
      destruct (IH _ Hd1 Hex). split; auto; lia. }
  destruct H as [Hd' Hc]. unfold state in Hd'.
  unfold run_begin, createTask, effect, mount, suspend, resume, fire, dispose.
  rewrite Hd'. simpl. repeat split; auto;
    destruct s'; simpl in *; subst; reflexivity.
Qed.

Lemma disposed_scope_is_inert_witness :
  let s := dispose (fst (mount (new sample_config false))) in
  state s = ScopeFSM.DISPOSED /\
  exec [EvMount; EvCreateTask None Task.sample_entropy] s = Some s.
Proof.
  intros s.
  assert (Hd : state s = ScopeFSM.DISPOSED) by reflexivity.
  assert (Hex : exec [EvMount; EvCreateTask None Task.sample_entropy] s = Some s)
    by reflexivity.
  destruct (disposed_scope_is_inert s s _ None Task.sample_options Task.sample_entropy
              Hd Hex) as (H & _).
  split; [exact H | exact Hex].
Defined.

(** *** Before the mount *)

Lemma step_not_disposing ev s s' :
  state s <> ScopeFSM.DISPOSING -> step ev s = Some s' -> state s' <> ScopeFSM.DISPOSING.
Proof.
  unfold state. intros Hn Hs.
  destruct ev; simpl in Hs;
    unfold mount, suspend, resume, fire, dispose, abortAll, createTask, run_begin,
      createTask, run_finally, abortTask in Hs.
  - injection Hs as <-. simpl. destruct (_fsm s); simpl; congruence.
  - injection Hs as <-. simpl. destruct (_fsm s); simpl; congruence.
  - injection Hs as <-. simpl. destruct (_fsm s); simpl; congruence.
  - injection Hs as <-. destruct (_fsm s) eqn:E; simpl; rewrite ?E; congruence.
  - injection Hs as <-. auto.
  - injection Hs as <-. auto.
  - injection Hs as <-. destruct (_fsm s) eqn:E; simpl; rewrite ?E; simpl; congruence.
  - injection Hs as <-. destruct (_fsm s) eqn:E; simpl; rewrite ?E; simpl; congruence.
  - destruct (tasks s !! a) as [tk|]; [| discriminate].
    destruct (_ && _); [| discriminate]. injection Hs as <-. auto.
  - injection Hs as <-. destruct (TaskTable.get r (_tasks s)); simpl; auto.
  - destruct (tasks s !! a) as [tk|]; [| discriminate].
    destruct (Task.step ev tk); [| discriminate]. injection Hs as <-. auto.
Qed.

Lemma step_unmounted ev s s' :
  (state s = ScopeFSM.INIT -> _tasks s = [] /\ tasks s = []) ->
  step ev s = Some s' ->
  state s' = ScopeFSM.INIT -> _tasks s' = [] /\ tasks s' = [].
Proof.
  unfold state. intros IH Hs Hi.
  destruct ev; simpl in Hs;
    unfold mount, suspend, resume, fire, dispose, abortAll, createTask, run_begin,
      createTask, run_finally, abortTask in Hs.
  - injection Hs as <-. simpl in *. destruct (_fsm s); try discriminate Hi; auto.
  - injection Hs as <-. simpl in *. destruct (_fsm s); try discriminate Hi; auto.
  - injection Hs as <-. simpl in *. destruct (_fsm s); try discriminate Hi; auto.
  - injection Hs as <-.
    destruct (_fsm s) eqn:E; simpl in Hi; rewrite ?E in Hi; simpl in Hi;
      try discriminate Hi.
    destruct IH as [E1 E2]; [congruence|]. simpl. rewrite E1, E2. auto.
  - injection Hs as <-. simpl in *. destruct (IH Hi) as [-> ->]. auto.
  - injection Hs as <-. auto.
  - injection Hs as <-.
    destruct (_fsm s) eqn:E; simpl in *; rewrite ?E in *; simpl in *;
      try discriminate Hi; apply IH; congruence.
  - injection Hs as <-.
    destruct (_fsm s) eqn:E; simpl in *; rewrite ?E in *; simpl in *;
      try discriminate Hi; apply IH; congruence.
  - destruct (tasks s !! a) as [tk|] eqn:El; [| discriminate].
    destruct (_ && _); [| discriminate]. injection Hs as <-. simpl in *.
    destruct (IH Hi) as [_ E0]. rewrite E0 in El. discriminate El.
  - injection Hs as <-. destruct (TaskTable.get r (_tasks s)) eqn:Eg; simpl in *; auto.
    destruct (IH Hi) as [E0 _]. rewrite E0 in Eg. discriminate Eg.
  - destruct (tasks s !! a) as [tk|] eqn:El; [| discriminate].
    destruct (IH ltac:(destruct (Task.step ev tk); [injection Hs as <-; exact Hi | discriminate]))
      as [_ E0].
    rewrite E0 in El. discriminate El.
Qed.

(** X21. A Scope that has not been mounted owns no Task: in state INIT
    the table is empty and no Task has been constructed. And the state
    DISPOSING is never seen between two calls: [dispose] passes through
    it. *)
Theorem unmounted_scope_has_no_tasks (s : t) :
  reachable s ->
  state s <> ScopeFSM.DISPOSING /\
  (state s = ScopeFSM.INIT -> taskCount s = 0 /\ tasks s = []).
Proof.
  intros Hr.
  assert (H : state s <> ScopeFSM.DISPOSING /\
              (state s = ScopeFSM.INIT -> _tasks s = [] /\ tasks s = [])).
  { induction Hr as [| s ev s' _ [IH1 IH2] Hs].
    - split; [discriminate | auto].
    - split; [eapply step_not_disposing; eauto | eapply step_unmounted; eauto]. }
  destruct H as [H1 H2]. split; auto.
  intros Hi. destruct (H2 Hi) as [E1 E2]. unfold taskCount. now rewrite E1.
Qed.

Lemma unmounted_scope_has_no_tasks_witness :
  let s := fst (createTask None Task.sample_entropy (dispose (new sample_config false))) in
  state s = ScopeFSM.INIT /\ taskCount s = 0.
Proof.
  intros s.
  assert (Hr : reachable s).
  { apply (exec_reachable [EvDispose; EvCreateTask None Task.sample_entropy]
             (new sample_config false)); [apply reach_new | reflexivity]. }
  destruct (unmounted_scope_has_no_tasks s Hr) as [_ H].
  split; [reflexivity | exact (proj1 (H eq_refl))].
Defined.

(** *** Creating, running and aborting a Task *)

Lemma alter_last {A : Type} (f : A -> A) (l : list A) (x : A) :
  alter f (length l) (l ++ [x]) = l ++ [f x].
Proof.
  pose proof (alter_app_r f l [x] 0) as H. now rewrite Nat.add_0_r in H.
Qed.

(** X22. [createTask] succeeds exactly when the Scope can execute. On
    success the Scope is RUNNING and the new Task is pending, belongs to
    this Scope, carries the requested ref and is the one [getTask] finds
    under its ref, while the Tasks constructed earlier are as they were.
    Otherwise nothing changes and the error says whether the Scope is
    disposed or not ready. *)
Theorem createTask_outcome (s : t) (r : option Ref) (e : Entropy) :
  match createTask r e s with
  | (s', inr a) =>
      canExecute s = true /\ state s' = ScopeFSM.RUNNING /\
      (exists tk, tasks s' !! a = Some tk /\
         Task._status tk = Task.pending /\ Task.scopeId tk = id s /\
         (forall x, r = Some x -> Task.ref tk = x) /\
         getTask (Task.ref tk) s' = Some a) /\
      (forall b tk, tasks s !! b = Some tk -> tasks s' !! b = Some tk) /\
      taskCount s <= taskCount s' <= S (taskCount s)
  | (s', inl err) =>
      canExecute s = false /\ s' = s /\
      err = KernelError ("Cannot create task: scope " +:+ quoted (name s) +:+
                         (if isAlive s then " is not ready" else " is disposed"))
  end.
Proof.
  unfold createTask, canExecute, isAlive, state, getTask, taskCount, TaskTable.get,
    TaskTable.register, TaskTable.size.
  destruct (_fsm s) eqn:E; simpl; rewrite ?E; simpl; auto;
    (split; [reflexivity|]; split; [auto|]; split; [|split; [|split]]).
  all: try (eexists; split;
            [ rewrite lookup_app_r by lia; rewrite Nat.sub_diag; reflexivity
            | repeat split; simpl;
              [ intros x ->; reflexivity | apply JsMapFacts.get_set_eq ] ]).
  all: try (intros b tk Hl; now apply lookup_app_l_Some).
  all: try apply TaskProps.size_set_ge.
  all: apply JsMapFacts.size_set_le.
Qed.

(** X23. [run] leaves no entry behind. When [scope.run(fn)] has created
    its Task, the function has settled and the [finally] block has run,
    the table is the table from before the call without the entry under
    the generated ref (an entry that an earlier Task held under the same
    ref is gone with it), and the Task is settled. *)
Theorem run_leaves_no_entry
  (s s1 : t) (o : Task.TaskRunOptions) (e : Entropy) (a : nat) (st : Task.Settlement) :
  reachable s ->
  run_begin o e s = (s1, inr a) ->
  exists s2 s3 tk,
    step (EvTask a (Task.EvSettle st)) s1 = Some s2 /\
    run_finally a s2 = Some s3 /\
    tasks s3 !! a = Some tk /\
    Task.isActive tk = false /\
    Task.scopeId tk = id s /\
    _tasks s3 = JsMap.delete (Task.ref tk) (_tasks s) /\
    getTask (Task.ref tk) s3 = None /\
    taskCount s3 <= taskCount s.
Proof.
  intros Hwf. apply reachable_scope_wf in Hwf. destruct Hwf as [K _ _ _].
  unfold run_begin, createTask.
  destruct (ScopeFSM.isAlive (_fsm s)) eqn:Ea; simpl; [| discriminate].
  destruct (ScopeFSM.canExecute (_fsm s)) eqn:Ec; simpl; [| discriminate].
  intros H.
  set (tk0 := Task.new (id s) (_workerPool s) None e) in *.
  assert (Ha : a = length (tasks s)).
  { destruct (_fsm s); simpl in H; injection H as _ <-; reflexivity. }
  assert (H1 : tasks s1 = tasks s ++ [fst (Task.run_begin o tk0)] /\
               _tasks s1 = JsMap.set (Task.ref tk0) a (_tasks s) /\
               a ∈ runs s1 /\ id s1 = id s).
  { subst a.
    destruct (_fsm s); simpl in H; injection H as <-; simpl;
      (repeat split;
       [ rewrite alter_last; reflexivity
       | apply elem_of_app; right; apply list_elem_of_singleton; reflexivity ]). }
  destruct H1 as (Et & Etb & Hin & Hid).
  set (tk1 := fst (Task.run_begin o tk0)) in *.
  assert (Hl1 : tasks s1 !! a = Some tk1).
  { rewrite Et, Ha, lookup_app_r by lia. now rewrite Nat.sub_diag. }
  assert (Haw : Task.awaiting tk1 <> None) by (unfold tk1, tk0; simpl; discriminate).
  set (tk2 := fst (Task.run_resume st tk1)).
  assert (Hr2 : Task.ref tk2 = Task.ref tk0 /\ Task.scopeId tk2 = id s /\
                Task.awaiting tk2 = None /\ Task.isActive tk2 = false).
  { unfold tk2, tk1, tk0. destruct st; repeat split. }
  destruct Hr2 as (Er & Es & Eaw & Eia).
  exists (with_tasks (_tasks s1) (<[a := tk2]> (tasks s1)) s1).
  eexists. exists tk2.
  assert (Hl2 : <[a := tk2]> (tasks s1) !! a = Some tk2).
  { apply list_lookup_insert_eq. eapply lookup_lt_Some; eauto. }
  split.
  { unfold step. rewrite Hl1. cbv beta iota.
    destruct (Task.awaiting tk1); [reflexivity | contradiction]. }
  split.
  { unfold run_finally. simpl. rewrite Hl2, Eaw.
    rewrite !bool_decide_eq_true_2 by auto. reflexivity. }
  unfold getTask, taskCount, TaskTable.get, TaskTable.size, TaskTable.unregister.
  simpl. rewrite Er, Etb, JsMapFacts.delete_set.
  repeat split; auto.
  - now apply JsMapFacts.get_delete_eq.
  - apply JsMapFacts.size_delete_le.
Qed.

Lemma run_leaves_no_entry_witness :
  let s := fst (mount (new sample_config false)) in
  snd (run_begin Task.sample_options Task.sample_entropy s) = inr 0 /\
  exists s3, taskCount s3 <= taskCount s.
Proof.
  intros s. split; [reflexivity|].
  assert (Hr : reachable s).
  { apply (reach_step (new sample_config false) EvMount); [apply reach_new | reflexivity]. }
  destruct (run_leaves_no_entry s _ Task.sample_options Task.sample_entropy 0
              (Task.Fulfilled (VNum 1)) Hr eq_refl)
    as (s2 & s3 & tk & _ & _ & _ & _ & _ & _ & _ & H).
  exists s3. exact H.
Defined.

(** X24. [abortTask(ref)] on a registered ref aborts that Task, removes
    its entry and answers true: the Task is not active afterwards, the ref
    is no longer found, and the other entries, the other Tasks and the
    state of the Scope are as before. On a ref that is not registered it
    answers false and changes nothing. *)
Theorem abortTask_aborts_and_unregisters (s : t) (r : Ref) :
  reachable s ->
  match getTask r s with
  | Some a =>
      snd (abortTask r s) = true /\
      (exists tk, tasks s !! a = Some tk /\ Task.ref tk = r /\
         tasks (fst (abortTask r s)) !! a = Some (Task.abort tk) /\
         Task.isActive (Task.abort tk) = false) /\
      getTask r (fst (abortTask r s)) = None /\
      (forall r', r' <> r -> getTask r' (fst (abortTask r s)) = getTask r' s) /\
      (forall b, b <> a -> tasks (fst (abortTask r s)) !! b = tasks s !! b) /\
      state (fst (abortTask r s)) = state s
  | None => abortTask r s = (s, false)
  end.
Proof.
  intros Hr. apply reachable_scope_wf in Hr. destruct Hr as [K T _ _].
  unfold abortTask, getTask, TaskTable.get, TaskTable.unregister.
  destruct (JsMap.get r (_tasks s)) as [a|] eqn:Eg; [| reflexivity].
  simpl. destruct (T r a (JsMapFacts.get_Some_elem _ _ _ Eg)) as (tk & Hl & Hrf).
  repeat split.
  - exists tk. repeat split; auto.
    + now rewrite list_lookup_alter_eq, Hl.
    + apply TaskProps.abort_inactive.
  - now apply JsMapFacts.get_delete_eq.
  - intros r' Hne. apply JsMapFacts.get_delete_ne. congruence.
  - intros b Hne. apply list_lookup_alter_ne. congruence.
Qed.

Lemma abortTask_aborts_and_unregisters_witness :
  getTask "ref_0_a" sample_with_task = Some 0 /\
  getTask "ref_0_a" (fst (abortTask "ref_0_a" sample_with_task)) = None.
Proof.
  pose proof (abortTask_aborts_and_unregisters sample_with_task "ref_0_a"
                sample_with_task_reachable) as H.
  change (getTask "ref_0_a" sample_with_task) with (Some 0) in H.
  destruct H as (_ & _ & H & _).
  split; [reflexivity | exact H].
Defined.

(** *** What later layers use *)

Lemma step_scope_id ev s s' : step ev s = Some s' -> id s' = id s.
Proof.
  intros Hs.
  destruct ev; simpl in Hs;
    unfold mount, suspend, resume, fire, dispose, abortAll, createTask, run_begin,
      createTask, run_finally, abortTask in Hs.
  - now injection Hs as <-.
  - now injection Hs as <-.
  - now injection Hs as <-.
  - injection Hs as <-. now destruct (ScopeFSM.isAlive (_fsm s)).
  - now injection Hs as <-.
  - now injection Hs as <-.
  - injection Hs as <-. destruct (_fsm s) eqn:E; simpl; rewrite ?E; reflexivity.
  - injection Hs as <-. destruct (_fsm s) eqn:E; simpl; rewrite ?E; reflexivity.
  - destruct (tasks s !! a) as [tk|]; [| discriminate].
    destruct (_ && _); [| discriminate]. now injection Hs as <-.
  - injection Hs as <-. now destruct (TaskTable.get r (_tasks s)).
  - destruct (tasks s !! a) as [tk|]; [| discriminate].
    destruct (Task.step ev tk); [| discriminate]. now injection Hs as <-.
Qed.




End ScopeProps.

(** ** Properties of [TaskTable] *)
Module TaskTableProps.
Import TaskTable.







End TaskTableProps.

(** ** Properties of [WorkerPool] *)
Module WorkerPoolProps.
Import WorkerPool.

(** *** The size of the pool *)

Lemma size_add_worker e p : size (add_worker e p) <= S (size p).
Proof. unfold size, add_worker. simpl. apply JsMapFacts.size_set_le. Qed.

Lemma size_init_loop gen i n p : size (init_loop gen i n p) <= size p + n.
Proof.
  revert i p. induction n as [|n IH]; intros i p; simpl; [lia|].
  pose proof (IH (S i) (add_worker (gen i) p)).
  pose proof (size_add_worker (gen i) p). lia.
Qed.

Lemma config_init_loop gen i n p : _config (init_loop gen i n p) = _config p.
Proof. revert i p. induction n as [|n IH]; intros i p; simpl; auto. now rewrite IH. Qed.

Lemma size_remove_worker p wid : size (remove_worker p wid) <= size p.
Proof.
  unfold remove_worker, size. destruct (JsMap.get wid (_workers p)); simpl; auto.
  apply JsMapFacts.size_delete_le.
Qed.

Lemma config_remove_worker p wid : _config (remove_worker p wid) = _config p.
Proof. unfold remove_worker. now destruct (JsMap.get wid (_workers p)). Qed.

Lemma size_remove_all ids p :
  size (fold_left remove_worker ids p) <= size p /\
  _config (fold_left remove_worker ids p) = _config p.
Proof.
  revert p. induction ids as [|wid ids IH]; intros p; simpl; auto.
  destruct (IH (remove_worker p wid)) as [H1 H2].
  pose proof (size_remove_worker p wid). rewrite H2, config_remove_worker.
  split; [lia | auto].
Qed.

Lemma execute_workers p :
  _workers (fst (execute p)) = _workers p /\ _config (fst (execute p)) = _config p.
Proof.
  unfold execute. destruct (_disposed p); simpl; auto.
  destruct (_findIdleWorker _); simpl; auto.
Qed.

Lemma work_done_workers a p :
  _workers (work_done a p) = _workers p /\ _config (work_done a p) = _config p.
Proof.
  unfold work_done, _processQueue. destruct (_disposed p); simpl; auto.
  destruct (_queue p); simpl; auto.
  destruct (_findIdleWorker _); simpl; auto.
Qed.

Lemma new_within gen config : within config (new gen config).
Proof.
  unfold within, new, _initializeWorkers, bound.
  rewrite config_init_loop. split; [reflexivity|].
  match goal with |- context [init_loop gen 0 ?n ?p] =>
    pose proof (size_init_loop gen 0 n p) as H end.
  unfold size at 2 in H. simpl in H. lia.
Qed.

Lemma step_within config ev p p' :
  within config p -> step ev p = Some p' -> within config p'.
Proof.
  unfold within, bound. intros [Hc Hs] Hst. destruct ev; simpl in Hst.
  - injection Hst as <-. destruct (execute_workers p) as [E1 E2].
    unfold size. now rewrite E1, E2.
  - destruct (_ || _); [| discriminate]. injection Hst as <-.
    destruct (work_done_workers a p) as [E1 E2].
    unfold size. now rewrite E1, E2.
  - injection Hst as <-. unfold scale.
    destruct (_disposed p); auto.
    fold (size p).
    destruct (Z.of_nat (size p) <? Z.min count (maxWorkers (_config p)))%Z eqn:E1.
    + apply Z.ltb_lt in E1. unfold _initializeWorkers.
      rewrite config_init_loop. split; auto.
      match goal with |- context [init_loop gen 0 ?n p] =>
        pose proof (size_init_loop gen 0 n p) as H end.
      lia.
    + destruct (Z.min count (maxWorkers (_config p)) <? Z.of_nat (size p))%Z; auto.
      unfold _shrinkPool.
      match goal with |- context [fold_left remove_worker ?ids p] =>
        destruct (size_remove_all ids p) as [H1 H2] end.
      rewrite H2. split; auto. lia.
  - injection Hst as <-. unfold dispose.
    destruct (_disposed p); simpl; auto. split; auto. unfold size. simpl. lia.
Qed.

(** A pool whose [defaultWorkers] does not exceed its [maxWorkers] never
    holds more than [maxWorkers] workers. *)
Lemma size_le_maxWorkers gen config p :
  (defaultWorkers config <= maxWorkers config)%Z ->
  (0 <= maxWorkers config)%Z ->
  reachable gen config p ->
  (Z.of_nat (size p) <= maxWorkers config)%Z.
Proof.
  intros Hd Hm Hr.
  assert (Hw : within config p).
  { induction Hr as [| p ev p' _ IH Hs]; [apply new_within | eapply step_within; eauto]. }
  destruct Hw as [_ Hw]. unfold bound in Hw. lia.
Qed.

(** C7 at a pool configured with more default workers than [maxWorkers]:
    the constructor creates [defaultWorkers] workers without looking at
    [maxWorkers], which only [scale] consults. *)
Theorem constructor_exceeds_maxWorkers :
  let config := {| defaultWorkers := 3; maxWorkers := 2; idleTimeout := None |} in
  let p := new distinct_ids config in
  reachable distinct_ids config p /\
  size p = 3 /\
  (Z.of_nat (size p) > maxWorkers (_config p))%Z.
Proof.
  simpl. split; [apply reach_new|]. vm_compute. repeat split.
Qed.

(** *** The repository's tests, replayed (engine/WorkerPool.test.ts) *)

(** The pool of the tests, and ids for a later call of [scale]. *)
Example scale_tests :
  let later := fun i => {| now := 1; rnd := pretty i |} in
  let pool := new distinct_ids {| defaultWorkers := 2; maxWorkers := 4; idleTimeout := None |} in
  size pool = 2 /\
  size (scale later 4 pool) = 4 /\
  size (scale later 10 pool) = 4 /\
  size (scale later 1 (scale later 4 pool)) = 1 /\
  size (dispose pool) = 0 /\
  snd (execute (dispose pool)) = ExecRejected (KernelError "WorkerPool is disposed").
Proof. vm_compute. repeat split. Qed.

(** 'should reject queued work': two units occupy the two workers, the
    third is queued. *)
Example third_unit_is_queued :
  let pool := new distinct_ids {| defaultWorkers := 2; maxWorkers := 4; idleTimeout := None |} in
  let p2 := fst (execute (fst (execute pool))) in
  busyCount p2 = 2 /\ idleCount p2 = 0 /\
  snd (execute p2) = ExecQueued "work_3" /\
  queueSize (fst (execute p2)) = 1.
Proof. vm_compute. repeat split. Qed.

(** *** After disposal *)

Lemma step_disposed_pool ev p : _disposed p = true -> step ev p = Some p.
Proof.
  intros Hd. destruct ev; simpl; unfold execute, work_done, scale, dispose;
    rewrite Hd; simpl; auto.
  now rewrite orb_true_r.
Qed.

Lemma disposed_init_loop gen i n p : _disposed (init_loop gen i n p) = _disposed p.
Proof. revert i p. induction n as [|n IH]; intros i p; simpl; auto. now rewrite IH. Qed.

Lemma disposed_remove_all ids p : _disposed (fold_left remove_worker ids p) = _disposed p.
Proof.
  revert p. induction ids as [|wid ids IH]; intros p; simpl; auto.
  rewrite IH. unfold remove_worker. now destruct (JsMap.get wid (_workers p)).
Qed.

Lemma step_keeps_disposed ev p p' :
  ev <> EvDispose -> step ev p = Some p' -> _disposed p' = _disposed p.
Proof.
  intros Hne Hs. destruct ev; simpl in Hs; try contradiction.
  - injection Hs as <-. unfold execute. destruct (_disposed p) eqn:E; simpl; auto.
    destruct (_findIdleWorker _); simpl; auto.
  - destruct (_ || _); [| discriminate]. injection Hs as <-.
    unfold work_done, _processQueue. destruct (_disposed p) eqn:E; simpl; auto.
    destruct (_queue p); simpl; auto.
    destruct (_findIdleWorker _); simpl; auto.
  - injection Hs as <-. unfold scale, _initializeWorkers, _shrinkPool.
    destruct (_disposed p) eqn:E; auto.
    destruct (_ <? _)%Z; [now rewrite disposed_init_loop|].
    destruct (_ <? _)%Z; [now rewrite disposed_remove_all | auto].
Qed.

Lemma reachable_disposed_empty gen config p :
  reachable gen config p -> _disposed p = true -> _workers p = [] /\ _queue p = [].
Proof.
  induction 1 as [| p ev p' _ IH Hs]; intros Hd.
  - unfold new, _initializeWorkers in Hd. rewrite disposed_init_loop in Hd. discriminate Hd.
  - destruct (_disposed p) eqn:E.
    + rewrite step_disposed_pool in Hs by auto. injection Hs as <-. auto.
    + assert (He : ev = EvDispose \/ ev <> EvDispose)
        by (destruct ev; ((now left) || (right; discriminate))).
      destruct He as [->|Hne].
      * simpl in Hs. injection Hs as <-. unfold dispose. rewrite E. auto.
      * rewrite (step_keeps_disposed _ _ _ Hne Hs) in Hd. congruence.
Qed.

(** X25. [dispose()] is final: the disposed pool has no workers and no
    queued work, [execute] rejects with the disposed error, and nothing
    that is called or that settles afterwards changes the pool in any
    way. *)
Theorem disposed_pool_is_inert
  (gen : nat -> Entropy) (config : WorkerPoolConfig) (p : t) (evs : list Event) :
  reachable gen config p ->
  exec evs (dispose p) = Some (dispose p) /\
  isDisposed (dispose p) = true /\
  size (dispose p) = 0 /\ queueSize (dispose p) = 0 /\
  idleCount (dispose p) = 0 /\ busyCount (dispose p) = 0 /\
  execute (dispose p) = (dispose p, ExecRejected (KernelError "WorkerPool is disposed")).
Proof.
  intros Hr.
  assert (Hr' : reachable gen config (dispose p))
    by (apply (reach_step gen config p EvDispose); auto).
  assert (Hd : _disposed (dispose p) = true).
  { unfold dispose. destruct (_disposed p) eqn:E; auto. }
  destruct (reachable_disposed_empty _ _ _ Hr' Hd) as [Ew Eq].
  split.
  { induction evs as [|ev evs IH]; simpl; auto.
    now rewrite step_disposed_pool. }
  unfold isDisposed, execute, size, queueSize, idleCount, busyCount.
  rewrite Hd, Ew, Eq. repeat split.
Qed.

Lemma disposed_pool_is_inert_witness :
  exec [EvExecute; EvWorkDone 0; EvScale distinct_ids 3; EvDispose] (dispose sample_queued) =
    Some (dispose sample_queued) /\
  size (dispose sample_queued) = 0.
Proof.
  assert (Hr : reachable distinct_ids sample_config sample_queued).
  { apply (reach_step _ _ (fst (execute (new distinct_ids sample_config))) EvExecute);
      [| reflexivity].
    apply (reach_step _ _ (new distinct_ids sample_config) EvExecute);
      [apply reach_new | reflexivity]. }
  destruct (disposed_pool_is_inert distinct_ids sample_config sample_queued
              [EvExecute; EvWorkDone 0; EvScale distinct_ids 3; EvDispose] Hr)
    as (H1 & _ & H3 & _).
  split; [exact H1 | exact H3].
Defined.

(** *** The queue *)

Lemma find_idle_Some p a :
  _findIdleWorker p = Some a ->
  a ∈ JsMap.values (_workers p) /\ state_is idle p a = true.
Proof.
  unfold _findIdleWorker. intros H. apply find_some in H as [H1 H2].
  split; auto. now apply list_elem_of_In.
Qed.

Lemma find_idle_None p a :
  _findIdleWorker p = None -> a ∈ JsMap.values (_workers p) -> state_is idle p a = false.
Proof.
  unfold _findIdleWorker. intros H Hin.
  apply (find_none _ _ H). now apply list_elem_of_In.
Qed.

Lemma dispatch_works_on a w p :
  state_is idle p a = true -> works_on (_dispatchWork a w p) a w.
Proof.
  unfold state_is, works_on, _dispatchWork. simpl.
  destruct (store p !! a) as [x|] eqn:E; [| discriminate]. intros _.
  exists (set_worker busy (Some w) x). rewrite list_lookup_alter_eq, E. repeat split.
Qed.

(** X26. Work waits in arrival order. [execute] hands a unit to the first
    idle worker of the map when there is one and appends it to the queue
    otherwise; when a registered worker finishes, the unit at the head of
    the queue is dispatched at once and the rest of the queue keeps its
    order. *)
Theorem queue_is_first_in_first_out (p : t) :
  _disposed p = false ->
  match execute p with
  | (p', ExecQueued w) =>
      _queue p' = _queue p ++ [w] /\ store p' = store p /\
      (forall a, a ∈ JsMap.values (_workers p) -> state_is idle p a = false)
  | (p', ExecDispatched a w) =>
      _queue p' = _queue p /\ _findIdleWorker p = Some a /\ works_on p' a w
  | (p', ExecRejected _) => False
  end /\
  (forall a w rest,
     state_is busy p a = true -> a ∈ JsMap.values (_workers p) ->
     _queue p = w :: rest ->
     _queue (work_done a p) = rest /\
     exists b, b ∈ JsMap.values (_workers p) /\ works_on (work_done a p) b w) /\
  (forall a, _queue p = [] -> _queue (work_done a p) = []).
Proof.
  intros Hd. split; [| split].
  - unfold execute. rewrite Hd.
    match goal with |- context [_findIdleWorker ?q] =>
      change (_findIdleWorker q) with (_findIdleWorker p) end.
    destruct (_findIdleWorker p) as [a|] eqn:Ef; simpl.
    + repeat split. apply find_idle_Some in Ef as [_ Hi].
      now apply dispatch_works_on.
    + repeat split. intros a Hin. now apply find_idle_None.
  - intros a w rest Hb Hin Hq. unfold work_done, _processQueue. rewrite Hd. simpl.
    rewrite Hq.
    set (p1 := with_queue rest
                 (with_workers (_workers p) (alter (set_worker idle None) a (store p)) p)).
    match goal with |- context [_findIdleWorker ?q] =>
      change (_findIdleWorker q) with (_findIdleWorker p1) end.
    assert (Hi : state_is idle p1 a = true).
    { unfold state_is in *. simpl. rewrite list_lookup_alter_eq.
      destruct (store p !! a); [reflexivity | discriminate]. }
    destruct (_findIdleWorker p1) as [b|] eqn:Ef.
    + apply find_idle_Some in Ef as [Hb1 Hb2]. split; [reflexivity|].
      exists b. split; [exact Hb1|].
      now apply (dispatch_works_on b w p1).
    + rewrite (find_idle_None p1 a Ef Hin) in Hi. discriminate Hi.
  - intros a Hq. unfold work_done, _processQueue. rewrite Hd. simpl. now rewrite Hq.
Qed.

Lemma queue_is_first_in_first_out_witness :
  _queue sample_queued = ["work_2"] /\
  _queue (work_done 0 sample_queued) = [] /\
  snd (execute sample_queued) = ExecQueued "work_3".
Proof.
  destruct (queue_is_first_in_first_out sample_queued eq_refl) as (_ & H & _).
  destruct (H 0 "work_2" [] eq_refl) as [Hq _].
  - apply list_elem_of_singleton. reflexivity.
  - reflexivity.
  - split; [reflexivity|]. split; [exact Hq | reflexivity].
Defined.

(** *** The map and the workers *)

Lemma pool_wf_same p p' :
  _workers p' = _workers p -> store p' = store p -> wf p -> wf p'.
Proof. intros E1 E2 [K I]. split; rewrite ?E1, ?E2; auto. Qed.

Lemma pool_wf_alter f a p :
  (forall w, id (f w) = id w) -> wf p ->
  wf (with_workers (_workers p) (alter f a (store p)) p).
Proof.
  intros Hf [K I]. split; simpl; auto.
  intros k b Hin. destruct (I _ _ Hin) as (w & Hl & Hid).
  destruct (decide (a = b)) as [->|Hne].
  - exists (f w). rewrite list_lookup_alter_eq, Hl. split; auto. now rewrite Hf.
  - exists w. now rewrite list_lookup_alter_ne.
Qed.

Lemma add_worker_wf e p : wf p -> wf (add_worker e p).
Proof.
  intros [K I]. unfold add_worker. split; simpl.
  - now apply JsMapFacts.NoDup_keys_set.
  - intros k a Hin. apply JsMapFacts.elem_set in Hin as [Heq|Hin].
    + injection Heq as Hk Ha. eexists. split.
      * rewrite Ha, lookup_app_r by lia. rewrite Nat.sub_diag. reflexivity.
      * simpl. congruence.
    + destruct (I _ _ Hin) as (w & Hl & Hid). exists w. split; auto.
      now apply lookup_app_l_Some.
Qed.

Lemma init_loop_wf gen i n p : wf p -> wf (init_loop gen i n p).
Proof.
  revert i p. induction n as [|n IH]; intros i p Hwf; simpl; auto.
  apply IH. now apply add_worker_wf.
Qed.

Lemma remove_worker_wf p wid : wf p -> wf (remove_worker p wid).
Proof.
  intros Hwf. unfold remove_worker.
  destruct (JsMap.get wid (_workers p)) as [a|]; auto.
  pose proof (pool_wf_alter
                (fun w => {| id := id w; state := terminated;
                             currentWorkId := currentWorkId w |}) a p
                (fun w => eq_refl) Hwf) as [K I].
  split; simpl in *.
  - now apply JsMapFacts.NoDup_keys_delete.
  - intros k b Hin. apply I. eapply JsMapFacts.elem_delete; eauto.
Qed.

Lemma remove_all_wf ids p : wf p -> wf (fold_left remove_worker ids p).
Proof.
  revert p. induction ids as [|wid ids IH]; intros p Hwf; simpl; auto.
  apply IH. now apply remove_worker_wf.
Qed.

Lemma dispatch_wf a w p : wf p -> wf (_dispatchWork a w p).
Proof. intros Hwf. unfold _dispatchWork. now apply pool_wf_alter. Qed.

Lemma step_pool_wf ev p p' : wf p -> step ev p = Some p' -> wf p'.
Proof.
  intros Hwf Hs. destruct ev; simpl in Hs.
  - injection Hs as <-. unfold execute. destruct (_disposed p); simpl; auto.
    destruct (_findIdleWorker _); simpl.
    + apply dispatch_wf. eapply pool_wf_same; [| | exact Hwf]; reflexivity.
    + eapply pool_wf_same; [| | exact Hwf]; reflexivity.
  - destruct (_ || _); [| discriminate]. injection Hs as <-.
    unfold work_done, _processQueue. destruct (_disposed p); auto.
    pose proof (pool_wf_alter (set_worker idle None) a p (fun w => eq_refl) Hwf) as H1.
    simpl. destruct (_queue p); auto.
    destruct (_findIdleWorker _); auto.
    apply dispatch_wf. eapply pool_wf_same; [| | exact H1]; reflexivity.
  - injection Hs as <-. unfold scale, _initializeWorkers, _shrinkPool.
    destruct (_disposed p); auto.
    destruct (_ <? _)%Z; [now apply init_loop_wf|].
    destruct (_ <? _)%Z; [now apply remove_all_wf | auto].
  - injection Hs as <-. unfold dispose. destruct (_disposed p); auto.
    split; simpl; [apply NoDup_nil_2|].
    intros k a Hin. now apply elem_of_nil in Hin.
Qed.

Lemma reachable_pool_wf gen config p : reachable gen config p -> wf p.
Proof.
  induction 1 as [| p ev p' _ IH Hs]; [| eapply step_pool_wf; eauto].
  unfold new, _initializeWorkers. apply init_loop_wf.
  split; simpl; [apply NoDup_nil_2|].
  intros k a Hin. now apply elem_of_nil in Hin.
Qed.

Lemma collect_idle_spec p addrs n wid :
  wid ∈ collect_idle p addrs n ->
  exists a w, a ∈ addrs /\ store p !! a = Some w /\ state w = idle /\ id w = wid.
Proof.
  revert n. induction addrs as [|a addrs IH]; intros n Hin.
  - destruct n; simpl in Hin; now apply elem_of_nil in Hin.
  - destruct n as [|c]; simpl in Hin; [now apply elem_of_nil in Hin|].
    assert (Hrest : forall m, wid ∈ collect_idle p addrs m ->
              exists a0 w, a0 ∈ a :: addrs /\ store p !! a0 = Some w /\
                           state w = idle /\ id w = wid).
    { intros m Hm. destruct (IH _ Hm) as (a0 & w & H1 & H2).
      exists a0, w. split; auto. apply elem_of_cons. now right. }
    destruct (store p !! a) as [w|] eqn:El; [| now apply (Hrest (S c))].
    destruct (state w) eqn:Es; try now apply (Hrest (S c)).
    apply elem_of_cons in Hin as [->|Hin]; [| now apply (Hrest c)].
    exists a, w. repeat split; auto. apply elem_of_cons. now left.
Qed.

Lemma remove_all_spares_busy p ids q :
  (forall wid a, wid ∈ ids -> (wid, a) ∈ _workers p -> state_is busy p a = false) ->
  (forall kv, kv ∈ _workers q -> kv ∈ _workers p) ->
  (forall b, state_is busy p b = true -> store q !! b = store p !! b) ->
  (forall k b, (k, b) ∈ _workers p -> state_is busy p b = true -> (k, b) ∈ _workers q) ->
  (forall b, state_is busy p b = true ->
     store (fold_left remove_worker ids q) !! b = store p !! b) /\
  (forall k b, (k, b) ∈ _workers p -> state_is busy p b = true ->
     (k, b) ∈ _workers (fold_left remove_worker ids q)).
Proof.
  revert q. induction ids as [|wid ids IH]; intros q Hids Hsub Hst Hmap; simpl; auto.
  apply IH.
  - intros wid' a Hin. apply Hids. apply elem_of_cons. now right.
  - intros kv Hin. apply Hsub. unfold remove_worker in Hin.
    destruct (JsMap.get wid (_workers q)); simpl in Hin; auto.
    eapply JsMapFacts.elem_delete; eauto.
  - intros b Hb. unfold remove_worker.
    destruct (JsMap.get wid (_workers q)) as [a|] eqn:Eg; simpl; auto.
    rewrite list_lookup_alter_ne; auto.
    intros ->. apply JsMapFacts.get_Some_elem, Hsub in Eg.
    rewrite (Hids wid b) in Hb; [discriminate | apply elem_of_cons; now left | auto].
  - intros k b Hin Hb. unfold remove_worker.
    destruct (JsMap.get wid (_workers q)) as [a|] eqn:Eg; simpl; auto.
    apply JsMapFacts.elem_delete_ne; auto. simpl. intros ->.
    rewrite (Hids wid b) in Hb; [discriminate | apply elem_of_cons; now left | auto].
Qed.

(** X27. Scaling down never takes a worker that is busy: when [scale]
    does not add workers, every busy worker of the map is still in the map
    afterwards, under the same id, and is untouched. *)
Theorem scale_down_spares_busy_workers
  (gen gen' : nat -> Entropy) (config : WorkerPoolConfig) (p : t) (count : Z)
  (k : string) (a : nat) :
  reachable gen config p ->
  (Z.min count (maxWorkers (_config p)) <= Z.of_nat (size p))%Z ->
  (k, a) ∈ _workers p ->
  state_is busy p a = true ->
  (k, a) ∈ _workers (scale gen' count p) /\
  store (scale gen' count p) !! a = store p !! a /\
  state_is busy (scale gen' count p) a = true.
Proof.
  intros Hr Hle Hin Hb. apply reachable_pool_wf in Hr. destruct Hr as [K I].
  assert (H : (k, a) ∈ _workers (scale gen' count p) /\
              store (scale gen' count p) !! a = store p !! a).
  { unfold scale, size in *. destruct (_disposed p); auto.
    destruct (Z.of_nat (JsMap.size (_workers p)) <?
              Z.min count (maxWorkers (_config p)))%Z eqn:E1;
      [apply Z.ltb_lt in E1; lia|].
    destruct (Z.min count (maxWorkers (_config p)) <?
              Z.of_nat (JsMap.size (_workers p)))%Z; auto.
    unfold _shrinkPool.
    set (ids := collect_idle p (JsMap.values (_workers p)) _).
    assert (Hids : forall wid b, wid ∈ ids -> (wid, b) ∈ _workers p ->
                     state_is busy p b = false).
    { intros wid b Hwid Hinb.
      apply collect_idle_spec in Hwid as (a0 & w & Ha0 & Hl & Hs & Hid).
      apply JsMapFacts.values_elem in Ha0 as [k0 Hk0].
      destruct (I _ _ Hk0) as (w' & Hl' & Hid'). rewrite Hl in Hl'. injection Hl' as <-.
      subst k0 wid.
      pose proof (JsMapFacts.elem_get _ _ _ K Hk0) as G1.
      pose proof (JsMapFacts.elem_get _ _ _ K Hinb) as G2.
      rewrite G1 in G2. injection G2 as <-.
      unfold state_is. now rewrite Hl, Hs. }
    destruct (remove_all_spares_busy p ids p Hids) as [H1 H2]; auto. }
  destruct H as [H1 H2]. repeat split; auto.
  unfold state_is in *. now rewrite H2.
Qed.

Lemma scale_down_spares_busy_workers_witness :
  size sample_busy = 3 /\
  size (scale distinct_ids 1 sample_busy) = 1 /\
  state_is busy (scale distinct_ids 1 sample_busy) 0 = true.
Proof.
  assert (Hr : reachable distinct_ids sample_config sample_busy).
  { apply (reach_step _ _ (scale (fun i => {| now := 1; rnd := pretty i |}) 3
                             (new distinct_ids sample_config)) EvExecute);
      [| reflexivity].
    apply (reach_step _ _ (new distinct_ids sample_config)
             (EvScale (fun i => {| now := 1; rnd := pretty i |}) 3));
      [apply reach_new | reflexivity]. }
  assert (Hin : ("worker_0_0", 0) ∈ _workers sample_busy).
  { vm_compute. apply elem_of_cons. now left. }
  destruct (scale_down_spares_busy_workers distinct_ids distinct_ids sample_config
              sample_busy 1 "worker_0_0" 0 Hr ltac:(vm_compute; discriminate) Hin eq_refl)
    as (_ & _ & H).
  split; [reflexivity|]. split; [reflexivity | exact H].
Defined.

End WorkerPoolProps.

(** ** Properties of [Authority] *)
Module AuthorityProps.
Import Authority.

(** *** Delivery *)

(** A stretch of listeners that neither call back nor throw is delivered
    to in order. *)
Lemma deliver_quiet beh ch data a s seg :
  JsMap.get ch (_listeners a) = Some s ->
  (forall l, Some l ∈ seg -> beh l data = quiet) ->
  forall fuel idx log,
  (forall k e, seg !! k = Some e -> s !! (idx + k) = Some e) ->
  deliver (length seg + fuel) beh ch data idx a log =
  deliver fuel beh ch data (idx + length seg) a (log ++ JsSet.elements seg).
Proof.
  intros Hg. induction seg as [|e seg IH]; intros Hq fuel idx log Hseg; simpl.
  - now rewrite Nat.add_0_r, app_nil_r.
  - rewrite Hg. pose proof (Hseg 0 e eq_refl) as H0. rewrite Nat.add_0_r in H0.
    rewrite H0.
    assert (Hseg' : forall k e', seg !! k = Some e' -> s !! (S idx + k) = Some e').
    { intros k e' Hk. specialize (Hseg (S k) e' Hk).
      now replace (S idx + k) with (idx + S k) by lia. }
    assert (Hq' : forall l, Some l ∈ seg -> beh l data = quiet).
    { intros l Hl. apply Hq. apply elem_of_cons. now right. }
    destruct e as [l|].
    + rewrite (Hq l) by (apply elem_of_cons; now left). simpl.
      rewrite IH by auto. f_equal; [lia|].
      unfold JsSet.elements. simpl. now rewrite <- app_assoc.
    + rewrite IH by auto. f_equal. lia.
Qed.

Lemma segment_lookup (pre seg post : JsSet.t) k e :
  seg !! k = Some e -> (pre ++ seg ++ post) !! (length pre + k) = Some e.
Proof.
  intros H. rewrite lookup_app_r by lia.
  replace (length pre + k - length pre) with k by lia.
  now apply lookup_app_l_Some.
Qed.

(** *** A listener that throws *)





(** *** A listener added during delivery *)

(** C4, as stated, fails: with listener 1 alone on the channel when
    [broadcast] is invoked, and listener 1 subscribing listener 2 to the
    channel while it is being called, listener 2 is called in the same
    broadcast. *)
Lemma broadcast_reaches_late_listener :
  let a := subscribe "c" 1 new in
  JsMap.get "c" (_listeners a) = Some [Some 1] /\
  forall fuel,
    broadcast (3 + fuel) first_subscribes "c" (VNum 7) a =
      Some (subscribe "c" 2 a, [1; 2], None).
Proof. split; reflexivity. Qed.

Lemma get_subscribe ch l a s :
  JsMap.get ch (_listeners a) = Some s ->
  JsMap.get ch (_listeners (subscribe ch l a)) = Some (JsSet.add l s).
Proof.
  intros Hg. unfold subscribe, JsMap.has. rewrite Hg. simpl. rewrite Hg. simpl.
  apply JsMapFacts.get_set_eq.
Qed.

(** C4, amended. [broadcast] walks the Set of the channel itself, not a
    copy. When one listener of the channel subscribes, while it is called,
    a listener that is not on the channel yet, and the new listener and
    all the others return without throwing and without calling back into
    the Authority, then the listeners that were on the channel are called
    in subscription order and the new one is called in the same
    broadcast, after them. *)
Theorem broadcast_walks_live_set (beh : Behaviour) (ch : string) (data : JsValue)
    (a : t) (pre post : JsSet.t) (l l' : nat) (fuel : nat) :
  JsMap.get ch (_listeners a) = Some (pre ++ Some l :: post) ->
  (forall k, Some k ∈ pre ++ post -> beh k data = quiet) ->
  beh l data = {| calls := [CallSubscribe ch l']; throws := None |} ->
  JsSet.has l' (pre ++ Some l :: post) = false ->
  beh l' data = quiet ->
  broadcast (length pre + S (length post + S (S fuel))) beh ch data a =
    Some (subscribe ch l' a,
          JsSet.elements pre ++ [l] ++ JsSet.elements post ++ [l'],
          None).
Proof.
  intros Hg Hq Hl Hnew Hl'. unfold broadcast. rewrite Hg.
  assert (Hqpre : forall k, Some k ∈ pre -> beh k data = quiet).
  { intros k Hk. apply Hq. apply elem_of_app. now left. }
  rewrite (deliver_quiet beh ch data a _ pre Hg Hqpre _ 0 []).
  2: { intros k e Hk. simpl. now apply lookup_app_l_Some. }
  simpl. rewrite Hg. unfold JsSet.t.
  rewrite lookup_app_r by lia. rewrite Nat.sub_diag. simpl.
  rewrite Hl. simpl.
  pose proof (get_subscribe ch l' a _ Hg) as Hg'.
  unfold JsSet.add in Hg'. rewrite Hnew in Hg'.
  assert (Hqpost : forall k, Some k ∈ post ++ [Some l'] -> beh k data = quiet).
  { intros k Hk. apply elem_of_app in Hk as [Hk|Hk].
    - apply Hq. apply elem_of_app. now right.
    - apply list_elem_of_singleton in Hk. injection Hk as ->. exact Hl'. }
  replace (length post + S (S fuel)) with (length (post ++ [Some l']) + S fuel)
    by (rewrite length_app; simpl; lia).
  rewrite (deliver_quiet beh ch data _ _ (post ++ [Some l']) Hg' Hqpost).
  2: { intros k e Hk.
       replace (S (length pre) + k) with (length (pre ++ [Some l]) + k)
         by (rewrite length_app; simpl; lia).
       replace ((pre ++ Some l :: post) ++ [Some l'])
         with ((pre ++ [Some l]) ++ (post ++ [Some l']) ++ []).
       - now apply segment_lookup.
       - rewrite app_nil_r, <- !app_assoc. reflexivity. }
  simpl. rewrite Hg'. unfold JsSet.t.
  rewrite lookup_ge_None_2.
  2: { rewrite !length_app. simpl. lia. }
  rewrite JsSetFacts.elements_app. simpl.
  rewrite <- !app_assoc. reflexivity.
Qed.

Lemma broadcast_walks_live_set_witness :
  broadcast 5 first_subscribes "c" (VNum 7)
    (subscribe "c" 3 (subscribe "c" 1 (subscribe "c" 0 new))) =
  Some (subscribe "c" 2 (subscribe "c" 3 (subscribe "c" 1 (subscribe "c" 0 new))),
        [0; 1; 3; 2], None).
Proof.
  apply (broadcast_walks_live_set first_subscribes "c" (VNum 7)
           (subscribe "c" 3 (subscribe "c" 1 (subscribe "c" 0 new)))
           [Some 0] [Some 3] 1 2 0).
  - reflexivity.
  - intros k Hk. apply elem_of_cons in Hk as [Hk|Hk].
    + injection Hk as ->. reflexivity.
    + apply list_elem_of_singleton in Hk. injection Hk as ->. reflexivity.
  - reflexivity.
  - reflexivity.
  - reflexivity.
Defined.

(** *** The repository's tests, replayed (core/Authority.test.ts) *)

(** 'should broadcast to multiple subscribers' and 'should unsubscribe' *)
Example broadcast_tests :
  let nobody : Behaviour := fun _ _ => quiet in
  let a := subscribe "event" 2 (subscribe "event" 1 new) in
  broadcast 5 nobody "event" (VStr "data") a = Some (a, [1; 2], None) /\
  broadcast 5 nobody "other" (VStr "data") a = Some (a, [], None) /\
  broadcast 5 nobody "event" (VStr "data") (unsubscribe "event" 1 a) =
    Some (unsubscribe "event" 1 a, [2], None).
Proof. repeat split. Qed.

(** *** Subscriptions and delivery *)

Lemma listeners_subscribe ch l a :
  listeners ch (subscribe ch l a) =
    if bool_decide (l ∈ listeners ch a) then listeners ch a else listeners ch a ++ [l].
Proof.
  unfold listeners, subscribe, JsMap.has.
  destruct (JsMap.get ch (_listeners a)) as [s|] eqn:Eg.
  - simpl. rewrite Eg. simpl. rewrite JsMapFacts.get_set_eq, JsSetFacts.elements_add.
    destruct (JsSet.has l s) eqn:Eh.
    + apply JsSetFacts.has_elements in Eh. now rewrite bool_decide_eq_true_2.
    + rewrite bool_decide_eq_false_2; auto.
      intros Hin. apply JsSetFacts.has_elements in Hin. congruence.
  - rewrite bool_decide_eq_false_2 by apply not_elem_of_nil.
    simpl. rewrite JsMapFacts.get_set_eq. simpl. now rewrite JsMapFacts.get_set_eq.
Qed.

Lemma listeners_unsubscribe ch l a :
  listeners ch (unsubscribe ch l a) =
    List.filter (fun y => negb (Nat.eqb l y)) (listeners ch a).
Proof.
  unfold listeners, unsubscribe.
  destruct (JsMap.get ch (_listeners a)) as [s|] eqn:Eg; simpl.
  - now rewrite JsMapFacts.get_set_eq, JsSetFacts.elements_delete.
  - now rewrite Eg.
Qed.

Lemma listeners_other_channel ch ch' c a :
  match c with CallSubscribe x _ | CallUnsubscribe x _ => x end = ch ->
  ch' <> ch -> listeners ch' (apply_call a c) = listeners ch' a.
Proof.
  intros Hc Hne. unfold listeners.
  destruct c as [x l|x l]; simpl in *; subst x; unfold subscribe, unsubscribe, JsMap.has.
  - destruct (JsMap.get ch (_listeners a)) as [s|] eqn:Eg; simpl.
    + rewrite Eg. simpl. rewrite JsMapFacts.get_set_ne by congruence. reflexivity.
    + rewrite JsMapFacts.get_set_eq. simpl.
      rewrite !JsMapFacts.get_set_ne by congruence. reflexivity.
  - destruct (JsMap.get ch (_listeners a)) as [s|] eqn:Eg; simpl; auto.
    rewrite JsMapFacts.get_set_ne by congruence. reflexivity.
Qed.

Lemma NoDup_listeners_call ch c a :
  NoDup (listeners ch a) -> NoDup (listeners ch (apply_call a c)).
Proof.
  intros Hnd.
  destruct (decide (match c with CallSubscribe x _ | CallUnsubscribe x _ => x end = ch))
    as [He|Hne].
  - destruct c as [x l|x l]; simpl in *; subst x.
    + rewrite listeners_subscribe. case_bool_decide; auto.
      apply NoDup_app. repeat split; auto.
      * intros y Hy Hy'. apply list_elem_of_singleton in Hy'. congruence.
      * apply NoDup_singleton.
    + rewrite listeners_unsubscribe. now apply JsSetFacts.NoDup_filter_bool.
  - rewrite (listeners_other_channel _ ch c a eq_refl); auto.
Qed.

Lemma NoDup_listeners_run ch cs a :
  NoDup (listeners ch a) -> NoDup (listeners ch (run cs a)).
Proof.
  unfold run. revert a. induction cs as [|c cs IH]; intros a Hnd; simpl; auto.
  apply IH. now apply NoDup_listeners_call.
Qed.

Lemma elem_elements l (s : JsSet.t) : Some l ∈ s -> l ∈ JsSet.elements s.
Proof.
  unfold JsSet.elements. intros H. apply list_elem_of_omap. exists (Some l). auto.
Qed.

(** X28. A broadcast on a channel whose listeners return without calling
    back calls each of them exactly once, in the order of their
    subscriptions, and leaves the Authority as it is. A listener
    subscribed twice is called once, one that has unsubscribed is not
    called, and subscriptions to another channel do not matter. *)
Theorem broadcast_calls_each_listener_once
  (beh : Behaviour) (ch : string) (data : JsValue) (cs : list Call) (fuel : nat) :
  let a := run cs new in
  (forall l, l ∈ listeners ch a -> beh l data = quiet) ->
  broadcast (S (entries ch a) + fuel) beh ch data a = Some (a, listeners ch a, None) /\
  NoDup (listeners ch a) /\
  (forall l, listeners ch (subscribe ch l a) =
     if bool_decide (l ∈ listeners ch a) then listeners ch a else listeners ch a ++ [l]) /\
  (forall l, listeners ch (unsubscribe ch l a) =
     List.filter (fun y => negb (Nat.eqb l y)) (listeners ch a)) /\
  (forall ch' l, ch' <> ch ->
     listeners ch (subscribe ch' l a) = listeners ch a /\
     listeners ch (unsubscribe ch' l a) = listeners ch a).
Proof.
  intros a Hq. split; [| split; [| split; [| split]]].
  - unfold broadcast, listeners, entries in *.
    destruct (JsMap.get ch (_listeners a)) as [s|] eqn:Eg; [| reflexivity].
    replace (S (length s) + fuel) with (length s + S fuel) by lia.
    rewrite (deliver_quiet beh ch data a s s Eg).
    + simpl. rewrite Eg. unfold JsSet.t. now rewrite lookup_ge_None_2 by lia.
    + intros l Hl. apply Hq. now apply elem_elements.
    + intros k e Hk. exact Hk.
  - apply NoDup_listeners_run. unfold listeners. simpl. apply NoDup_nil_2.
  - intros l. apply listeners_subscribe.
  - intros l. apply listeners_unsubscribe.
  - intros ch' l Hne. split.
    + apply (listeners_other_channel ch' ch (CallSubscribe ch' l) a); auto.
    + apply (listeners_other_channel ch' ch (CallUnsubscribe ch' l) a); auto.
Qed.

Lemma broadcast_calls_each_listener_once_witness :
  broadcast 5 (fun _ _ => quiet) "c" (VNum 7)
    (run [CallSubscribe "c" 1; CallSubscribe "c" 2; CallSubscribe "c" 1;
          CallSubscribe "d" 9; CallUnsubscribe "c" 2; CallSubscribe "c" 3] new) =
  Some (run [CallSubscribe "c" 1; CallSubscribe "c" 2; CallSubscribe "c" 1;
             CallSubscribe "d" 9; CallUnsubscribe "c" 2; CallSubscribe "c" 3] new,
        [1; 3], None).
Proof.
  apply (broadcast_calls_each_listener_once (fun _ _ => quiet) "c" (VNum 7)
           [CallSubscribe "c" 1; CallSubscribe "c" 2; CallSubscribe "c" 1;
            CallSubscribe "d" 9; CallUnsubscribe "c" 2; CallSubscribe "c" 3] 1).
  intros l _. reflexivity.
Defined.

End AuthorityProps.

(** ** Properties of the scope registry *)
Module RegistryProps.
Import Registry.

Lemma apply_call_disposed a c :
  Authority._disposed (Authority.apply_call a c) = Authority._disposed a.
Proof.
  destruct c as [ch l|ch l]; simpl; unfold Authority.subscribe, Authority.unsubscribe.
  - now destruct (JsMap.get ch _).
  - now destruct (JsMap.get ch _).
Qed.

Lemma new_registry_wf navigator gen config : wf (new navigator gen config).
Proof.
  split; simpl.
  - apply NoDup_nil_2.
  - intros k a H. now apply elem_of_nil in H.
  - intros a s H. discriminate H.
  - unfold WorkerPool.new, WorkerPool._initializeWorkers.
    now rewrite WorkerPoolProps.disposed_init_loop.
  - discriminate.
Qed.

Lemma createScope_wf gen config r : wf r -> wf (fst (createScope gen config r)).
Proof.
  intros Hwf. unfold createScope.
  destruct (Authority._disposed (bus r)) eqn:Ed; simpl; auto.
  destruct (JsMap.has (Scope.cfg_id config) (_scopes r)) eqn:Eh; simpl; auto.
  destruct Hwf as [K I S P D]. split; simpl.
  - now apply JsMapFacts.NoDup_keys_set.
  - intros k a Hin. apply JsMapFacts.elem_set in Hin as [Heq|Hin].
    + injection Heq as -> ->. exists (Scope.new config true). split; [| reflexivity].
      rewrite lookup_app_r by lia. now rewrite Nat.sub_diag.
    + destruct (I _ _ Hin) as (s & Hl & Hid). exists s. split; auto.
      now apply lookup_app_l_Some.
  - intros a s Hl. apply lookup_app_Some in Hl as [Hl|[_ Hl]]; [exact (S _ _ Hl)|].
    destruct (a - length (scopes r)) eqn:E; simpl in Hl; [| discriminate].
    injection Hl as <-. apply Scope.reach_new.
  - rewrite ?Ed. rewrite Ed in P.
    destruct (Scope.cfg_engine config) as [[[w|]]|]; auto.
    destruct (w =? 0)%Z; auto.
    destruct (_ <? _)%Z; auto.
    rewrite <- P.
    apply (WorkerPoolProps.step_keeps_disposed (WorkerPool.EvScale gen w));
      [discriminate | reflexivity].
  - congruence.
Qed.

Lemma dispose_registry_wf r : wf r -> wf (dispose r).
Proof.
  intros Hwf. unfold dispose.
  destruct (Authority._disposed (bus r)) eqn:Ed; auto.
  destruct Hwf as [K I S P D]. split; simpl.
  - apply NoDup_nil_2.
  - intros k a H. now apply elem_of_nil in H.
  - apply alter_each_pres; auto.
    intros s Hs. apply (Scope.reach_step s Scope.EvDispose); auto.
  - unfold WorkerPool.dispose, Authority.dispose. rewrite P, Ed. reflexivity.
  - intros _. split; auto. unfold WorkerPool.dispose. now rewrite P, Ed.
Qed.

Lemma step_registry_wf ev r r' : wf r -> step ev r = Some r' -> wf r'.
Proof.
  intros Hwf Hs. destruct ev; simpl in Hs.
  - injection Hs as <-. now apply createScope_wf.
  - injection Hs as <-. destruct Hwf as [K I S P D]. split; simpl; auto.
    + now apply JsMapFacts.NoDup_keys_delete.
    + intros k a Hin. apply I. eapply JsMapFacts.elem_delete; eauto.
    + intros Hd. destruct (D Hd) as [E1 E2]. now rewrite E1.
  - injection Hs as <-. destruct Hwf as [K I S P D].
    split; simpl; auto; rewrite apply_call_disposed; auto.
  - injection Hs as <-. now apply dispose_registry_wf.
  - destruct (scopes r !! a) as [s|] eqn:El; [| discriminate].
    destruct (Scope.step ev s) as [s'|] eqn:Es; [| discriminate].
    injection Hs as <-. destruct Hwf as [K I S P D]. split; simpl; auto.
    + intros k b Hin. destruct (I _ _ Hin) as (s0 & Hl & Hid).
      destruct (decide (a = b)) as [->|Hne].
      * exists s'. rewrite list_lookup_insert_eq by (eapply lookup_lt_Some; eauto).
        split; auto. rewrite (ScopeProps.step_scope_id _ _ _ Es). congruence.
      * exists s0. now rewrite list_lookup_insert_ne.
    + intros b s0 Hl. destruct (decide (a = b)) as [->|Hne].
      * rewrite list_lookup_insert_eq in Hl by (eapply lookup_lt_Some; eauto).
        injection Hl as <-. eapply Scope.reach_step; eauto.
      * rewrite list_lookup_insert_ne in Hl by auto. eauto.
  - injection Hs as <-. destruct Hwf as [K I S P D]. split; simpl; auto.
    + rewrite <- P.
      apply (WorkerPoolProps.step_keeps_disposed WorkerPool.EvExecute);
        [discriminate | reflexivity].
    + intros Hd. destruct (D Hd) as [E1 E2]. split; auto.
      now rewrite (proj1 (WorkerPoolProps.execute_workers _)).
  - destruct (_ || _) eqn:Eb; [| discriminate].
    injection Hs as <-. destruct Hwf as [K I S P D]. split; simpl; auto.
    + rewrite <- P.
      apply (WorkerPoolProps.step_keeps_disposed (WorkerPool.EvWorkDone a));
        [discriminate | simpl; now rewrite Eb].
    + intros Hd. destruct (D Hd) as [E1 E2]. split; auto.
      now rewrite (proj1 (WorkerPoolProps.work_done_workers _ _)).
Qed.

Lemma reachable_registry_wf r : reachable r -> wf r.
Proof.
  induction 1 as [| r ev r' _ IH Hs];
    [apply new_registry_wf | eapply step_registry_wf; eauto].
Qed.

Lemma exec_registry_reachable evs r r' : reachable r -> exec evs r = Some r' -> reachable r'.
Proof.
  revert r. induction evs as [|ev evs IH]; intros r Hr Hex; simpl in Hex.
  - now injection Hex as <-.
  - destruct (step ev r) as [r1|] eqn:Hs; [| discriminate].
    eapply IH; [| exact Hex]. eapply reach_step; eauto.
Qed.


Lemma sample_two_scopes_reachable : reachable sample_two_scopes.
Proof.
  apply (exec_registry_reachable sample_events sample_new);
    [apply reach_new | reflexivity].
Qed.

(** *** The registry *)

(** X29. Scope ids are unique within an Authority. In every state the
    Authority can reach, the registered ids are pairwise different and
    each is bound to a Scope that carries that id. [createScope] on a
    disposed Authority fails with the disposed error; on a live one it
    fails with the already-exists error for a registered id, and for a
    fresh id it registers a new Scope in state INIT under that id,
    leaving the other entries as they are. A failing [createScope]
    changes nothing. *)
Theorem scope_ids_are_unique (r : t) (gen : nat -> Entropy) (config : Scope.ScopeConfig) :
  reachable r ->
  NoDup (getScopeIds r) /\
  (forall id a, getScope id r = Some a ->
     exists s, scopes r !! a = Some s /\ Scope.id s = id) /\
  if isDisposed r then
    createScope gen config r = (r, inl (KernelError "Authority is disposed"))
  else if hasScope (Scope.cfg_id config) r then
    createScope gen config r =
      (r, inl (KernelError
                 ("Scope " +:+ quoted (Scope.cfg_id config) +:+ " already exists")))
  else
    exists a,
      snd (createScope gen config r) = inr a /\
      getScope (Scope.cfg_id config) (fst (createScope gen config r)) = Some a /\
      scopes (fst (createScope gen config r)) !! a = Some (Scope.new config true) /\
      Scope.state (Scope.new config true) = ScopeFSM.INIT /\
      scopeCount (fst (createScope gen config r)) = S (scopeCount r) /\
      (forall id, id <> Scope.cfg_id config ->
         getScope id (fst (createScope gen config r)) = getScope id r).
Proof.
  intros Hr. apply reachable_registry_wf in Hr. destruct Hr as [K I S P D].
  split; [exact K|]. split.
  - intros id a Hg. apply I. now apply JsMapFacts.get_Some_elem.
  - unfold isDisposed, hasScope, createScope, getScope, scopeCount.
    destruct (Authority._disposed (bus r)) eqn:Hd; [reflexivity|].
    destruct (JsMap.has (Scope.cfg_id config) (_scopes r)) eqn:Eh; [reflexivity|].
    exists (length (scopes r)). simpl. repeat split.
    + apply JsMapFacts.get_set_eq.
    + rewrite lookup_app_r by lia. now rewrite Nat.sub_diag.
    + rewrite JsMapFacts.size_set, Eh. reflexivity.
    + intros id Hne. apply JsMapFacts.get_set_ne. congruence.
Qed.

Lemma scope_ids_are_unique_witness :
  getScopeIds sample_two_scopes = ["a"; "b"] /\ NoDup (getScopeIds sample_two_scopes).
Proof.
  destruct (scope_ids_are_unique sample_two_scopes WorkerPool.distinct_ids
              Scope.sample_config sample_two_scopes_reachable) as (H & _).
  split; [reflexivity | exact H].
Defined.

(** *** Disposal *)



End RegistryProps.
